(** * Citation-annotated content engine: a verification development

    Shallow embedding of the citation marker parser ([processCitationTags]),
    the markdown renderer ([renderMarkdown]), the tooltip controller
    ([showTooltip], [pinTooltip], [startHideTimer], [cancelHideTimer],
    [hideTooltip] and the document click listener) and the viewport
    positioner ([positionTooltipNear]) of [ui/frontend/public/app.js].

    JavaScript strings are sequences of UTF-16 code units: a code unit is an
    [N], a string a [list N].  Pixel coordinates are integers ([Z]). *)

From Stdlib Require Import String Ascii List Bool Arith NArith ZArith Lia.
Import ListNotations.

(* ================================================================== *)
(** * Viewport positioner *)
(* ================================================================== *)

Module Positioner.
Local Open Scope Z_scope.

(** The fields of [getBoundingClientRect()] that the code reads. *)
Record DOMRect := {
  left : Z;
  right : Z;
  top : Z;
  width : Z;
  height : Z
}.

(** [window.innerWidth] and [window.innerHeight]. *)
Record Window := {
  innerWidth : Z;
  innerHeight : Z
}.

(** The body of [positionTooltipNear] with [padding] as a parameter; the
    result is the pair written to [tooltip.style.left] and
    [tooltip.style.top]. *)
Definition place (padding : Z) (rect tooltipRect : DOMRect) (window : Window)
  : Z * Z :=
  let x := right rect + padding in
  let y := top rect in
  (* Prevent overflow right *)
  let x := if x + width tooltipRect >? innerWidth window - padding
           then left rect - width tooltipRect - padding
           else x in
  (* Prevent overflow bottom *)
  let y := if y + height tooltipRect >? innerHeight window - padding
           then innerHeight window - height tooltipRect - padding
           else y in
  (* Prevent negative values *)
  (Z.max padding x, Z.max padding y).

(** [const padding = 12]. *)
Definition positionTooltipNear : DOMRect -> DOMRect -> Window -> Z * Z :=
  place 12.

(** The default placement would cross the right margin. *)
Definition overflows_right (padding : Z) (rect tooltipRect : DOMRect)
    (window : Window) : Prop :=
  right rect + padding + width tooltipRect > innerWidth window - padding.

(** The default placement would cross the bottom margin. *)
Definition overflows_bottom (padding : Z) (rect tooltipRect : DOMRect)
    (window : Window) : Prop :=
  top rect + height tooltipRect > innerHeight window - padding.

(** An anchor at the left edge of a viewport narrower than the popover. *)
Definition narrow_rect : DOMRect :=
  {| left := 0; right := 50; top := 0; width := 50; height := 20 |}.
Definition wide_tooltip : DOMRect :=
  {| left := 0; right := 400; top := 0; width := 400; height := 100 |}.
Definition narrow_window : Window :=
  {| innerWidth := 300; innerHeight := 600 |}.

(** An anchor near the right edge of a roomy viewport. *)
Definition right_edge_rect : DOMRect :=
  {| left := 900; right := 950; top := 700; width := 50; height := 20 |}.
Definition small_tooltip : DOMRect :=
  {| left := 0; right := 300; top := 0; width := 300; height := 200 |}.
Definition roomy_window : Window :=
  {| innerWidth := 1000; innerHeight := 800 |}.

End Positioner.

(* ================================================================== *)
(** * JavaScript strings *)
(* ================================================================== *)

Module JS.
Local Open Scope N_scope.

(** A UTF-16 code unit, and a string of them. *)
Abbreviation char := N (only parsing).
Abbreviation jsstring := (list N) (only parsing).

(** A string literal of the source, as code units. *)
Definition lit (s : string) : jsstring :=
  map N_of_ascii (list_ascii_of_string s).

Definition char_eqb (a b : char) : bool := N.eqb a b.

Definition jsstring_eq_dec : forall a b : jsstring, {a = b} + {a <> b} :=
  list_eq_dec N.eq_dec.

Definition jsstring_eqb (a b : jsstring) : bool :=
  if jsstring_eq_dec a b then true else false.

(** A JavaScript object used as a map from string keys: the own properties
    in insertion order.  [obj_get] reads an own property ([None] where
    there is none): it is [o[k]] for every key that names no member of
    [Object.prototype], and [obj_read] below is [o[k]] for every key.
    [obj_set] is [o[k] = v]. *)
Definition obj (A : Type) := list (jsstring * A).

Fixpoint obj_get {A} (o : obj A) (k : jsstring) : option A :=
  match o with
  | [] => None
  | (k', v) :: o' => if jsstring_eqb k' k then Some v else obj_get o' k
  end.

Fixpoint obj_set {A} (o : obj A) (k : jsstring) (v : A) : obj A :=
  match o with
  | [] => [(k, v)]
  | (k', v') :: o' =>
      if jsstring_eqb k' k then (k', v) :: o' else (k', v') :: obj_set o' k v
  end.

(** The property names every object inherits from [Object.prototype]: the
    ones of ECMAScript and of its Annex B, which every browser has.  Each
    is a function, but [__proto__], an accessor that gives
    [Object.prototype] itself. *)
Definition object_prototype_keys : list jsstring :=
  [lit "constructor"; lit "__defineGetter__"; lit "__defineSetter__";
   lit "hasOwnProperty"; lit "__lookupGetter__"; lit "__lookupSetter__";
   lit "isPrototypeOf"; lit "propertyIsEnumerable"; lit "toString";
   lit "valueOf"; lit "__proto__"; lit "toLocaleString"].

Definition inherited (k : jsstring) : bool :=
  existsb (jsstring_eqb k) object_prototype_keys.

(** What the read [o[k]] gives on an object made by a literal or by
    [JSON.parse]: the own property, else the member of [Object.prototype]
    of that name, else [undefined].  ([obj_get] is the read where the key
    is no such name.) *)
Inductive property (A : Type) :=
| OwnValue (v : A)
| PrototypeMember
| NoProperty.
Arguments OwnValue {A} v.
Arguments PrototypeMember {A}.
Arguments NoProperty {A}.

Definition obj_read {A} (o : obj A) (k : jsstring) : property A :=
  match obj_get o k with
  | Some v => OwnValue v
  | None => if inherited k then PrototypeMember else NoProperty
  end.

(** [a || b] on strings that may be [null] or [undefined]: the empty string
    is falsy as well. *)
Definition or_default (a : option jsstring) (b : jsstring) : jsstring :=
  match a with
  | Some (c :: s) => c :: s
  | _ => b
  end.

(** The line terminators of ECMAScript: LF, CR, LS and PS. *)
Definition is_line_terminator (c : char) : bool :=
  (c =? 10) || (c =? 13) || (c =? 8232) || (c =? 8233).

(** [\d]. *)
Definition is_digit (c : char) : bool := (48 <=? c) && (c <=? 57).

(** What [trim] strips: the white space code points and the line
    terminators of ECMAScript. *)
Definition is_whitespace (c : char) : bool :=
  (c =? 9) || (c =? 10) || (c =? 11) || (c =? 12) || (c =? 13) ||
  (c =? 32) || (c =? 160) || (c =? 5760) ||
  ((8192 <=? c) && (c <=? 8202)) ||
  (c =? 8232) || (c =? 8233) || (c =? 8239) || (c =? 8287) ||
  (c =? 12288) || (c =? 65279).

Fixpoint trimStart (s : jsstring) : jsstring :=
  match s with
  | c :: s' => if is_whitespace c then trimStart s' else s
  | [] => []
  end.

Definition trimEnd (s : jsstring) : jsstring := rev (trimStart (rev s)).

(** [s.trim()]. *)
Definition trim (s : jsstring) : jsstring := trimEnd (trimStart s).

(** [s.startsWith(p)], also giving what follows [p]. *)
Fixpoint strip_prefix (p s : jsstring) : option jsstring :=
  match p, s with
  | [], _ => Some s
  | a :: p', b :: s' => if char_eqb a b then strip_prefix p' s' else None
  | _ :: _, [] => None
  end.

Definition startsWith (s p : jsstring) : bool :=
  match strip_prefix p s with Some _ => true | None => false end.

(** [s.split(sep)] for a separator of one code unit or more: [skip] code
    units of an occurrence of [sep] remain to be passed over, [cur] is the
    piece read so far, reversed. *)
Fixpoint split_go (sep : jsstring) (skip : nat) (cur : jsstring)
    (s : jsstring) : list jsstring :=
  match s with
  | [] => [rev cur]
  | c :: s' =>
      match skip with
      | S n => split_go sep n cur s'
      | O =>
          match strip_prefix sep s with
          | Some _ => rev cur :: split_go sep (length sep - 1) [] s'
          | None => split_go sep 0 (c :: cur) s'
          end
      end
  end.

Definition split (sep s : jsstring) : list jsstring := split_go sep 0 [] s.

(** [a.join(sep)]. *)
Fixpoint join (sep : jsstring) (a : list jsstring) : jsstring :=
  match a with
  | [] => []
  | [x] => x
  | x :: a' => x ++ sep ++ join sep a'
  end.

(** The decimal digits of a number, as [String(n)] and template literals
    print a non-negative integer. *)
Fixpoint uint_digits (u : Decimal.uint) : jsstring :=
  match u with
  | Decimal.Nil => []
  | Decimal.D0 u => 48 :: uint_digits u
  | Decimal.D1 u => 49 :: uint_digits u
  | Decimal.D2 u => 50 :: uint_digits u
  | Decimal.D3 u => 51 :: uint_digits u
  | Decimal.D4 u => 52 :: uint_digits u
  | Decimal.D5 u => 53 :: uint_digits u
  | Decimal.D6 u => 54 :: uint_digits u
  | Decimal.D7 u => 55 :: uint_digits u
  | Decimal.D8 u => 56 :: uint_digits u
  | Decimal.D9 u => 57 :: uint_digits u
  end.

Definition number_to_string (n : N) : jsstring := uint_digits (N.to_uint n).

(** [s] has an occurrence of [p]. *)
Definition contains (p s : jsstring) : Prop :=
  exists a b, s = a ++ p ++ b.

End JS.

(* ================================================================== *)
(** * Regular expressions *)
(* ================================================================== *)

(** The fragment of ECMAScript's regular expressions that the source
    uses, and its backtracking matcher in the continuation-passing style
    of the language specification. *)
Module Regex.
Import JS.

Inductive regex :=
| Lit (l : jsstring)            (* the characters of [l], in sequence *)
| AnyChar                       (* [.] *)
| DigitChar                     (* [\d] *)
| OneOf (cs : list char)        (* [[...]] *)
| LineStart                     (* [^] under the [m] flag *)
| LineEnd                       (* [$] under the [m] flag *)
| Cat (r1 r2 : regex)
| Capture (i : nat) (r : regex) (* the [i]-th parenthesis *)
| Repeat (min : nat) (greedy : bool) (r : regex)
                                (* [r*], [r+], [r*?], [r+?] *)
| Optional (r : regex).         (* [r?] *)

(** The captures: the strings of the groups that took part. *)
Definition caps := list (nat * jsstring).

Fixpoint get_cap (i : nat) (cs : caps) : option jsstring :=
  match cs with
  | [] => None
  | (j, v) :: cs' => if Nat.eqb j i then Some v else get_cap i cs'
  end.

Definition clear_caps (gs : list nat) (cs : caps) : caps :=
  filter (fun b => negb (existsb (Nat.eqb (fst b)) gs)) cs.

Definition set_cap (i : nat) (v : jsstring) (cs : caps) : caps :=
  (i, v) :: clear_caps [i] cs.

(** The groups inside a regular expression. *)
Fixpoint groups (r : regex) : list nat :=
  match r with
  | Cat r1 r2 => groups r1 ++ groups r2
  | Capture i r1 => i :: groups r1
  | Repeat _ _ r1 => groups r1
  | Optional r1 => groups r1
  | _ => []
  end.

(** The character before the position reached after reading [l]. *)
Definition last_char (prev : option char) (l : jsstring) : option char :=
  match rev l with
  | c :: _ => Some c
  | [] => prev
  end.

Definition at_line_start (prev : option char) : bool :=
  match prev with
  | None => true
  | Some c => is_line_terminator c
  end.

Definition at_line_end (s : jsstring) : bool :=
  match s with
  | [] => true
  | c :: _ => is_line_terminator c
  end.

(** A match state is the character before the position, the input from
    the position on, and the captures; a result is where the match ended,
    with its captures. *)
Definition result := option (jsstring * caps).
Definition kont := option char -> jsstring -> caps -> result.
Definition matcher := option char -> jsstring -> caps -> kont -> result.

Definition one_char (p : char -> bool) : matcher :=
  fun prev s cs k =>
    match s with
    | c :: s' => if p c then k (Some c) s' cs else None
    | [] => None
    end.

(** RepeatMatcher of the language specification, without an upper bound:
    an iteration past the minimum that reads nothing fails, the captures
    of the atom are cleared at each iteration, and a greedy quantifier
    tries the atom before the continuation.  [fuel] bounds the iterations
    and is never used up, see [repeat_fuel]. *)
Fixpoint repeat_matcher (m : matcher) (gs : list nat) (greedy : bool)
    (fuel min : nat) (prev : option char) (s : jsstring) (cs : caps)
    (k : kont) : result :=
  match fuel with
  | O => None
  | S fuel' =>
      let again :=
        m prev s (clear_caps gs cs)
          (fun prev' s' cs' =>
             if Nat.eqb min 0 && Nat.eqb (length s') (length s) then None
             else repeat_matcher m gs greedy fuel' (pred min) prev' s' cs' k)
      in
      if Nat.ltb 0 min then again
      else if greedy then
        match again with Some r => Some r | None => k prev s cs end
      else
        match k prev s cs with Some r => Some r | None => again end
  end.

Fixpoint compile (r : regex) : matcher :=
  match r with
  | Lit l => fun prev s cs k =>
      match strip_prefix l s with
      | Some s' => k (last_char prev l) s' cs
      | None => None
      end
  | AnyChar => one_char (fun c => negb (is_line_terminator c))
  | DigitChar => one_char is_digit
  | OneOf l => one_char (fun c => existsb (char_eqb c) l)
  | LineStart => fun prev s cs k =>
      if at_line_start prev then k prev s cs else None
  | LineEnd => fun prev s cs k =>
      if at_line_end s then k prev s cs else None
  | Cat r1 r2 => fun prev s cs k =>
      compile r1 prev s cs (fun prev' s' cs' => compile r2 prev' s' cs' k)
  | Capture i r1 => fun prev s cs k =>
      compile r1 prev s cs
        (fun prev' s' cs' =>
           k prev' s' (set_cap i (firstn (length s - length s') s) cs'))
  | Repeat min greedy r1 => fun prev s cs k =>
      repeat_matcher (compile r1) (groups r1) greedy
        (S (S (length s))) min prev s cs k
  | Optional r1 => fun prev s cs k =>
      match
        compile r1 prev s (clear_caps (groups r1) cs)
          (fun prev' s' cs' =>
             if Nat.eqb (length s') (length s) then None else k prev' s' cs')
      with
      | Some r => Some r
      | None => k prev s cs
      end
  end.

(** One attempt of the regular expression at a position: the input that
    follows the match, and the captures. *)
Definition exec_at (r : regex) (prev : option char) (s : jsstring) : result :=
  compile r prev s [] (fun _ s' cs => Some (s', cs)).

(** What a global [replace] sees of the input: the matches, left to right
    and not overlapping, each with its captures, and the code units
    between them. *)
Inductive segment :=
| Gap (c : char)
| Hit (whole : jsstring) (cs : caps).

(** The scan of [String.prototype.replace] with a global regular
    expression: at each position not inside a match the expression is
    tried; after a match the scan goes on where the match ended ([skip]
    counts the code units of the match still to pass), after an empty
    match one code unit further. *)
Fixpoint scan (r : regex) (skip : nat) (prev : option char) (s : jsstring)
  : list segment :=
  match skip with
  | S n =>
      match s with
      | c :: s' => scan r n (Some c) s'
      | [] => []
      end
  | O =>
      match exec_at r prev s with
      | Some (rest, cs) =>
          let n := (length s - length rest)%nat in
          Hit (firstn n s) cs ::
          match s with
          | c :: s' =>
              match n with
              | O => Gap c :: scan r 0 (Some c) s'
              | S n' => scan r n' (Some c) s'
              end
          | [] => []
          end
      | None =>
          match s with
          | c :: s' => Gap c :: scan r 0 (Some c) s'
          | [] => []
          end
      end
  end.

(** The scan as a relation: how the segments of an input from a position
    on come about. *)
Inductive scanned (r : regex) : option char -> jsstring -> list segment ->
                                Prop :=
| scanned_end prev :
    exec_at r prev [] = None ->
    scanned r prev [] []
| scanned_end_hit prev cs :
    exec_at r prev [] = Some ([], cs) ->
    scanned r prev [] [Hit [] cs]
| scanned_gap prev c s segs :
    exec_at r prev (c :: s) = None ->
    scanned r (Some c) s segs ->
    scanned r prev (c :: s) (Gap c :: segs)
| scanned_hit prev w rest cs segs :
    w <> [] ->
    exec_at r prev (w ++ rest) = Some (rest, cs) ->
    scanned r (last_char prev w) rest segs ->
    scanned r prev (w ++ rest) (Hit w cs :: segs)
| scanned_empty_hit prev c s cs segs :
    exec_at r prev (c :: s) = Some (c :: s, cs) ->
    scanned r (Some c) s segs ->
    scanned r prev (c :: s) (Hit [] cs :: Gap c :: segs).

(** The code units of the input a segment stands for. *)
Definition seg_source (sg : segment) : jsstring :=
  match sg with
  | Gap c => [c]
  | Hit whole _ => whole
  end.

(** [$1], [$2]: the empty string for a group that took no part. *)
Definition group (i : nat) (cs : caps) : jsstring :=
  match get_cap i cs with Some v => v | None => [] end.

(** [s.replace(r, f)] for a global [r] and a replacement that is a
    function of the match and its captures (the replacement patterns
    [$1] and [$&] are such functions). *)
Definition seg_out (f : jsstring -> caps -> jsstring) (sg : segment)
  : jsstring :=
  match sg with
  | Gap c => [c]
  | Hit whole cs => f whole cs
  end.

Definition replace (r : regex) (f : jsstring -> caps -> jsstring)
    (s : jsstring) : jsstring :=
  flat_map (seg_out f) (scan r 0 None s).

(** What the matcher computes, as a relation: [matches r prev m rest cs
    cs'] when [r] can read [m] at a position preceded by [prev] and
    followed by [m ++ rest], turning the captures [cs] into [cs']. *)
Inductive matches : regex -> option char -> jsstring -> jsstring ->
                    caps -> caps -> Prop :=
| M_Lit l prev rest cs :
    matches (Lit l) prev l rest cs cs
| M_AnyChar c prev rest cs :
    is_line_terminator c = false ->
    matches AnyChar prev [c] rest cs cs
| M_DigitChar c prev rest cs :
    is_digit c = true ->
    matches DigitChar prev [c] rest cs cs
| M_OneOf l c prev rest cs :
    existsb (char_eqb c) l = true ->
    matches (OneOf l) prev [c] rest cs cs
| M_LineStart prev rest cs :
    at_line_start prev = true ->
    matches LineStart prev [] rest cs cs
| M_LineEnd prev rest cs :
    at_line_end rest = true ->
    matches LineEnd prev [] rest cs cs
| M_Cat r1 r2 prev m1 m2 rest cs cs1 cs2 :
    matches r1 prev m1 (m2 ++ rest) cs cs1 ->
    matches r2 (last_char prev m1) m2 rest cs1 cs2 ->
    matches (Cat r1 r2) prev (m1 ++ m2) rest cs cs2
| M_Capture i r prev m rest cs cs1 :
    matches r prev m rest cs cs1 ->
    matches (Capture i r) prev m rest cs (set_cap i m cs1)
| M_Repeat_done greedy r prev rest cs :
    matches (Repeat 0 greedy r) prev [] rest cs cs
| M_Repeat_more min greedy r prev m1 m2 rest cs cs1 cs2 :
    matches r prev m1 (m2 ++ rest) (clear_caps (groups r) cs) cs1 ->
    (min = 0%nat -> m1 <> []) ->
    matches (Repeat (pred min) greedy r) (last_char prev m1) m2 rest cs1 cs2 ->
    matches (Repeat min greedy r) prev (m1 ++ m2) rest cs cs2
| M_Optional_skip r prev rest cs :
    matches (Optional r) prev [] rest cs cs
| M_Optional_take r prev m rest cs cs1 :
    matches r prev m rest (clear_caps (groups r) cs) cs1 ->
    m <> [] ->
    matches (Optional r) prev m rest cs cs1.

(** A matcher is sound for [matches]: a result comes from a split of the
    input into what the expression read and what the continuation got. *)
Definition sound (r : regex) (m : matcher) : Prop :=
  forall prev s cs k res,
    m prev s cs k = Some res ->
    exists mt rest cs',
      s = mt ++ rest /\ matches r prev mt rest cs cs' /\
      k (last_char prev mt) rest cs' = Some res.

(** [s.replace(r, f)] for a global [r] and a callback that reads and
    writes variables of the enclosing function: [st] is their value before
    each call, left to right. *)
Fixpoint replace_fold {St : Type}
    (f : St -> jsstring -> caps -> St * jsstring) (st : St)
    (segs : list segment) : St * jsstring :=
  match segs with
  | [] => (st, [])
  | Gap c :: segs' =>
      let '(st', out) := replace_fold f st segs' in (st', c :: out)
  | Hit whole cs :: segs' =>
      let '(st1, rep) := f st whole cs in
      let '(st2, out) := replace_fold f st1 segs' in
      (st2, rep ++ out)
  end.

(** A sequence of terms. *)
Fixpoint seq_re (rs : list regex) : regex :=
  match rs with
  | [] => Lit []
  | [r] => r
  | r :: rs' => Cat r (seq_re rs')
  end.

End Regex.

(* ================================================================== *)
(** * Tooltip controller *)
(* ================================================================== *)

Module Tooltip.
Import JS.
Import Positioner.

(** A source excerpt as the API delivers it; [None] is a missing or null
    field. *)
Record Source := {
  title : option jsstring;
  page_number : option jsstring;
  raw_text : option jsstring
}.

(** One section of [sectionData]; [sources] may be missing. *)
Record SectionData := {
  cited_text : option jsstring;
  sources : option (obj (option Source))
}.

(** [sectionData]: section key to section, where the API may have sent
    [null] for a section. *)
Definition SectionTable := obj (option SectionData).

(** A member of [Object.prototype] read as a source: a function, or
    [Object.prototype] itself, so a truthy value on which [title],
    [page_number] and [raw_text] are [undefined]. *)
Definition prototype_member : Source :=
  {| title := None; page_number := None; raw_text := None |}.

(** [sources?.[sourceId]] when it is truthy: an own entry that is not
    [null], or the member of [Object.prototype] that the id names. *)
Definition read_source (srcs : option (obj (option Source)))
    (sourceId : jsstring) : option Source :=
  match srcs with
  | Some srcs =>
      match obj_read srcs sourceId with
      | OwnValue (Some source) => Some source
      | OwnValue None => None
      | PrototypeMember => Some prototype_member
      | NoProperty => None
      end
  | None => None
  end.

(** [sectionData[sectionKey]?.sources?.[sourceId]], [None] when any link of
    the chain is missing or the value is falsy.  Both reads follow the
    prototype chain; a member of [Object.prototype] found for the section
    key has no [sources]. *)
Definition lookupSource (sectionData : SectionTable)
    (sectionKey sourceId : jsstring) : option Source :=
  match obj_read sectionData sectionKey with
  | OwnValue (Some section) => read_source (sources section) sourceId
  | OwnValue None => None
  | PrototypeMember => None
  | NoProperty => None
  end.

(** What [e.target] of a citation event provides: the two [data-]
    attributes and its bounding rectangle. *)
Record Citation := {
  data_source_id : jsstring;
  data_section : jsstring;
  bounding : DOMRect
}.

(** Console output of the controller. *)
Inductive LogEntry :=
| LogShowing (sourceId sectionKey : jsstring)
| WarnSourceNotFound (sourceId sectionKey : jsstring).

(** The module-level variables of the tooltip functions, the [tooltip]
    element, the browser's pending timers with their due times, its clock
    in milliseconds, and the console. *)
Record State := {
  visible : bool;                       (* classList has 'visible' *)
  pinned : bool;                        (* classList has 'pinned' *)
  hideTimeout : option positive;
  currentSourceId : option jsstring;
  currentSectionKey : option jsstring;
  tooltipPage : jsstring;
  tooltipTitle : jsstring;
  tooltipContent : jsstring;
  style_left : Z;
  style_top : Z;
  timers : list (positive * N);         (* pending: handle, due time *)
  next_timer : positive;
  now : N;
  console : list LogEntry
}.

Definition initial : State :=
  {| visible := false; pinned := false; hideTimeout := None;
     currentSourceId := None; currentSectionKey := None;
     tooltipPage := []; tooltipTitle := []; tooltipContent := [];
     style_left := 0; style_top := 0;
     timers := []; next_timer := 1; now := 0; console := [] |}.

(** The three states of the specification, read off the two classes. *)
Inductive Status := Hidden | Visible | Pinned.

Definition status (st : State) : Status :=
  if visible st then (if pinned st then Pinned else Visible) else Hidden.

(** [clearTimeout(id)]. *)
Definition clearTimeout (id : positive) (st : State) : State :=
  {| visible := visible st; pinned := pinned st;
     hideTimeout := hideTimeout st;
     currentSourceId := currentSourceId st;
     currentSectionKey := currentSectionKey st;
     tooltipPage := tooltipPage st; tooltipTitle := tooltipTitle st;
     tooltipContent := tooltipContent st;
     style_left := style_left st; style_top := style_top st;
     timers := filter (fun t => negb (Pos.eqb (fst t) id)) (timers st);
     next_timer := next_timer st; now := now st; console := console st |}.

Definition cancelHideTimer (st : State) : State :=
  match hideTimeout st with
  | Some id =>
      let st := clearTimeout id st in
      {| visible := visible st; pinned := pinned st;
         hideTimeout := None;
         currentSourceId := currentSourceId st;
         currentSectionKey := currentSectionKey st;
         tooltipPage := tooltipPage st; tooltipTitle := tooltipTitle st;
         tooltipContent := tooltipContent st;
         style_left := style_left st; style_top := style_top st;
         timers := timers st;
         next_timer := next_timer st; now := now st; console := console st |}
  | None => st
  end.

(** The callback [startHideTimer] hands to [setTimeout]. *)
Definition hideCallback (st : State) : State :=
  {| visible := false; pinned := pinned st;
     hideTimeout := hideTimeout st;
     currentSourceId := None;
     currentSectionKey := None;
     tooltipPage := tooltipPage st; tooltipTitle := tooltipTitle st;
     tooltipContent := tooltipContent st;
     style_left := style_left st; style_top := style_top st;
     timers := timers st;
     next_timer := next_timer st; now := now st; console := console st |}.

Definition startHideTimer (st : State) : State :=
  (* Don't hide if pinned *)
  if pinned st then st
  else
    (* hideTimeout = setTimeout(callback, 300) *)
    {| visible := visible st; pinned := pinned st;
       hideTimeout := Some (next_timer st);
       currentSourceId := currentSourceId st;
       currentSectionKey := currentSectionKey st;
       tooltipPage := tooltipPage st; tooltipTitle := tooltipTitle st;
       tooltipContent := tooltipContent st;
       style_left := style_left st; style_top := style_top st;
       timers := timers st ++ [(next_timer st, (now st + 300)%N)];
       next_timer := Pos.succ (next_timer st);
       now := now st; console := console st |}.

Definition pinTooltip (st : State) : State :=
  let st := cancelHideTimer st in
  {| visible := visible st; pinned := true;
     hideTimeout := hideTimeout st;
     currentSourceId := currentSourceId st;
     currentSectionKey := currentSectionKey st;
     tooltipPage := tooltipPage st; tooltipTitle := tooltipTitle st;
     tooltipContent := tooltipContent st;
     style_left := style_left st; style_top := style_top st;
     timers := timers st;
     next_timer := next_timer st; now := now st; console := console st |}.

Definition hideTooltip (st : State) : State :=
  {| visible := false; pinned := false;
     hideTimeout := hideTimeout st;
     currentSourceId := None;
     currentSectionKey := None;
     tooltipPage := tooltipPage st; tooltipTitle := tooltipTitle st;
     tooltipContent := tooltipContent st;
     style_left := style_left st; style_top := style_top st;
     timers := timers st;
     next_timer := next_timer st; now := now st; console := console st |}.

(** [showTooltip(e)]; [tooltipRect] and [window] are what the browser
    measures inside [positionTooltipNear]. *)
Definition showTooltip (sectionData : SectionTable) (target : Citation)
    (tooltipRect : DOMRect) (window : Window) (st : State) : State :=
  let st := cancelHideTimer st in
  let sourceId := data_source_id target in
  let sectionKey := data_section target in
  match lookupSource sectionData sectionKey sourceId with
  | Some source =>
      let '(x, y) := positionTooltipNear (bounding target) tooltipRect window in
      {| visible := true; pinned := pinned st;
         hideTimeout := hideTimeout st;
         currentSourceId := Some sourceId;
         currentSectionKey := Some sectionKey;
         tooltipPage := or_default (page_number source) (lit "Source");
         tooltipTitle := or_default (title source) (lit "Annual Report");
         tooltipContent :=
           or_default (raw_text source) (lit "No preview available");
         style_left := x; style_top := y;
         timers := timers st;
         next_timer := next_timer st; now := now st;
         console := console st ++ [LogShowing sourceId sectionKey] |}
  | None =>
      {| visible := visible st; pinned := pinned st;
         hideTimeout := hideTimeout st;
         currentSourceId := Some sourceId;
         currentSectionKey := Some sectionKey;
         tooltipPage := tooltipPage st; tooltipTitle := tooltipTitle st;
         tooltipContent := tooltipContent st;
         style_left := style_left st; style_top := style_top st;
         timers := timers st;
         next_timer := next_timer st; now := now st;
         console := console st ++ [WarnSourceNotFound sourceId sectionKey] |}
  end.

(** Where a click lands, as the document listener tells it apart. *)
Inductive ClickTarget := OnCitation | InsideTooltip | Elsewhere.

(** The document's click listener. *)
Definition documentClick (t : ClickTarget) (st : State) : State :=
  match t with
  | Elsewhere => hideTooltip st
  | _ => st
  end.

(** The browser lets [ms] milliseconds pass: every pending timer that is
    due by then runs its callback and is no longer pending. *)
Definition elapse (ms : N) (st : State) : State :=
  let t := (now st + ms)%N in
  let due := filter (fun tm => (snd tm <=? t)%N) (timers st) in
  let st := fold_left (fun s _ => hideCallback s) due st in
  {| visible := visible st; pinned := pinned st;
     hideTimeout := hideTimeout st;
     currentSourceId := currentSourceId st;
     currentSectionKey := currentSectionKey st;
     tooltipPage := tooltipPage st; tooltipTitle := tooltipTitle st;
     tooltipContent := tooltipContent st;
     style_left := style_left st; style_top := style_top st;
     timers := filter (fun tm => negb (snd tm <=? t)%N) (timers st);
     next_timer := next_timer st; now := t; console := console st |}.

(** The events the listeners of [addCitationListeners] and of the document
    receive, and the passing of time. *)
Inductive Event :=
| CitationEnter (target : Citation) (tooltipRect : DOMRect) (window : Window)
| CitationLeave
| TooltipEnter
| TooltipLeave
| Click (t : ClickTarget)
| Elapse (ms : N).

(** The listeners, as registered: a click on a citation runs [pinTooltip]
    and then bubbles to the document. *)
Definition handle (sectionData : SectionTable) (ev : Event) (st : State)
  : State :=
  match ev with
  | CitationEnter target tooltipRect window =>
      showTooltip sectionData target tooltipRect window st
  | CitationLeave => startHideTimer st
  | TooltipEnter => cancelHideTimer st
  | TooltipLeave => startHideTimer st
  | Click OnCitation => documentClick OnCitation (pinTooltip st)
  | Click t => documentClick t st
  | Elapse ms => elapse ms st
  end.

Definition run (sectionData : SectionTable) (evs : list Event) (st : State)
  : State :=
  fold_left (fun s ev => handle sectionData ev s) evs st.

(** Where the pointer is.  A browser delivers [mouseenter] and [mouseleave]
    in alternation: an element is left only after it was entered, and
    another is entered only after the previous one was left; a click lands
    where the pointer is. *)
Inductive Pointer := Away | OverCitation | OverTooltip.

Definition deliver (p : Pointer) (ev : Event) : option Pointer :=
  match ev, p with
  | CitationEnter _ _ _, Away => Some OverCitation
  | CitationLeave, OverCitation => Some Away
  | TooltipEnter, Away => Some OverTooltip
  | TooltipLeave, OverTooltip => Some Away
  | Click OnCitation, OverCitation => Some p
  | Click InsideTooltip, OverTooltip => Some p
  | Click Elsewhere, Away => Some p
  | Elapse _, _ => Some p
  | _, _ => None
  end.

(** The pointer after a sequence of events a browser can deliver, [None]
    for a sequence it cannot. *)
Fixpoint deliverable (p : Pointer) (evs : list Event) : option Pointer :=
  match evs with
  | [] => Some p
  | ev :: evs' =>
      match deliver p ev with
      | Some p' => deliverable p' evs'
      | None => None
      end
  end.

(** Every pending timer is the one [hideTimeout] refers to. *)
Definition tracked (st : State) : Prop :=
  timers st = [] \/
  exists id due, timers st = [(id, due)] /\ hideTimeout st = Some id.


(** Sample data: one section with one source. *)
Definition sample_source : Source :=
  {| title := Some (lit "Report"); page_number := Some (lit "12");
     raw_text := Some (lit "Revenue grew.") |}.

Definition sample_data : SectionTable :=
  [(lit "overview",
    Some {| cited_text := Some (lit "Revenue grew [[Src:1]].");
            sources := Some [(lit "src_1", Some sample_source)] |})].

Definition sample_citation : Citation :=
  {| data_source_id := lit "src_1"; data_section := lit "overview";
     bounding := right_edge_rect |}.

Definition dangling_citation : Citation :=
  {| data_source_id := lit "src_9"; data_section := lit "overview";
     bounding := right_edge_rect |}.

Definition enter_sample : Event :=
  CitationEnter sample_citation small_tooltip roomy_window.

Definition enter_dangling : Event :=
  CitationEnter dangling_citation small_tooltip roomy_window.

End Tooltip.

(* ================================================================== *)
(** * Citation marker parser *)
(* ================================================================== *)

Module Citations.
Import JS Regex.

(** [/\[\[Src:(\d+)\]\]/g]. *)
Definition marker_re : regex :=
  seq_re [Lit (lit "[[Src:"); Capture 1 (Repeat 1 true DigitChar);
          Lit (lit "]]")].

(** The local variables [citationNumber] and [citationMap] of one call. *)
Definition numbering := (N * obj N)%type.

(** [let citationNumber = 1; const citationMap = {};] *)
Definition fresh : numbering := (1%N, []).

(** [`src_${srcNum}`]. *)
Definition source_id (srcNum : jsstring) : jsstring := lit "src_" ++ srcNum.

(** [!citationMap[sourceId]]: true for a missing entry and for [0]. *)
Definition unnumbered (citationMap : obj N) (sourceId : jsstring) : bool :=
  match obj_get citationMap sourceId with
  | Some n => N.eqb n 0
  | None => true
  end.

(** The numbering part of the callback: the [if] and the read of
    [displayNum].  A key [src_...] is never a property of
    [Object.prototype], so [citationMap] is read as its own properties. *)
Definition assign (st : numbering) (sourceId : jsstring) : numbering * N :=
  let '(citationNumber, citationMap) := st in
  let '(citationNumber, citationMap) :=
    if unnumbered citationMap sourceId
    then ((citationNumber + 1)%N, obj_set citationMap sourceId citationNumber)
    else (citationNumber, citationMap) in
  let displayNum :=
    match obj_get citationMap sourceId with Some n => n | None => 0%N end in
  ((citationNumber, citationMap), displayNum).

(** A string between double quotes. *)
Definition quoted (s : jsstring) : jsstring := 34%N :: s ++ [34%N].

(** The template literal the callback returns. *)
Definition citation_span (sourceId sectionKey : jsstring) (displayNum : N)
  : jsstring :=
  lit "<span class=" ++ quoted (lit "citation") ++
  lit " data-source-id=" ++ quoted sourceId ++
  lit " data-section=" ++ quoted sectionKey ++
  lit " data-num=" ++ quoted (number_to_string displayNum) ++
  lit ">" ++ number_to_string displayNum ++ lit "</span>".

(** The callback of [processCitationTags]. *)
Definition on_marker (sectionKey : jsstring) (st : numbering)
    (whole : jsstring) (cs : caps) : numbering * jsstring :=
  let sourceId := source_id (group 1 cs) in
  let '(st', displayNum) := assign st sourceId in
  (st', citation_span sourceId sectionKey displayNum).

(** The call, with the final value of its local variables. *)
Definition processCitationTags_run (content sectionKey : jsstring)
  : numbering * jsstring :=
  replace_fold (on_marker sectionKey) fresh (scan marker_re 0 None content).

(** [processCitationTags(content, sources, sectionKey)]; [sources] is not
    read. *)
Definition processCitationTags {Sources : Type} (content : jsstring)
    (sources : Sources) (sectionKey : jsstring) : jsstring :=
  snd (processCitationTags_run content sectionKey).

(** [citationMap] when the call returns. *)
Definition citation_table (content : jsstring) : obj N :=
  snd (fst (processCitationTags_run content [])).

(** The source ids of the matches of a scan. *)
Definition ids_of (segs : list segment) : list jsstring :=
  flat_map (fun sg => match sg with
                      | Hit _ cs => [source_id (group 1 cs)]
                      | Gap _ => []
                      end) segs.

(** The source ids of the markers of a text, in document order. *)
Definition marker_ids (content : jsstring) : list jsstring :=
  ids_of (scan marker_re 0 None content).

(** The display numbers the callback hands out for a sequence of source
    ids. *)
Fixpoint numbers_from (st : numbering) (ids : list jsstring) : list N :=
  match ids with
  | [] => []
  | id :: ids' =>
      let '(st', n) := assign st id in n :: numbers_from st' ids'
  end.

Definition display_numbers (content : jsstring) : list N :=
  numbers_from fresh (marker_ids content).

(** A well-formed marker: [[[Src:], one digit or more, []]]. *)
Definition marker (digits : jsstring) : jsstring :=
  lit "[[Src:" ++ digits ++ lit "]]".

Definition digits_ok (digits : jsstring) : Prop :=
  digits <> [] /\ Forall (fun c => is_digit c = true) digits.

Definition has_marker (s : jsstring) : Prop :=
  exists digits, digits_ok digits /\ contains (marker digits) s.

(** A segment of a scan for markers: a code unit at which no well-formed
    marker starts, or a well-formed marker with its digits as group 1. *)
Inductive marker_scanned : jsstring -> list segment -> Prop :=
| ms_end : marker_scanned [] []
| ms_gap c s segs :
    (forall ds rest, digits_ok ds -> c :: s <> marker ds ++ rest) ->
    marker_scanned s segs ->
    marker_scanned (c :: s) (Gap c :: segs)
| ms_hit ds rest segs :
    digits_ok ds ->
    marker_scanned rest segs ->
    marker_scanned (marker ds ++ rest) (Hit (marker ds) [(1%nat, ds)] :: segs).

(** The distinct elements of a list, in the order of their first
    occurrence. *)
Fixpoint first_seen_acc (seen l : list jsstring) : list jsstring :=
  match l with
  | [] => []
  | x :: l' =>
      if in_dec jsstring_eq_dec x seen then first_seen_acc seen l'
      else x :: first_seen_acc (seen ++ [x]) l'
  end.

Definition first_seen (l : list jsstring) : list jsstring :=
  first_seen_acc [] l.

(** The numbers [from], [from + 1], ... of [n] entries. *)
Fixpoint count_from (from : N) (n : nat) : list N :=
  match n with
  | O => []
  | S n' => from :: count_from (from + 1)%N n'
  end.

(** Where [x] first occurs in [l]: its index, or the length of [l]. *)
Fixpoint position (x : jsstring) (l : list jsstring) : nat :=
  match l with
  | [] => O
  | y :: l' => if jsstring_eqb y x then O else S (position x l')
  end.

(** The local variables after the callback ran for [ids]. *)
Definition final_state (st : numbering) (ids : list jsstring) : numbering :=
  fold_left (fun st id => fst (assign st id)) ids st.

(** The table that numbers [keys] from [1] in their order. *)
Definition table_of (keys : list jsstring) : obj N :=
  combine keys (count_from 1 (length keys)).

(** The local variables when [keys] are numbered, in this order. *)
Definition state_of (keys : list jsstring) : numbering :=
  ((1 + N.of_nat (length keys))%N, table_of keys).

(** The output for a scan whose markers get the numbers [nums], in order. *)
Fixpoint render_numbered (sectionKey : jsstring) (segs : list segment)
    (nums : list N) : jsstring :=
  match segs with
  | [] => []
  | Gap c :: segs' => c :: render_numbered sectionKey segs' nums
  | Hit _ cs :: segs' =>
      match nums with
      | n :: nums' =>
          citation_span (source_id (group 1 cs)) sectionKey n ++
          render_numbered sectionKey segs' nums'
      | [] => []
      end
  end.

(** [createCollapsibleSection] as far as the section body goes: the text
    handed to [renderMarkdown], from [section.cited_text || ''] and the
    section's key. *)
Definition section_body (key : jsstring) (cited_text : option jsstring)
  : jsstring :=
  processCitationTags (or_default cited_text []) tt key.

(** The bodies [displayResults] builds, one call per section. *)
Definition section_bodies (sections : list (jsstring * option jsstring))
  : list jsstring :=
  map (fun ks => section_body (fst ks) (snd ks)) sections.

(** The texts of the examples. *)
Definition three_markers : jsstring := lit "a [[Src:5]] b [[Src:2]] c [[Src:5]]".
Definition malformed_markers : jsstring :=
  lit "[[Src:x]] [[Src:]] [[src:1]] [Src:2]] [[Src:12".
Definition bold_marker : jsstring := lit "**bold [[Src:1]] text**".

End Citations.

(* ================================================================== *)
(** * Markdown renderer *)
(* ================================================================== *)

Module Markdown.
Import JS Regex.

Definition nl : jsstring := [10%N].

(** [.+] and [.+?]. *)
Definition some_chars (greedy : bool) : regex := Repeat 1 greedy AnyChar.

(** [/^### (.+)$/gm], [/^## (.+)$/gm], [/^# (.+)$/gm]. *)
Definition heading_re (hashes : jsstring) : regex :=
  seq_re [LineStart; Lit (hashes ++ lit " "); Capture 1 (some_chars true);
          LineEnd].

(** [/\*\*(.+?)\*\*/g]. *)
Definition bold_re : regex :=
  seq_re [Lit (lit "**"); Capture 1 (some_chars false); Lit (lit "**")].

(** [/\*(.+?)\*/g]. *)
Definition italic_re : regex :=
  seq_re [Lit (lit "*"); Capture 1 (some_chars false); Lit (lit "*")].

(** [/^\* (.+)$/gm]. *)
Definition bullet_re : regex :=
  seq_re [LineStart; Lit (lit "* "); Capture 1 (some_chars true); LineEnd].

(** [/(<li>.*<\/li>\n?)+/g]. *)
Definition list_run_re : regex :=
  Repeat 1 true
    (Capture 1 (seq_re [Lit (lit "<li>"); Repeat 0 true AnyChar;
                        Lit (lit "</li>"); Optional (Lit nl)])).

(** [/^\d+\. (.+)$/gm]. *)
Definition numbered_re : regex :=
  seq_re [LineStart; Repeat 1 true DigitChar; Lit (lit ". ");
          Capture 1 (some_chars true); LineEnd].

(** [/\|(.+)\|\n\|[-: |]+\|\n((?:\|.+\|\n?)+)/g]. *)
Definition tableRegex : regex :=
  seq_re [Lit (lit "|"); Capture 1 (some_chars true); Lit (lit "|");
          Lit nl; Lit (lit "|"); Repeat 1 true (OneOf (lit "-: |"));
          Lit (lit "|"); Lit nl;
          Capture 2
            (Repeat 1 true
               (seq_re [Lit (lit "|"); some_chars true; Lit (lit "|");
                        Optional (Lit nl)]))].

(** The replacement pattern [<tag>$1</tag>]. *)
Definition wrap_group (tag : jsstring) (whole : jsstring) (cs : caps)
  : jsstring :=
  lit "<" ++ tag ++ lit ">" ++ group 1 cs ++ lit "</" ++ tag ++ lit ">".

(** The replacement pattern [<ul>$&</ul>]. *)
Definition wrap_whole (whole : jsstring) (cs : caps) : jsstring :=
  lit "<ul>" ++ whole ++ lit "</ul>".

(** [x.trim()] is truthy. *)
Definition nonblank (x : jsstring) : bool :=
  match trim x with [] => false | _ :: _ => true end.

(** [row.split('|').filter(c => c.trim())]. *)
Definition cells (row : jsstring) : list jsstring :=
  filter nonblank (split (lit "|") row).

(** The callback of the table replacement. *)
Definition table_html (whole : jsstring) (cs : caps) : jsstring :=
  let headerRow := group 1 cs in
  let bodyRows := group 2 cs in
  let headers := cells headerRow in
  let rows := map cells (split nl (trim bodyRows)) in
  lit "<table><thead><tr>" ++
  flat_map (fun h => lit "<th>" ++ trim h ++ lit "</th>") headers ++
  lit "</tr></thead><tbody>" ++
  flat_map (fun row =>
              lit "<tr>" ++
              flat_map (fun cell => lit "<td>" ++ trim cell ++ lit "</td>")
                       row ++
              lit "</tr>")
           rows ++
  lit "</tbody></table>".

(** The rewriting passes of [renderMarkdown] before the paragraphs. *)
Definition inline_passes (content : jsstring) : jsstring :=
  let html := content in
  (* Headers *)
  let html := replace (heading_re (lit "###")) (wrap_group (lit "h3")) html in
  let html := replace (heading_re (lit "##")) (wrap_group (lit "h2")) html in
  let html := replace (heading_re (lit "#")) (wrap_group (lit "h1")) html in
  (* Bold *)
  let html := replace bold_re (wrap_group (lit "strong")) html in
  (* Italic *)
  let html := replace italic_re (wrap_group (lit "em")) html in
  (* Lists (bullet) *)
  let html := replace bullet_re (wrap_group (lit "li")) html in
  let html := replace list_run_re wrap_whole html in
  (* Lists (numbered) *)
  let html := replace numbered_re (wrap_group (lit "li")) html in
  (* Tables - basic support *)
  replace tableRegex table_html html.

(** The callback of the paragraph pass. *)
Definition paragraph (p : jsstring) : jsstring :=
  let p := trim p in
  match p with
  | [] => []
  | _ =>
      if startsWith p (lit "<h") || startsWith p (lit "<ul") ||
         startsWith p (lit "<ol") || startsWith p (lit "<li") ||
         startsWith p (lit "<table")
      then p
      else lit "<p>" ++ p ++ lit "</p>"
  end.

(** The block logic: [html.split('\n\n').map(...)], the blocks before they
    are joined. *)
Definition blocks (html : jsstring) : list jsstring :=
  map paragraph (split (nl ++ nl) html).

(** The blocks of a rendering. *)
Definition render_blocks (content : jsstring) : list jsstring :=
  blocks (inline_passes content).

Definition renderMarkdown (content : jsstring) : jsstring :=
  join nl (render_blocks content).

(** What the renderer must leave alone: a string that starts with [<],
    ends with [>], holds no line terminator, [*] or [|], and in which
    every [<] is followed by [s] or by [/s]. *)
Record protected (p : jsstring) : Prop := {
  prot_head : exists t, p = 60%N :: t;
  prot_last : exists t, p = t ++ [62%N];
  prot_chars :
    Forall (fun c => is_line_terminator c = false /\ c <> 42%N /\
                     c <> 124%N) p;
  prot_lt : forall a b, p = a ++ 60%N :: b ->
    (exists t, b = 115%N :: t) \/ (exists t, b = 47%N :: 115%N :: t)
}.

(** A code unit that may stand inside a placeholder: no line terminator,
    [*], [|] or [<]. *)
Definition inner_char (c : char) : bool :=
  negb (is_line_terminator c) && negb (c =? 42)%N && negb (c =? 124)%N &&
  negb (c =? 60)%N.

(** A position at which no rule of the rewriting passes can start a
    match: the code unit is no [*] and no [|], no digit and no [#] at the
    start of a line, and no [l] after [<]. *)
Definition char_free (prev : option char) (c : char) : bool :=
  negb (c =? 42)%N && negb (c =? 124)%N &&
  (if at_line_start prev then negb (is_digit c) && negb (c =? 35)%N
   else true) &&
  match prev with
  | Some d => negb ((d =? 60)%N && (c =? 108)%N)
  | None => true
  end.

(** A text without markup, read after [prev]. *)
Fixpoint markup_free (prev : option char) (s : jsstring) : bool :=
  match s with
  | [] => true
  | c :: s' => char_free prev c && markup_free (Some c) s'
  end.

(** A plain paragraph: one line, not empty, without [*], [|] and [<],
    that starts with neither a digit, [#] nor white space and does not
    end with white space. *)
Definition plain_char (c : char) : bool :=
  negb (is_line_terminator c) && negb (c =? 42)%N && negb (c =? 124)%N &&
  negb (c =? 60)%N.

Definition plain_paragraph (x : jsstring) : bool :=
  match x with
  | [] => false
  | c :: _ =>
      forallb plain_char x && negb (is_digit c) && negb (c =? 35)%N &&
      negb (is_whitespace c) && negb (is_whitespace (last x 0%N))
  end.

(** A paragraph block. *)
Definition p_block (x : jsstring) : jsstring := lit "<p>" ++ x ++ lit "</p>".

(** Two plain paragraphs. *)
Definition two_paragraphs : jsstring := lit "a" ++ nl ++ nl ++ lit "b".

(** The keys of [sectionOrder]. *)
Definition section_keys : list jsstring :=
  [lit "overview"; lit "products"; lit "leadership"; lit "stakeholders";
   lit "metrics"].

(** A section key that brings no markup into the placeholder. *)
Definition key_char_ok (c : char) : bool :=
  negb (is_line_terminator c) && negb (c =? 42)%N && negb (c =? 124)%N &&
  negb (c =? 60)%N && negb (c =? 62)%N.

Definition key_ok (key : jsstring) : Prop :=
  Forall (fun c => key_char_ok c = true) key.

(** ** Shapes used by the statements about the passes *)

(** The shape shared by the expressions whose replacement is
    [<tag>$1</tag>]: delimiters around group 1, the opening one starting
    with [*] or at the start of a line, the closing one starting with [*]
    or empty at the end of a line, and no [<] in either. *)
Definition wrap_shape (r : regex) : Prop :=
  forall prev s rest cs,
    exec_at r prev s = Some (rest, cs) ->
    exists pre g post,
      s = pre ++ g ++ post ++ rest /\ group 1 cs = g /\
      pre <> [] /\ ~ In 60%N pre /\ ~ In 60%N post /\
      ((exists t, pre = 42%N :: t) \/ at_line_start prev = true) /\
      ((exists t, post = 42%N :: t) \/
       (post = [] /\ at_line_end rest = true)).

(** One [<li>...</li>] item of a run, with or without its newline. *)
Definition item_re : regex :=
  Capture 1 (seq_re [Lit (lit "<li>"); Repeat 0 true AnyChar;
                     Lit (lit "</li>"); Optional (Lit nl)]).

Definition starts_item (w : jsstring) : Prop := exists t, w = lit "<li>" ++ t.

Definition ends_item (w : jsstring) : Prop :=
  exists t o, w = t ++ lit "</li>" ++ o /\ (o = [] \/ o = nl).

(** One body row of a table, with or without its newline. *)
Definition row_re : regex :=
  seq_re [Lit (lit "|"); some_chars true; Lit (lit "|"); Optional (Lit nl)].

Definition ends_row (w : jsstring) : Prop :=
  exists y z, w = y ++ [z] /\ (z = 124%N \/ z = 10%N).

(** What stands between the first [<] of a placeholder and its
    [</span>]. *)
Definition span_body (sourceId sectionKey : jsstring) (displayNum : N)
  : jsstring :=
  lit "span class=" ++ Citations.quoted (lit "citation") ++
  lit " data-source-id=" ++ Citations.quoted sourceId ++
  lit " data-section=" ++ Citations.quoted sectionKey ++
  lit " data-num=" ++ Citations.quoted (number_to_string displayNum) ++
  lit ">" ++ number_to_string displayNum.

(** No expression of the passes matches where a text without markup
    begins. *)
Definition silent (r : regex) : Prop :=
  forall prev b, markup_free prev b = true -> exec_at r prev b = None.

End Markdown.

(* ================================================================== *)
(** * What the popover shows *)
(* ================================================================== *)

Module TooltipStates.
Import JS Tooltip.

(** The three text fields of the popover hold text. *)
Definition filled (st : State) : Prop :=
  tooltipPage st <> [] /\ tooltipTitle st <> [] /\ tooltipContent st <> [].

(** The popover holds text and the controller remembers a citation. *)
Definition showing (st : State) : Prop :=
  filled st /\ currentSourceId st <> None /\ currentSectionKey st <> None.

(** The texts [showTooltip] writes for a source. *)
Definition texts_of (source : Source) (st : State) : Prop :=
  tooltipPage st = or_default (page_number source) (lit "Source") /\
  tooltipTitle st = or_default (title source) (lit "Annual Report") /\
  tooltipContent st =
    or_default (raw_text source) (lit "No preview available").

(** A second source and a citation of it, in a second section. *)
Definition untitled_source : Source :=
  {| title := None; page_number := Some []; raw_text := Some (lit "Net income.") |}.

Definition two_sections : SectionTable :=
  sample_data ++
  [(lit "metrics",
    Some {| cited_text := Some (lit "Income [[Src:1]].");
            sources := Some [(lit "src_1", Some untitled_source)] |})].

Definition metrics_citation : Citation :=
  {| data_source_id := lit "src_1"; data_section := lit "metrics";
     bounding := Positioner.right_edge_rect |}.

End TooltipStates.

(* ================================================================== *)
(** * Results page *)
(* ================================================================== *)

(** [runAnalysis], [setLoading], [displayResults],
    [createCollapsibleSection] and the listeners of the section headers
    and of the back button of [ui/frontend/public/app.js], with the parts
    of the page they write. *)
Module Page.
Import JS.

(** One entry of a section's [citations]; the page reads their number. *)
Record CitationRef := {
  start_index : N;
  end_index : N;
  ref_source_id : jsstring
}.

(** A section of the response, as far as the page reads it: [cited_text]
    and [sources], and [citations], which may be missing. *)
Record ApiSection := {
  section_data : Tooltip.SectionData;
  citations : option (list CitationRef)
}.

(** The value of [data.overview], [data.products], ...: a section, [null],
    or [undefined] for a field the response does not have. *)
Inductive Field := Missing | Null | Present (s : ApiSection).

(** [if (section)]. *)
Definition truthy (v : Field) : bool :=
  match v with Present _ => true | _ => false end.

(** [s !== null]. *)
Definition not_null (v : Field) : bool :=
  match v with Null => false | _ => true end.

(** The parsed body of the response; [error] may be missing. *)
Record AnnualReportResponse := {
  error : option jsstring;
  overview : Field;
  products : Field;
  leadership : Field;
  stakeholders : Field;
  metrics : Field
}.

(** The object [runAnalysis] stores in [sectionData]. *)
Definition sections_of (data : AnnualReportResponse) : obj Field :=
  [(lit "overview", overview data);
   (lit "products", products data);
   (lit "leadership", leadership data);
   (lit "stakeholders", stakeholders data);
   (lit "metrics", metrics data)].

(** [sectionData] as the tooltip functions read it: [section?.sources]
    is [undefined] for [null] and for [undefined] alike. *)
Definition tooltip_table (sections : obj Field) : Tooltip.SectionTable :=
  map (fun kv => (fst kv,
                  match snd kv with
                  | Present s => Some (section_data s)
                  | _ => None
                  end)) sections.

(** A [div.collapsible-section]: its [data-section], the three values
    written into the header template, the [innerHTML] of its content, the
    [expanded] class of the content and the [aria-expanded] attribute of
    the collapse button. *)
Record SectionElement := {
  dataset_section : jsstring;
  header_icon : jsstring;
  header_title : jsstring;
  header_badge : jsstring;
  content_innerHTML : jsstring;
  expanded : bool;
  aria_expanded : jsstring
}.

(** [section.citations?.length || 0]. *)
Definition citationCount (s : ApiSection) : nat :=
  match citations s with
  | Some l => length l
  | None => 0
  end.

(** [section.cited_text || '']. *)
Definition cited_text_of (s : ApiSection) : jsstring :=
  or_default (Tooltip.cited_text (section_data s)) [].

Definition createCollapsibleSection (key title icon : jsstring)
    (s : ApiSection) : SectionElement :=
  (* Process cited text for display *)
  let processedContent :=
    Citations.processCitationTags (cited_text_of s)
      (match Tooltip.sources (section_data s) with
       | Some o => o
       | None => []
       end) key in
  {| dataset_section := key;
     header_icon := icon;
     header_title := title;
     header_badge :=
       number_to_string (N.of_nat (citationCount s)) ++ lit " citations";
     content_innerHTML :=
       lit "<div class=" ++ Citations.quoted (lit "section-body") ++
       lit ">" ++ Markdown.renderMarkdown processedContent ++ lit "</div>";
     expanded := true;
     aria_expanded := lit "true" |}.

(** [String(b)] for a boolean. *)
Definition bool_to_string (b : bool) : jsstring :=
  if b then lit "true" else lit "false".

(** The click listener of a section header. *)
Definition toggleCollapse (el : SectionElement) : SectionElement :=
  let isExpanded := expanded el in
  {| dataset_section := dataset_section el;
     header_icon := header_icon el;
     header_title := header_title el;
     header_badge := header_badge el;
     content_innerHTML := content_innerHTML el;
     expanded := negb (expanded el);
     aria_expanded := bool_to_string (negb isExpanded) |}.

(** [sectionOrder]: key, title and icon. *)
Definition sectionOrder : list (jsstring * jsstring * jsstring) :=
  [(lit "overview", lit "Company Overview", [55356; 57314]%N);
   (lit "products", lit "Products & Services", [55357; 56550]%N);
   (lit "leadership", lit "Leadership Team", [55357; 56421]%N);
   (lit "stakeholders", lit "Stakeholders", [55357; 56522]%N);
   (lit "metrics", lit "Key Metrics", [55357; 56520]%N)].

(** The submit button and its two labels. *)
Record Controls := {
  submitBtn_disabled : bool;
  btnText_display : jsstring;
  btnLoader_display : jsstring
}.

(** The results view: the two headings, the children of
    [sectionsContainer] and the [display] of the two page sections. *)
Record Results := {
  resultsTitle : jsstring;
  sectionCountBadge : jsstring;
  sectionsContainer : list SectionElement;
  inputSection_display : jsstring;
  resultsSection_display : jsstring
}.

(** A [fetch] the page sent: the address and the form data. *)
Record Request := {
  url : jsstring;
  company_name : jsstring;
  file : option jsstring
}.

(** Console output of the page functions. *)
Inductive PageLog :=
| LogStarting (companyName : jsstring)
| LogUploading (fileName : jsstring)
| LogApiResponse (data : AnnualReportResponse)
| LogDisplayed (count : nat)
| ErrAnalysisFailed (message : jsstring).

Record PageState := {
  controls : Controls;
  results : Results;
  sectionData : obj Field;
  requests : list Request;
  alerts : list jsstring;
  page_console : list PageLog
}.

Definition setLoading (isLoading : bool) (st : PageState) : PageState :=
  {| controls :=
       {| submitBtn_disabled := isLoading;
          btnText_display := if isLoading then lit "none" else lit "inline";
          btnLoader_display := if isLoading then lit "flex" else lit "none" |};
     results := results st; sectionData := sectionData st;
     requests := requests st; alerts := alerts st;
     page_console := page_console st |}.

Definition log (entry : PageLog) (st : PageState) : PageState :=
  {| controls := controls st; results := results st;
     sectionData := sectionData st; requests := requests st;
     alerts := alerts st; page_console := page_console st ++ [entry] |}.

(** The sections [displayResults] appends, in the order of
    [sectionOrder]. *)
Definition section_elements (sections : obj Field) : list SectionElement :=
  flat_map (fun kti =>
              let '(key, title, icon) := kti in
              match obj_get sections key with
              | Some (Present s) => [createCollapsibleSection key title icon s]
              | _ => []
              end) sectionOrder.

Definition displayResults (companyName : jsstring) (sections : obj Field)
    (st : PageState) : PageState :=
  (* Count valid sections *)
  let validSections := filter not_null (map snd sections) in
  let st :=
    {| controls := controls st;
       results :=
         {| resultsTitle := companyName ++ lit " - Annual Report Analysis";
            sectionCountBadge :=
              number_to_string (N.of_nat (length validSections)) ++
              lit " sections";
            sectionsContainer := section_elements sections;
            inputSection_display := lit "none";
            resultsSection_display := lit "block" |};
       sectionData := sectionData st; requests := requests st;
       alerts := alerts st; page_console := page_console st |} in
  log (LogDisplayed (length validSections)) st.

(** The click listener of the back button. *)
Definition backClick (st : PageState) : PageState :=
  {| controls := controls st;
     results :=
       {| resultsTitle := resultsTitle (results st);
          sectionCountBadge := sectionCountBadge (results st);
          sectionsContainer := sectionsContainer (results st);
          inputSection_display := lit "flex";
          resultsSection_display := lit "none" |};
     sectionData := sectionData st; requests := requests st;
     alerts := alerts st; page_console := page_console st |}.

(** What [fetch] and [response.json()] can come to: the request is
    rejected, or a response arrives with [ok], [status] and a body that
    parses or does not. *)
Inductive Body :=
| Unparsable (message : jsstring)
| Parsed (data : AnnualReportResponse).

Inductive FetchResult :=
| Rejected (message : jsstring)
| Responded (ok : bool) (status : N) (body : Body).

Definition API_BASE_URL : jsstring := lit "http://localhost:8000".

(** The [catch] block. *)
Definition failed (message : jsstring) (st : PageState) : PageState :=
  let st := log (ErrAnalysisFailed message) st in
  {| controls := controls st; results := results st;
     sectionData := sectionData st; requests := requests st;
     alerts := alerts st ++ [lit "Analysis failed: " ++ message];
     page_console := page_console st |}.

(** [runAnalysis] from its start to the end of its [finally] block:
    [value] is [companyInput.value], [chosen] the name of
    [fileInput.files[0]] and [answer] what the request comes to. *)
Definition runAnalysis (value : jsstring) (chosen : option jsstring)
    (answer : FetchResult) (st : PageState) : PageState :=
  let companyName := trim value in
  match companyName with
  | [] => st
  | _ :: _ =>
      let st := setLoading true st in
      let st := log (LogStarting companyName) st in
      let st := match chosen with
                | Some name => log (LogUploading name) st
                | None => st
                end in
      let st :=
        {| controls := controls st; results := results st;
           sectionData := sectionData st;
           requests :=
             requests st ++
             [{| url := API_BASE_URL ++ lit "/api/analyze-report-sequential";
                 company_name := companyName; file := chosen |}];
           alerts := alerts st; page_console := page_console st |} in
      let st :=
        match answer with
        | Rejected message => failed message st
        | Responded ok status body =>
            if negb ok
            then failed (lit "API error: " ++ number_to_string status) st
            else
              match body with
              | Unparsable message => failed message st
              | Parsed data =>
                  let st := log (LogApiResponse data) st in
                  match error data with
                  | Some (c :: message) => failed (c :: message) st
                  | _ =>
                      (* Store section data *)
                      let st :=
                        {| controls := controls st; results := results st;
                           sectionData := sections_of data;
                           requests := requests st; alerts := alerts st;
                           page_console := page_console st |} in
                      (* Display results *)
                      displayResults companyName (sectionData st) st
                  end
              end
        end in
      setLoading false st
  end.

(** What the request comes to for [runAnalysis]: the message of the
    error thrown, or the data to display. *)
Definition outcome (answer : FetchResult) : jsstring + AnnualReportResponse :=
  match answer with
  | Rejected message => inl message
  | Responded false status _ =>
      inl (lit "API error: " ++ number_to_string status)
  | Responded true _ (Unparsable message) => inl message
  | Responded true _ (Parsed data) =>
      match error data with
      | Some (c :: message) => inl (c :: message)
      | _ => inr data
      end
  end.

(** The keys of the sections on display. *)
Definition displayed_keys (st : PageState) : list jsstring :=
  map dataset_section (sectionsContainer (results st)).

(** The fields of a response, in the order of [sectionOrder]. *)
Definition fields (data : AnnualReportResponse) : list Field :=
  map snd (sections_of data).

(** [section.sources?.[sourceId]] when it is truthy. *)
Definition own_source (s : ApiSection) (sourceId : jsstring)
  : option Tooltip.Source :=
  Tooltip.read_source (Tooltip.sources (section_data s)) sourceId.

(** The else branch of [showTooltip] for [target]: visibility and texts
    of the popover as before, one warning more on the console. *)
Definition unchanged_with_warning (before after : Tooltip.State)
    (target : Tooltip.Citation) : Prop :=
  Tooltip.visible after = Tooltip.visible before /\
  Tooltip.tooltipPage after = Tooltip.tooltipPage before /\
  Tooltip.tooltipTitle after = Tooltip.tooltipTitle before /\
  Tooltip.tooltipContent after = Tooltip.tooltipContent before /\
  Tooltip.console after =
    Tooltip.console before ++
    [Tooltip.WarnSourceNotFound (Tooltip.data_source_id target)
       (Tooltip.data_section target)].

(** A response with two sections, one [null] and two fields missing. *)
Definition overview_section : ApiSection :=
  {| section_data :=
       {| Tooltip.cited_text := Some (lit "Revenue grew [[Src:1]].");
          Tooltip.sources := Some [(lit "src_1", Some Tooltip.sample_source)] |};
     citations :=
       Some [{| start_index := 0; end_index := 13;
                ref_source_id := lit "src_1" |}] |}.

Definition metrics_section : ApiSection :=
  {| section_data :=
       {| Tooltip.cited_text := Some (lit "Income [[Src:1]].");
          Tooltip.sources :=
            Some [(lit "src_1", Some TooltipStates.untitled_source)] |};
     citations := None |}.

Definition sample_response : AnnualReportResponse :=
  {| error := None; overview := Present overview_section;
     products := Null; leadership := Missing; stakeholders := Missing;
     metrics := Present metrics_section |}.

Definition blank_page : PageState :=
  {| controls := {| submitBtn_disabled := false;
                    btnText_display := lit "inline";
                    btnLoader_display := lit "none" |};
     results := {| resultsTitle := []; sectionCountBadge := [];
                   sectionsContainer := [];
                   inputSection_display := lit "flex";
                   resultsSection_display := lit "none" |};
     sectionData := []; requests := []; alerts := [];
     page_console := [] |}.

End Page.

(* ================================================================== *)
(** * Numbered placeholders *)
(* ================================================================== *)

Module Spans.
Import JS Regex.

(** The output of a scan for markers whose matches are replaced by
    [span id n], with [n] taken from [nums] in order. *)
Fixpoint render_spans (span : jsstring -> N -> jsstring)
    (segs : list segment) (nums : list N) : jsstring :=
  match segs with
  | [] => []
  | Gap c :: segs' => c :: render_spans span segs' nums
  | Hit _ cs :: segs' =>
      match nums with
      | n :: nums' =>
          span (Citations.source_id (group 1 cs)) n ++
          render_spans span segs' nums'
      | [] => []
      end
  end.

(** The callback of a marker parser that numbers as [processCitationTags]
    does and writes [span]. *)
Definition on_marker_with (span : jsstring -> N -> jsstring)
    (st : Citations.numbering) (whole : jsstring) (cs : caps)
  : Citations.numbering * jsstring :=
  let sourceId := Citations.source_id (group 1 cs) in
  let '(st', displayNum) := Citations.assign st sourceId in
  (st', span sourceId displayNum).

(** A template for placeholders that start with [<] and hold no [[]. *)
Definition closed_template (span : jsstring -> N -> jsstring) : Prop :=
  forall ds n, Forall (fun c => is_digit c = true) ds ->
    (exists t, span (Citations.source_id ds) n = 60%N :: t) /\
    ~ In 91%N (span (Citations.source_id ds) n).

End Spans.

(* ================================================================== *)
(** * The earlier variants of the page *)
(* ================================================================== *)

(** The first script of [ui/frontend/public/app.js]: [processCitations],
    [renderContent], and a tooltip that follows the pointer
    ([showTooltip], [hideTooltip], [moveTooltip], [positionTooltip]). *)
Module Legacy.
Import JS Regex Positioner.

(** The template literal of [processCitations]. *)
Definition citation_span (fullId : jsstring) (number : N) : jsstring :=
  lit "<span class=" ++ Citations.quoted (lit "citation") ++
  lit " data-source-id=" ++ Citations.quoted fullId ++
  lit ">" ++ number_to_string number ++ lit "</span>".

(** The callback of [processCitations]. *)
Definition on_marker (st : Citations.numbering) (whole : jsstring) (cs : caps)
  : Citations.numbering * jsstring :=
  let fullId := Citations.source_id (group 1 cs) in
  let '(st', number) := Citations.assign st fullId in
  (st', citation_span fullId number).

Definition processCitations (content : jsstring) : jsstring :=
  snd (replace_fold on_marker Citations.fresh
         (scan Citations.marker_re 0 None content)).

(** The rewriting passes of [renderContent]. *)
Definition inline_passes (content : jsstring) : jsstring :=
  let html := content in
  (* Headers *)
  let html := replace (Markdown.heading_re (lit "###"))
                (Markdown.wrap_group (lit "h3")) html in
  let html := replace (Markdown.heading_re (lit "##"))
                (Markdown.wrap_group (lit "h2")) html in
  let html := replace (Markdown.heading_re (lit "#"))
                (Markdown.wrap_group (lit "h1")) html in
  (* Bold *)
  let html := replace Markdown.bold_re (Markdown.wrap_group (lit "strong"))
                html in
  (* Lists *)
  let html := replace Markdown.bullet_re (Markdown.wrap_group (lit "li"))
                html in
  replace Markdown.list_run_re Markdown.wrap_whole html.

(** The callback of the paragraph pass: no trimming, and an empty piece
    is wrapped as well. *)
Definition paragraph (p : jsstring) : jsstring :=
  if startsWith p (lit "<h") || startsWith p (lit "<ul") then p
  else lit "<p>" ++ p ++ lit "</p>".

Definition renderContent (content : jsstring) : jsstring :=
  join Markdown.nl
    (map paragraph (split (Markdown.nl ++ Markdown.nl) (inline_passes content))).

(** [positionTooltip(e)]: [clientX] and [clientY] are the pointer's, the
    result is the pair written to [tooltip.style.left] and
    [tooltip.style.top]. *)
Definition positionTooltip (clientX clientY : Z) (tooltipRect : DOMRect)
    (window : Window) : Z * Z :=
  let padding := 16%Z in
  let x := (clientX + padding)%Z in
  let y := (clientY + padding)%Z in
  (* Prevent overflow right *)
  let x := if (x + width tooltipRect >? innerWidth window - padding)%Z
           then (clientX - width tooltipRect - padding)%Z
           else x in
  (* Prevent overflow bottom *)
  let y := if (y + height tooltipRect >? innerHeight window - padding)%Z
           then (clientY - height tooltipRect - padding)%Z
           else y in
  (x, y).

(** The tooltip element of this script: the class [visible], the three
    texts and the position. *)
Record Tip := {
  tip_visible : bool;
  tip_page : jsstring;
  tip_title : jsstring;
  tip_content : jsstring;
  tip_left : Z;
  tip_top : Z
}.

(** [showTooltip(e)]: [sourcesData] is the object of the sources,
    [sourceId] the [data-source-id] of the target. *)
Definition showTooltip (sourcesData : obj (option Tooltip.Source))
    (sourceId : jsstring) (clientX clientY : Z) (tooltipRect : DOMRect)
    (window : Window) (tip : Tip) : Tip :=
  match Tooltip.read_source (Some sourcesData) sourceId with
  | Some source =>
      let '(x, y) := positionTooltip clientX clientY tooltipRect window in
      {| tip_visible := true;
         tip_page := or_default (Tooltip.page_number source) (lit "Source");
         tip_title := or_default (Tooltip.title source) (lit "Annual Report");
         tip_content :=
           or_default (Tooltip.raw_text source) (lit "No preview available");
         tip_left := x; tip_top := y |}
  | None => tip
  end.

Definition hideTooltip (tip : Tip) : Tip :=
  {| tip_visible := false; tip_page := tip_page tip;
     tip_title := tip_title tip; tip_content := tip_content tip;
     tip_left := tip_left tip; tip_top := tip_top tip |}.

Definition moveTooltip (clientX clientY : Z) (tooltipRect : DOMRect)
    (window : Window) (tip : Tip) : Tip :=
  let '(x, y) := positionTooltip clientX clientY tooltipRect window in
  {| tip_visible := tip_visible tip; tip_page := tip_page tip;
     tip_title := tip_title tip; tip_content := tip_content tip;
     tip_left := x; tip_top := y |}.

(** What stands between the first [<] of a placeholder and its
    [</span>]. *)
Definition span_body (fullId : jsstring) (number : N) : jsstring :=
  lit "span class=" ++ Citations.quoted (lit "citation") ++
  lit " data-source-id=" ++ Citations.quoted fullId ++
  lit ">" ++ number_to_string number.

End Legacy.

(** The script of [frontend/public/app.js]: one text for the whole
    report, no section keys, no tables, and a tooltip text cut at 400
    code units. *)
Module Basic.
Import JS Regex.

(** The template literal of [processCitationTags]. *)
Definition citation_span (sourceId : jsstring) (displayNum : N) : jsstring :=
  lit "<span class=" ++ Citations.quoted (lit "citation") ++
  lit " data-source-id=" ++ Citations.quoted sourceId ++
  lit " data-num=" ++ Citations.quoted (number_to_string displayNum) ++
  lit ">" ++ number_to_string displayNum ++ lit "</span>".

Definition on_marker (st : Citations.numbering) (whole : jsstring) (cs : caps)
  : Citations.numbering * jsstring :=
  let sourceId := Citations.source_id (group 1 cs) in
  let '(st', displayNum) := Citations.assign st sourceId in
  (st', citation_span sourceId displayNum).

Definition processCitationTags (content : jsstring) : jsstring :=
  snd (replace_fold on_marker Citations.fresh
         (scan Citations.marker_re 0 None content)).

(** The rewriting passes of [renderMarkdown]: those of the other script
    but the table. *)
Definition inline_passes (content : jsstring) : jsstring :=
  let html := content in
  (* Headers *)
  let html := replace (Markdown.heading_re (lit "###"))
                (Markdown.wrap_group (lit "h3")) html in
  let html := replace (Markdown.heading_re (lit "##"))
                (Markdown.wrap_group (lit "h2")) html in
  let html := replace (Markdown.heading_re (lit "#"))
                (Markdown.wrap_group (lit "h1")) html in
  (* Bold *)
  let html := replace Markdown.bold_re (Markdown.wrap_group (lit "strong"))
                html in
  (* Italic *)
  let html := replace Markdown.italic_re (Markdown.wrap_group (lit "em"))
                html in
  (* Lists (bullet) *)
  let html := replace Markdown.bullet_re (Markdown.wrap_group (lit "li"))
                html in
  let html := replace Markdown.list_run_re Markdown.wrap_whole html in
  (* Lists (numbered) *)
  replace Markdown.numbered_re (Markdown.wrap_group (lit "li")) html.

Definition paragraph (p : jsstring) : jsstring :=
  let p := trim p in
  match p with
  | [] => []
  | _ =>
      if startsWith p (lit "<h") || startsWith p (lit "<ul") ||
         startsWith p (lit "<ol") || startsWith p (lit "<li")
      then p
      else lit "<p>" ++ p ++ lit "</p>"
  end.

Definition renderMarkdown (content : jsstring) : jsstring :=
  join Markdown.nl
    (map paragraph (split (Markdown.nl ++ Markdown.nl) (inline_passes content))).

(** What [showTooltip] writes to [tooltipContent] for a source: the raw
    text, cut after 400 code units. *)
Definition shown_text (source : Tooltip.Source) : jsstring :=
  let rawText :=
    or_default (Tooltip.raw_text source) (lit "No preview available") in
  if (400 <? length rawText)%nat
  then firstn 400 rawText ++ lit "..."
  else rawText.

(** The parsed body of the response, as far as [runAnalysis] reads it. *)
Record FinalResponse := {
  error : option jsstring;
  sources : option (obj (option Tooltip.Source));
  citations : option (list Page.CitationRef);
  cited_text : option jsstring;
  content : option jsstring
}.

(** The module-level variables [sourcesData] and [citationsData]. *)
Record Stored := {
  sourcesData : obj (option Tooltip.Source);
  citationsData : list Page.CitationRef
}.

(** What [runAnalysis] does with the parsed body: the variables after
    it, and the message of the error it throws or the text and the count
    it hands to [displayResults]. *)
Definition receive (data : FinalResponse) (stored : Stored)
  : Stored * (jsstring + jsstring * nat) :=
  match error data with
  | Some (c :: message) => (stored, inl (c :: message))
  | _ =>
      (* Store data from FinalResponse *)
      let stored :=
        {| sourcesData := match sources data with Some o => o | None => [] end;
           citationsData :=
             match citations data with Some l => l | None => [] end |} in
      let citedText :=
        or_default (cited_text data) (or_default (content data) []) in
      match citedText with
      | [] => (stored, inl (lit "No content received from analysis"))
      | _ :: _ => (stored, inr (citedText, length (citationsData stored)))
      end
  end.

(** What stands between the first [<] of a placeholder and its
    [</span>]. *)
Definition span_body (sourceId : jsstring) (displayNum : N) : jsstring :=
  lit "span class=" ++ Citations.quoted (lit "citation") ++
  lit " data-source-id=" ++ Citations.quoted sourceId ++
  lit " data-num=" ++ Citations.quoted (number_to_string displayNum) ++
  lit ">" ++ number_to_string displayNum.

End Basic.

(* ================================================================== *)
(** * Simple markdown sources *)
(* ================================================================== *)

Module Documents.
Import JS Markdown.

(** A plain line: not empty, without line terminator, [*], [|] and
    [<]. *)
Definition plain_line (t : jsstring) : bool :=
  match t with
  | [] => false
  | _ :: _ => forallb plain_char t
  end.

(** Plain text that may be empty. *)
Definition plain_text (t : jsstring) : bool := forallb plain_char t.

(** Text before an inline element at the start of a paragraph: empty, or
    starting with neither a digit, [#] nor white space. *)
Definition prose_start (a : jsstring) : bool :=
  match a with
  | [] => true
  | c :: _ => negb (is_digit c) && negb (c =? 35)%N && negb (is_whitespace c)
  end.

(** Text after an inline element at the end of a paragraph: empty, or not
    ending with white space. *)
Definition prose_end (b : jsstring) : bool :=
  match b with
  | [] => true
  | _ :: _ => negb (is_whitespace (last b 0%N))
  end.

(** A heading line of the given level. *)
Definition heading_line (level : nat) (t : jsstring) : jsstring :=
  repeat 35%N level ++ lit " " ++ t.

(** An element between its opening and its closing tag. *)
Definition element (tag body : jsstring) : jsstring :=
  lit "<" ++ tag ++ lit ">" ++ body ++ lit "</" ++ tag ++ lit ">".

(** No line of [s], read after [prev], starts with a code unit that is
    [bad]. *)
Fixpoint line_starts_free (bad : char -> bool) (prev : option char)
    (s : jsstring) : bool :=
  match s with
  | [] => true
  | c :: s' =>
      negb (Regex.at_line_start prev && bad c) &&
      line_starts_free bad (Some c) s'
  end.

(** A bullet line, a list item and a numbered line. *)
Definition bullet_line (x : jsstring) : jsstring := lit "* " ++ x.

Definition list_item (x : jsstring) : jsstring := element (lit "li") x.

Definition numbered_line (entry : jsstring * jsstring) : jsstring :=
  fst entry ++ lit ". " ++ snd entry.

(** The digits and the text of a numbered line: one digit or more, and
    a plain line. *)
Definition numbered_entry (entry : jsstring * jsstring) : bool :=
  match fst entry with
  | [] => false
  | _ :: _ => forallb is_digit (fst entry)
  end && plain_line (snd entry).

End Documents.

(* ================================================================== *)
(** * Theorems *)
(* ================================================================== *)

Module PositionerFacts.
Import Positioner.
Local Open Scope Z_scope.

Example place_right_edge :
  positionTooltipNear right_edge_rect small_tooltip roomy_window = (588, 588).
Proof. reflexivity. Qed.

Lemma place_ge_padding padding rect tip win :
  let '(x, y) := place padding rect tip win in padding <= x /\ padding <= y.
Proof. unfold place; cbn; split; apply Z.le_max_l. Qed.

(** C9, as stated, fails: with the anchor at the left edge of a viewport
    narrower than the popover the placement flips, is pulled back to
    [padding] by the final clamp, is then not left of the anchor and runs
    over the right edge of the viewport. *)
Lemma C9_flip_not_left_and_overflows :
  let '(x, y) := positionTooltipNear narrow_rect wide_tooltip narrow_window in
  overflows_right 12 narrow_rect wide_tooltip narrow_window /\
  ~ x < left narrow_rect /\
  ~ x + width wide_tooltip <= innerWidth narrow_window.
Proof. cbn; unfold overflows_right; cbn; lia. Qed.

(** C9, amended: the coordinates are [max padding] of the placement chosen;
    the placement is to the right of the anchor by [padding] unless that
    crosses the right margin, and then left of the anchor by [padding]; it
    is the anchor's top unless that crosses the bottom margin, and then
    [padding] above the bottom edge.  When the flipped placement is not
    pulled back by the clamp the popover ends [padding] before the anchor
    starts; when the bottom placement is not pulled back the popover ends
    [padding] above the bottom edge.  Both coordinates are at least
    [padding], hence positive. *)
Theorem C9_place_amended padding rect tip win :
  0 < padding ->
  let '(x, y) := place padding rect tip win in
  (padding <= x /\ padding <= y /\ 0 < x /\ 0 < y) /\
  (~ overflows_right padding rect tip win ->
     x = Z.max padding (right rect + padding)) /\
  (overflows_right padding rect tip win ->
     x = Z.max padding (left rect - width tip - padding) /\
     (padding <= left rect - width tip - padding ->
        x + width tip + padding = left rect /\
        (0 <= width tip -> x < left rect) /\
        (left rect <= innerWidth win -> x + width tip <= innerWidth win))) /\
  (~ overflows_bottom padding rect tip win ->
     y = Z.max padding (top rect)) /\
  (overflows_bottom padding rect tip win ->
     y = Z.max padding (innerHeight win - height tip - padding) /\
     (height tip + 2 * padding <= innerHeight win ->
        y + height tip = innerHeight win - padding /\
        y + height tip <= innerHeight win)).
Proof.
  intros Hpad. unfold place, overflows_right, overflows_bottom.
  destruct (Z.gtb_spec (right rect + padding + width tip)
                       (innerWidth win - padding)) as [Hx | Hx];
  destruct (Z.gtb_spec (top rect + height tip)
                       (innerHeight win - padding)) as [Hy | Hy];
  repeat split; intros; try lia.
Qed.

Lemma C9_place_amended_witness :
  0 < 12 /\
  overflows_right 12 right_edge_rect small_tooltip roomy_window /\
  fst (place 12 right_edge_rect small_tooltip roomy_window)
    + width small_tooltip + 12 = left right_edge_rect /\
  overflows_bottom 12 right_edge_rect small_tooltip roomy_window /\
  snd (place 12 right_edge_rect small_tooltip roomy_window)
    + height small_tooltip = innerHeight roomy_window - 12.
Proof.
  assert (Hpad : 0 < 12) by lia.
  assert (Hr : overflows_right 12 right_edge_rect small_tooltip roomy_window)
    by (unfold overflows_right; cbn; lia).
  assert (Hb : overflows_bottom 12 right_edge_rect small_tooltip roomy_window)
    by (unfold overflows_bottom; cbn; lia).
  pose proof (C9_place_amended 12 right_edge_rect small_tooltip roomy_window
                Hpad) as H.
  destruct (place 12 right_edge_rect small_tooltip roomy_window) as [x y].
  destruct H as (_ & _ & Hx & _ & Hy).
  destruct (Hx Hr) as (_ & Hx').
  destruct (Hx' ltac:(cbn; lia)) as (Hx1 & _).
  destruct (Hy Hb) as (_ & Hy').
  destruct (Hy' ltac:(cbn; lia)) as (Hy1 & _).
  exact (conj Hpad (conj Hr (conj Hx1 (conj Hb Hy1)))).
Defined.

End PositionerFacts.

Module TooltipFacts.
Import JS Positioner Tooltip.

Lemma cancel_tracked st :
  tracked st ->
  timers (cancelHideTimer st) = [] /\ hideTimeout (cancelHideTimer st) = None
  \/ (hideTimeout st = None /\ cancelHideTimer st = st).
Proof.
  intros [Hnil | (id & due & Ht & Hh)]; unfold cancelHideTimer.
  - destruct (hideTimeout st) as [id|] eqn:E; [left | right; auto].
    cbn. rewrite Hnil. auto.
  - rewrite Hh. left. cbn. rewrite Ht. cbn. rewrite Pos.eqb_refl. auto.
Qed.

Lemma cancel_tracked_timers st :
  tracked st -> timers (cancelHideTimer st) = [].
Proof.
  intros H. pose proof H as [Hnil | (id & due & Ht & Hh)].
  - unfold cancelHideTimer. destruct (hideTimeout st); cbn; rewrite Hnil; auto.
  - unfold cancelHideTimer. rewrite Hh. cbn. rewrite Ht. cbn.
    rewrite Pos.eqb_refl. reflexivity.
Qed.

Lemma cancel_classes st :
  visible (cancelHideTimer st) = visible st /\
  pinned (cancelHideTimer st) = pinned st.
Proof. unfold cancelHideTimer. destruct (hideTimeout st); cbn; auto. Qed.

Lemma show_timers sd tg tr w st :
  timers (showTooltip sd tg tr w st) = timers (cancelHideTimer st).
Proof.
  unfold showTooltip.
  destruct (lookupSource sd (data_section tg) (data_source_id tg)); cbn;
    [destruct (positionTooltipNear (bounding tg) tr w) |]; reflexivity.
Qed.


Lemma fold_hide_fields (due : list (positive * N)) st :
  let st' := fold_left (fun s _ => hideCallback s) due st in
  pinned st' = pinned st /\ hideTimeout st' = hideTimeout st /\
  timers st' = timers st /\ console st' = console st /\
  visible st' = (match due with [] => visible st | _ => false end).
Proof.
  revert st. induction due as [| t due IH]; intros st; cbn; [auto 6 |].
  specialize (IH (hideCallback st)). cbn in IH.
  destruct IH as (H1 & H2 & H3 & H4 & H5).
  repeat split; try assumption. rewrite H5. destruct due; reflexivity.
Qed.

Lemma elapse_fields ms st :
  pinned (elapse ms st) = pinned st /\
  hideTimeout (elapse ms st) = hideTimeout st /\
  timers (elapse ms st) =
    filter (fun tm => negb (snd tm <=? now st + ms)%N) (timers st) /\
  visible (elapse ms st) =
    (match filter (fun tm => (snd tm <=? now st + ms)%N) (timers st) with
     | [] => visible st
     | _ => false
     end).
Proof.
  unfold elapse. cbn.
  pose proof (fold_hide_fields
    (filter (fun tm => (snd tm <=? now st + ms)%N) (timers st)) st) as H.
  cbn in H. destruct H as (H1 & H2 & H3 & H4 & H5).
  rewrite H3. repeat split; assumption.
Qed.

Lemma elapse_idle ms st :
  timers st = [] ->
  visible (elapse ms st) = visible st /\ pinned (elapse ms st) = pinned st /\
  timers (elapse ms st) = [].
Proof.
  intros Ht. destruct (elapse_fields ms st) as (H1 & H2 & H3 & H4).
  rewrite Ht in *. cbn in *. auto.
Qed.

Lemma elapse_hidden ms st :
  visible st = false -> visible (elapse ms st) = false.
Proof.
  intros Hv. destruct (elapse_fields ms st) as (_ & _ & _ & H4).
  rewrite H4, Hv.
  destruct (filter (fun tm => (snd tm <=? now st + ms)%N) (timers st));
    reflexivity.
Qed.





#[local] Arguments elapse : simpl never.
#[local] Arguments startHideTimer : simpl never.
#[local] Arguments cancelHideTimer : simpl never.
#[local] Arguments showTooltip : simpl never.

Lemma status_visible st :
  status st = Visible <-> visible st = true /\ pinned st = false.
Proof.
  unfold status. destruct (visible st), (pinned st); split;
    try discriminate; intuition discriminate.
Qed.

Lemma status_hidden st : status st = Hidden <-> visible st = false.
Proof.
  unfold status. destruct (visible st), (pinned st); split;
    try discriminate; intuition discriminate.
Qed.

Lemma status_pinned st :
  status st = Pinned <-> visible st = true /\ pinned st = true.
Proof.
  unfold status. destruct (visible st), (pinned st); split;
    try discriminate; intuition discriminate.
Qed.

Lemma start_unpinned st :
  pinned st = false ->
  timers (startHideTimer st) = timers st ++ [(next_timer st, (now st + 300)%N)]
  /\ hideTimeout (startHideTimer st) = Some (next_timer st)
  /\ visible (startHideTimer st) = visible st
  /\ pinned (startHideTimer st) = false
  /\ now (startHideTimer st) = now st.
Proof. intros H. unfold startHideTimer. rewrite H. cbn. auto. Qed.

(** Two leaves in a row, which no browser delivers, leave two timers
    pending, and the first can no longer be cancelled: it hides a popover
    that was pinned in the meantime. *)
Example orphan_timer_hides_pinned :
  let st := run sample_data
              [enter_sample; CitationLeave; CitationLeave;
               enter_sample; Click OnCitation; Elapse 300] initial in
  deliverable Away
    [enter_sample; CitationLeave; CitationLeave;
     enter_sample; Click OnCitation; Elapse 300] = None /\
  visible st = false /\ pinned st = true.
Proof. cbn. auto. Qed.

(** [startHideTimer] itself cancels nothing: run a second time with
    nothing in between, which no browser does, it leaves two timers
    pending. *)
Example start_keeps_prior_timer :
  let evs := [enter_sample; CitationLeave; CitationLeave] in
  let st := run sample_data evs initial in
  deliverable Away evs = None /\
  timers st = [(1%positive, 300%N); (2%positive, 300%N)] /\
  hideTimeout st = Some 2%positive.
Proof. cbn. auto. Qed.



(** C5, as stated, fails: a click outside hides the popover but leaves the
    pending hide timer pending. *)
Lemma C5_click_outside_keeps_timer :
  let evs := [enter_sample; CitationLeave; Click Elsewhere] in
  let st := run sample_data evs initial in
  deliverable Away evs = Some Away /\
  status st = Hidden /\
  timers st = [(1%positive, 300%N)] /\
  hideTimeout st = Some 1%positive.
Proof. cbn. auto. Qed.

(** C5, amended: a click on a citation while Visible gives Pinned; while
    the pinned flag is set a pointerLeave changes nothing, and after a
    click from a Visible state whose only pending timer is the tracked one
    the popover stays Pinned through a pointerLeave and any passing of
    time; a click outside gives Hidden from every state, clears the pinned
    flag and the current source and section, and leaves the pending timers
    and [hideTimeout] as they were: it cancels nothing, and whatever
    expires afterwards finds the popover Hidden and leaves it so. *)
Theorem C5_pin_and_dismiss_amended (sd : SectionTable) :
  (forall st, status st = Visible ->
     status (handle sd (Click OnCitation) st) = Pinned) /\
  (forall st, pinned st = true ->
     handle sd CitationLeave st = st /\ handle sd TooltipLeave st = st) /\
  (forall st ms, status st = Visible -> tracked st ->
     status (run sd [Click OnCitation; CitationLeave; Elapse ms] st)
       = Pinned) /\
  (forall st,
     let st' := handle sd (Click Elsewhere) st in
     status st' = Hidden /\ pinned st' = false /\
     currentSourceId st' = None /\ currentSectionKey st' = None /\
     timers st' = timers st /\ hideTimeout st' = hideTimeout st /\
     forall ms, status (handle sd (Elapse ms) st') = Hidden).
Proof.
  repeat split.
  - intros st Hst. apply status_visible in Hst. destruct Hst as [Hv Hp].
    cbn. apply status_pinned. cbn.
    destruct (cancel_classes st) as [K1 K2]. split; congruence.
  - cbn. unfold startHideTimer. rewrite H. reflexivity.
  - cbn. unfold startHideTimer. rewrite H. reflexivity.
  - intros st ms Hst Htr. apply status_visible in Hst.
    destruct Hst as [Hv Hp]. cbn.
    set (st1 := pinTooltip st).
    assert (P1 : pinned st1 = true) by reflexivity.
    assert (V1 : visible st1 = true)
      by (unfold st1, pinTooltip; cbn;
          destruct (cancel_classes st); congruence).
    assert (T1 : timers st1 = [])
      by (unfold st1, pinTooltip; cbn; apply cancel_tracked_timers;
          assumption).
    unfold startHideTimer. rewrite P1.
    destruct (elapse_idle ms st1 T1) as (I1 & I2 & I3).
    apply status_pinned. split; congruence.
  - intros ms. apply status_hidden.
    cbn. apply elapse_hidden. reflexivity.
Qed.

Lemma C5_pin_and_dismiss_amended_witness :
  let st := run sample_data [enter_sample] initial in
  status st = Visible /\ tracked st /\
  status (handle sample_data (Click OnCitation) st) = Pinned /\
  status (run sample_data [Click OnCitation; CitationLeave; Elapse 1000] st)
    = Pinned /\
  status (handle sample_data (Click Elsewhere)
            (handle sample_data (Click OnCitation) st)) = Hidden.
Proof.
  cbv zeta.
  destruct (C5_pin_and_dismiss_amended sample_data) as (A & B & C & D).
  assert (Htr : tracked (run sample_data [enter_sample] initial))
    by (left; reflexivity).
  specialize (A (run sample_data [enter_sample] initial) eq_refl).
  specialize (C (run sample_data [enter_sample] initial) 1000%N eq_refl Htr).
  specialize (D (handle sample_data (Click OnCitation)
                   (run sample_data [enter_sample] initial))).
  cbv zeta in D. destruct D as (D & _).
  exact (conj eq_refl (conj Htr (conj A (conj C D)))).
Defined.

(** The ids the parser writes name no member of [Object.prototype]. *)
Lemma source_id_own srcNum : inherited (Citations.source_id srcNum) = false.
Proof.
  unfold inherited, object_prototype_keys, jsstring_eqb. cbn [existsb].
  repeat (destruct (jsstring_eq_dec _ _) as [E | _];
          [apply (f_equal (@hd N 0%N)) in E; vm_compute in E; discriminate E
          | cbn [orb]]).
  reflexivity.
Qed.

(** What the lookup finds: a non-null own entry of the section's sources,
    or the member of [Object.prototype] the id names where no own entry
    stands before it. *)
Lemma lookupSource_some sd key id source :
  lookupSource sd key id = Some source <->
  exists section srcs,
    obj_get sd key = Some (Some section) /\ sources section = Some srcs /\
    (obj_get srcs id = Some (Some source) \/
     (obj_get srcs id = None /\ inherited id = true /\
      source = prototype_member)).
Proof.
  unfold lookupSource, read_source, obj_read. split.
  - destruct (obj_get sd key) as [[section |] |] eqn:Hs;
      [| discriminate | destruct (inherited key); discriminate].
    destruct (sources section) as [srcs |] eqn:Hsrc; [| discriminate].
    destruct (obj_get srcs id) as [[src |] |] eqn:Hid.
    + intros [= ->]. exists section, srcs. auto.
    + discriminate.
    + destruct (inherited id) eqn:Hin; [| discriminate].
      intros [= <-]. exists section, srcs. auto 6.
  - intros (section & srcs & -> & -> & [-> | (-> & -> & ->)]); reflexivity.
Qed.

(** An id that names a member of [Object.prototype] and is no entry of
    the section's sources resolves to that member: the popover is shown
    with the three fallback texts, and nothing is warned of. *)
Example inherited_id_resolves :
  let target := {| data_source_id := lit "constructor";
                   data_section := lit "overview";
                   bounding := right_edge_rect |} in
  let st := handle sample_data
              (CitationEnter target small_tooltip roomy_window) initial in
  status st = Visible /\
  tooltipPage st = lit "Source" /\
  tooltipTitle st = lit "Annual Report" /\
  tooltipContent st = lit "No preview available" /\
  console st = [LogShowing (lit "constructor") (lit "overview")].
Proof. vm_compute. auto. Qed.

(** C8: entering a citation whose source cannot be resolved in its section
    leaves the classes of the popover as they were, so a Hidden popover
    stays Hidden, leaves its content alone, and appends one warning to the
    console; [showTooltip] returns a state in every case.  For a citation
    the parser wrote (its id is [src_] and a number) the source cannot be
    resolved exactly when the section, its sources or a non-null entry of
    that id is missing. *)
Theorem C8_unresolved_source (sd : SectionTable) (target : Citation)
    (tooltipRect : DOMRect) (window : Window) (st : State) :
  (forall srcNum, data_source_id target = Citations.source_id srcNum ->
     (lookupSource sd (data_section target) (data_source_id target) = None <->
      forall section srcs source,
        obj_get sd (data_section target) = Some (Some section) ->
        sources section = Some srcs ->
        obj_get srcs (data_source_id target) <> Some (Some source))) /\
  (lookupSource sd (data_section target) (data_source_id target) = None ->
   let st' := handle sd (CitationEnter target tooltipRect window) st in
   visible st' = visible st /\ pinned st' = pinned st /\
   (status st = Hidden -> status st' = Hidden) /\
   tooltipPage st' = tooltipPage st /\ tooltipTitle st' = tooltipTitle st /\
   tooltipContent st' = tooltipContent st /\
   console st' =
     console st ++
     [WarnSourceNotFound (data_source_id target) (data_section target)]).
Proof.
  split.
  - intros srcNum Hid. split.
    + intros Hl section srcs source Hs Hsrc Hget.
      assert (H : lookupSource sd (data_section target)
                    (data_source_id target) = Some source)
        by (apply lookupSource_some; exists section, srcs; auto).
      congruence.
    + intros Hno.
      destruct (lookupSource sd (data_section target)
                  (data_source_id target)) as [source |] eqn:Hl;
        [| reflexivity].
      apply lookupSource_some in Hl.
      destruct Hl as (section & srcs & Hs & Hsrc & [Hget | (_ & Hin & _)]).
      * exfalso. exact (Hno section srcs source Hs Hsrc Hget).
      * rewrite Hid, source_id_own in Hin. discriminate.
  - intros Hl. cbn. unfold showTooltip. rewrite Hl. cbn.
    unfold status, cancelHideTimer.
    destruct (hideTimeout st); cbn; repeat split; auto.
Qed.

Lemma C8_unresolved_source_witness :
  lookupSource sample_data (data_section dangling_citation)
    (data_source_id dangling_citation) = None /\
  status (handle sample_data enter_dangling initial) = Hidden /\
  console (handle sample_data enter_dangling initial) =
    [WarnSourceNotFound (lit "src_9") (lit "overview")].
Proof.
  destruct (C8_unresolved_source sample_data dangling_citation
              small_tooltip roomy_window initial) as [Hiff H].
  assert (Hl : lookupSource sample_data (data_section dangling_citation)
                 (data_source_id dangling_citation) = None).
  { apply (Hiff (lit "9") eq_refl). intros section srcs source Hs Hsrc Hget.
    injection Hs as <-. injection Hsrc as <-. discriminate Hget. }
  split; [exact Hl |].
  specialize (H Hl). cbv zeta in H.
  destruct H as (_ & _ & Hs & _ & _ & _ & Hc).
  split; [exact (Hs eq_refl) | exact Hc].
Defined.



End TooltipFacts.


(* ------------------------------------------------------------------ *)
(** ** Strings and the matcher *)

Module RegexFacts.
Import JS Regex.

Lemma strip_prefix_app p : forall s s',
  strip_prefix p s = Some s' <-> s = p ++ s'.
Proof.
  induction p as [| a p IH]; intros s s'; cbn.
  - split; [intros [= ->]; reflexivity | intros ->; reflexivity].
  - destruct s as [| b s]; [split; discriminate |].
    unfold char_eqb. destruct (N.eqb_spec a b) as [-> | Hne].
    + rewrite IH. split; [intros ->; reflexivity | intros [= ->]; reflexivity].
    + split; [discriminate | intros [= E _]; congruence].
Qed.

Lemma strip_prefix_same p s : strip_prefix p (p ++ s) = Some s.
Proof. apply strip_prefix_app. reflexivity. Qed.

Lemma last_char_app prev a b :
  last_char prev (a ++ b) = last_char (last_char prev a) b.
Proof.
  unfold last_char. rewrite rev_app_distr.
  destruct (rev b) as [| c rb]; cbn; [| reflexivity].
  destruct (rev a); reflexivity.
Qed.

Lemma last_char_nil prev : last_char prev [] = prev.
Proof. reflexivity. Qed.

Lemma last_char_single prev c : last_char prev [c] = Some c.
Proof. reflexivity. Qed.

Lemma firstn_app_length (a b : jsstring) :
  firstn (length (a ++ b) - length b) (a ++ b) = a.
Proof.
  rewrite length_app. replace (length a + length b - length b)%nat
    with (length a + 0)%nat by lia.
  rewrite firstn_app_2. cbn. apply app_nil_r.
Qed.

Lemma one_char_sound p prev s cs k res :
  one_char p prev s cs k = Some res ->
  exists c rest, s = c :: rest /\ p c = true /\ k (Some c) rest cs = Some res.
Proof.
  unfold one_char. destruct s as [| c s']; [discriminate |].
  destruct (p c) eqn:E; [| discriminate]. eauto.
Qed.

Lemma repeat_sound r greedy :
  sound r (compile r) ->
  forall fuel min prev s cs k res,
    repeat_matcher (compile r) (groups r) greedy fuel min prev s cs k
      = Some res ->
    exists mt rest cs',
      s = mt ++ rest /\ matches (Repeat min greedy r) prev mt rest cs cs' /\
      k (last_char prev mt) rest cs' = Some res.
Proof.
  intros Hr. induction fuel as [| fuel IH]; intros min prev s cs k res H;
    [discriminate |].
  cbn in H.
  set (again := compile r prev s (clear_caps (groups r) cs) _) in H.
  assert (Hagain : again = Some res ->
    exists mt rest cs',
      s = mt ++ rest /\ matches (Repeat min greedy r) prev mt rest cs cs' /\
      k (last_char prev mt) rest cs' = Some res).
  { intros Ha. unfold again in Ha. apply Hr in Ha.
    destruct Ha as (m1 & rest1 & cs1 & -> & Hm1 & Hk).
    destruct (Nat.eqb min 0 && Nat.eqb (length rest1) (length (m1 ++ rest1)))
      eqn:Echk; [discriminate |].
    apply IH in Hk. destruct Hk as (m2 & rest & cs2 & -> & Hm2 & Hk).
    exists (m1 ++ m2), rest, cs2. rewrite app_assoc. split; [reflexivity |].
    split.
    - eapply M_Repeat_more; eauto.
      intros -> ->. cbn in Echk. rewrite Nat.eqb_refl in Echk. discriminate.
    - rewrite last_char_app. exact Hk. }
  assert (Hstop : min = 0%nat -> k prev s cs = Some res ->
    exists mt rest cs',
      s = mt ++ rest /\ matches (Repeat min greedy r) prev mt rest cs cs' /\
      k (last_char prev mt) rest cs' = Some res).
  { intros -> Hk. exists [], s, cs. split; [reflexivity |].
    split; [constructor | exact Hk]. }
  clearbody again. destruct min as [| min'].
  - destruct greedy.
    + destruct again as [r0 |] eqn:Ea; [injection H as <-; auto | auto].
    + destruct (k prev s cs) as [r0 |] eqn:Ek; [injection H as <-; auto | auto].
  - auto.
Qed.

Theorem compile_sound r : sound r (compile r).
Proof.
  induction r as [l | | | l | | | r1 IH1 r2 IH2 | i r IH | min greedy r IH
                  | r IH]; intros prev s cs k res H;
    [cbn in H .. | | cbn in H].
  - destruct (strip_prefix l s) as [s' |] eqn:E; [| discriminate].
    apply strip_prefix_app in E. subst s.
    exists l, s', cs. repeat split; [constructor | exact H].
  - apply one_char_sound in H. destruct H as (c & rest & -> & Hp & Hk).
    exists [c], rest, cs. repeat split; [| exact Hk].
    constructor. destruct (is_line_terminator c); [discriminate | reflexivity].
  - apply one_char_sound in H. destruct H as (c & rest & -> & Hp & Hk).
    exists [c], rest, cs. repeat split; [constructor; exact Hp | exact Hk].
  - apply one_char_sound in H. destruct H as (c & rest & -> & Hp & Hk).
    exists [c], rest, cs. repeat split; [constructor; exact Hp | exact Hk].
  - destruct (at_line_start prev) eqn:E; [| discriminate].
    exists [], s, cs. repeat split; [constructor; exact E | exact H].
  - destruct (at_line_end s) eqn:E; [| discriminate].
    exists [], s, cs. repeat split; [constructor; exact E | exact H].
  - apply IH1 in H. destruct H as (m1 & rest1 & cs1 & -> & Hm1 & Hk).
    apply IH2 in Hk. destruct Hk as (m2 & rest & cs2 & -> & Hm2 & Hk).
    exists (m1 ++ m2), rest, cs2. rewrite app_assoc.
    repeat split; [econstructor; eauto | rewrite last_char_app; exact Hk].
  - apply IH in H. destruct H as (mt & rest & cs1 & -> & Hm & Hk).
    rewrite firstn_app_length in Hk.
    exists mt, rest, (set_cap i mt cs1).
    repeat split; [constructor; exact Hm | exact Hk].
  - exact (repeat_sound r greedy IH (S (S (length s))) min prev s cs k res H).
  - set (take := compile r prev s (clear_caps (groups r) cs) _) in H.
    destruct take as [r0 |] eqn:Et.
    + injection H as <-. unfold take in Et. apply IH in Et.
      destruct Et as (mt & rest & cs1 & -> & Hm & Hk).
      destruct (Nat.eqb (length rest) (length (mt ++ rest))) eqn:El;
        [discriminate |].
      exists mt, rest, cs1. repeat split; [| exact Hk].
      apply M_Optional_take; [exact Hm |].
      intros ->. cbn in El. rewrite Nat.eqb_refl in El. discriminate.
    + exists [], s, cs. repeat split; [constructor | exact H].
Qed.

(** A match found at a position reads a prefix of the input there. *)
Corollary exec_at_sound r prev s rest cs :
  exec_at r prev s = Some (rest, cs) ->
  exists mt, s = mt ++ rest /\ matches r prev mt rest [] cs.
Proof.
  unfold exec_at. intros H. apply compile_sound in H.
  destruct H as (mt & rest' & cs' & -> & Hm & [= -> ->]). eauto.
Qed.

(** *** Inversion of [matches] *)

Lemma matches_Lit_inv l prev m rest cs cs' :
  matches (Lit l) prev m rest cs cs' -> m = l /\ cs' = cs.
Proof. inversion 1; auto. Qed.

Lemma matches_AnyChar_inv prev m rest cs cs' :
  matches AnyChar prev m rest cs cs' ->
  exists c, m = [c] /\ is_line_terminator c = false /\ cs' = cs.
Proof. inversion 1; eauto. Qed.

Lemma matches_DigitChar_inv prev m rest cs cs' :
  matches DigitChar prev m rest cs cs' ->
  exists c, m = [c] /\ is_digit c = true /\ cs' = cs.
Proof. inversion 1; eauto. Qed.

Lemma matches_OneOf_inv l prev m rest cs cs' :
  matches (OneOf l) prev m rest cs cs' ->
  exists c, m = [c] /\ existsb (char_eqb c) l = true /\ cs' = cs.
Proof. inversion 1; eauto. Qed.

Lemma matches_LineStart_inv prev m rest cs cs' :
  matches LineStart prev m rest cs cs' ->
  m = [] /\ at_line_start prev = true /\ cs' = cs.
Proof. inversion 1; auto. Qed.

Lemma matches_LineEnd_inv prev m rest cs cs' :
  matches LineEnd prev m rest cs cs' ->
  m = [] /\ at_line_end rest = true /\ cs' = cs.
Proof. inversion 1; auto. Qed.

Lemma matches_Cat_inv r1 r2 prev m rest cs cs' :
  matches (Cat r1 r2) prev m rest cs cs' ->
  exists m1 m2 cs1,
    m = m1 ++ m2 /\ matches r1 prev m1 (m2 ++ rest) cs cs1 /\
    matches r2 (last_char prev m1) m2 rest cs1 cs'.
Proof. inversion 1; subst; eauto 7. Qed.

Lemma matches_Capture_inv i r prev m rest cs cs' :
  matches (Capture i r) prev m rest cs cs' ->
  exists cs1, matches r prev m rest cs cs1 /\ cs' = set_cap i m cs1.
Proof. inversion 1; subst; eauto. Qed.

Lemma matches_Optional_inv r prev m rest cs cs' :
  matches (Optional r) prev m rest cs cs' ->
  (m = [] /\ cs' = cs) \/
  (m <> [] /\ matches r prev m rest (clear_caps (groups r) cs) cs').
Proof. inversion 1; subst; auto. Qed.

Lemma matches_Repeat_inv min greedy r prev m rest cs cs' :
  matches (Repeat min greedy r) prev m rest cs cs' ->
  (min = 0%nat /\ m = [] /\ cs' = cs) \/
  exists m1 m2 cs1,
    m = m1 ++ m2 /\
    matches r prev m1 (m2 ++ rest) (clear_caps (groups r) cs) cs1 /\
    (min = 0%nat -> m1 <> []) /\
    matches (Repeat (pred min) greedy r) (last_char prev m1) m2 rest cs1 cs'.
Proof. inversion 1; subst; [left; auto | right; eauto 9]. Qed.

Lemma clear_caps_nil cs : clear_caps [] cs = cs.
Proof.
  unfold clear_caps. induction cs as [| b cs IH]; cbn; [reflexivity |].
  f_equal. exact IH.
Qed.

(** A repetition of an atom that reads one code unit of a class reads a
    run of the class and leaves the captures alone. *)
Lemma matches_Repeat_class (P : char -> bool) r :
  groups r = [] ->
  (forall prev m rest cs cs', matches r prev m rest cs cs' ->
     exists c, m = [c] /\ P c = true /\ cs' = cs) ->
  forall min greedy prev m rest cs cs',
    matches (Repeat min greedy r) prev m rest cs cs' ->
    Forall (fun c => P c = true) m /\ (min <= length m)%nat /\ cs' = cs.
Proof.
  intros Hg Hr min greedy prev m rest cs cs' H.
  remember (Repeat min greedy r) as rr eqn:E.
  revert min E.
  induction H; intros mn E; try discriminate.
  - injection E as <- <- <-. repeat split; [constructor | lia].
  - injection E as -> -> ->.
    apply Hr in H. destruct H as (c & -> & Hc & ->).
    rewrite Hg, clear_caps_nil in *.
    destruct (IHmatches2 (pred mn) eq_refl) as (F & L & ->).
    repeat split; [constructor; assumption | cbn; lia].
Qed.

Lemma matches_some_chars min greedy prev m rest cs cs' :
  matches (Repeat min greedy AnyChar) prev m rest cs cs' ->
  Forall (fun c => is_line_terminator c = false) m /\
  (min <= length m)%nat /\ cs' = cs.
Proof.
  intros H.
  apply (matches_Repeat_class (fun c => negb (is_line_terminator c)))
    in H; [| reflexivity |].
  - destruct H as (F & L & E). repeat split; auto.
    eapply Forall_impl; [| exact F]. cbn. intros c Hc.
    destruct (is_line_terminator c); [discriminate | reflexivity].
  - intros p m0 r0 c0 c1 Hm. apply matches_AnyChar_inv in Hm.
    destruct Hm as (c & -> & Hc & ->). exists c. rewrite Hc. auto.
Qed.

Lemma matches_digits min greedy prev m rest cs cs' :
  matches (Repeat min greedy DigitChar) prev m rest cs cs' ->
  Forall (fun c => is_digit c = true) m /\ (min <= length m)%nat /\ cs' = cs.
Proof.
  intros H.
  apply (matches_Repeat_class is_digit) in H; [assumption | reflexivity |].
  intros p m0 r0 c0 c1 Hm. apply matches_DigitChar_inv in Hm.
  destruct Hm as (c & -> & Hc & ->). eauto.
Qed.

Lemma matches_one_of l min greedy prev m rest cs cs' :
  matches (Repeat min greedy (OneOf l)) prev m rest cs cs' ->
  Forall (fun c => existsb (char_eqb c) l = true) m /\
  (min <= length m)%nat /\ cs' = cs.
Proof.
  intros H.
  apply (matches_Repeat_class (fun c => existsb (char_eqb c) l)) in H;
    [assumption | reflexivity |].
  intros p m0 r0 c0 c1 Hm. apply matches_OneOf_inv in Hm.
  destruct Hm as (c & -> & Hc & ->). eauto.
Qed.

(** *** The scan *)

Lemma scan_source r : forall s skip prev,
  flat_map seg_source (scan r skip prev s) = skipn skip s.
Proof.
  induction s as [| c s IH]; intros skip prev.
  - destruct skip; cbn; [| reflexivity].
    destruct (exec_at r prev []) as [[rest cs] |]; reflexivity.
  - destruct skip as [| n]; [| cbn; apply IH].
    cbn [scan skipn].
    destruct (exec_at r prev (c :: s)) as [[rest cs] |].
    + destruct (length (c :: s) - length rest)%nat as [| n'] eqn:E.
      * change (c :: flat_map seg_source (scan r 0 (Some c) s) = c :: s).
        rewrite IH. reflexivity.
      * change (c :: firstn n' s ++ flat_map seg_source (scan r n' (Some c) s)
                = c :: s).
        rewrite IH, firstn_skipn. reflexivity.
    + change (c :: flat_map seg_source (scan r 0 (Some c) s) = c :: s).
      rewrite IH. reflexivity.
Qed.

Lemma scan_skip r : forall w rest prev,
  w <> [] ->
  scan r (length w) prev (w ++ rest) = scan r 0 (last_char prev w) rest.
Proof.
  induction w as [| c w IH]; intros rest prev Hne; [contradiction |].
  cbn [length app scan]. destruct w as [| d w].
  - reflexivity.
  - rewrite IH by discriminate.
    f_equal. change (c :: d :: w) with ([c] ++ d :: w).
    rewrite last_char_app. reflexivity.
Qed.

(** One step of the scan at a position where the expression is tried. *)
Lemma scan_step r prev s :
  scan r 0 prev s =
  match exec_at r prev s with
  | Some (rest, cs) =>
      let w := firstn (length s - length rest) s in
      Hit w cs ::
      match w with
      | _ :: _ => scan r 0 (last_char prev w) rest
      | [] => match s with
              | c :: s' => Gap c :: scan r 0 (Some c) s'
              | [] => []
              end
      end
  | None =>
      match s with
      | c :: s' => Gap c :: scan r 0 (Some c) s'
      | [] => []
      end
  end.
Proof.
  destruct s as [| c s]; cbn [scan].
  - destruct (exec_at r prev []) as [[rest cs] |]; reflexivity.
  - destruct (exec_at r prev (c :: s)) as [[rest cs] |] eqn:E; [| reflexivity].
    apply exec_at_sound in E. destruct E as (mt & E & _).
    cbv zeta. rewrite E, firstn_app_length.
    destruct mt as [| x mt]; [cbn; rewrite Nat.sub_diag; reflexivity |].
    injection E as <- ->.
    replace (length ((c :: mt) ++ rest) - length rest)%nat
      with (S (length mt)) by (rewrite length_app; simpl length; lia).
    f_equal. destruct mt as [| d mt]; [reflexivity |].
    rewrite (scan_skip r (d :: mt)) by discriminate.
    f_equal. change (c :: d :: mt) with ([c] ++ d :: mt).
    rewrite last_char_app. reflexivity.
Qed.

Lemma scan_scanned r : forall n s prev,
  (length s <= n)%nat -> scanned r prev s (scan r 0 prev s).
Proof.
  induction n as [| n IH]; intros s prev Hn.
  - destruct s; [| cbn in Hn; lia]. rewrite scan_step.
    destruct (exec_at r prev []) as [[rest cs] |] eqn:E.
    + pose proof E as E'. apply exec_at_sound in E'.
      destruct E' as (mt & Hs & _).
      symmetry in Hs. apply app_eq_nil in Hs. destruct Hs as [-> ->].
      cbn. constructor. exact E.
    + constructor. exact E.
  - rewrite scan_step.
    destruct (exec_at r prev s) as [[rest cs] |] eqn:E.
    + pose proof E as E'. apply exec_at_sound in E'.
      destruct E' as (mt & -> & _).
      cbv zeta. rewrite firstn_app_length.
      destruct mt as [| x mt].
      * cbn [app] in *. destruct rest as [| c rest].
        -- constructor. exact E.
        -- apply scanned_empty_hit; [exact E |].
           apply IH. cbn in Hn. lia.
      * apply scanned_hit; [discriminate | exact E |].
        apply IH. rewrite length_app in Hn. cbn in Hn. lia.
    + destruct s as [| c s]; [constructor; exact E |].
      apply scanned_gap; [exact E |]. apply IH. cbn in Hn. lia.
Qed.

Lemma scanned_scan r s : scanned r None s (scan r 0 None s).
Proof. apply scan_scanned with (n := length s). lia. Qed.

(** A greedy repetition of a class reads the whole run of the class when
    the continuation accepts what follows the run. *)
Lemma repeat_class_greedy (P : char -> bool) : forall ds tail fuel min prev
    cs k res,
  Forall (fun c => P c = true) ds ->
  match tail with c :: _ => P c = false | [] => True end ->
  (min <= length ds)%nat ->
  (length (ds ++ tail) < fuel)%nat ->
  k (last_char prev ds) tail cs = Some res ->
  repeat_matcher (one_char P) [] true fuel min prev (ds ++ tail) cs k
    = Some res.
Proof.
  induction ds as [| d ds IH]; intros tail fuel min prev cs k res HP Ht Hmin
    Hfuel Hk.
  - destruct fuel as [| fuel]; [cbn in Hfuel; lia |].
    cbn in Hmin. assert (min = 0%nat) as -> by lia.
    cbn. rewrite clear_caps_nil.
    destruct tail as [| c tail]; cbn; [exact Hk |].
    rewrite Ht. exact Hk.
  - destruct fuel as [| fuel]; [cbn in Hfuel; lia |].
    inversion HP as [| ? ? Hd HP']; subst.
    cbn [repeat_matcher app]. rewrite clear_caps_nil.
    cbn [one_char]. rewrite Hd.
    assert (Hlen : Nat.eqb (length (ds ++ tail)) (length (d :: ds ++ tail))
                   = false) by (apply Nat.eqb_neq; cbn; lia).
    rewrite Hlen, andb_false_r.
    rewrite (IH tail fuel (pred min) (Some d) cs k res); auto.
    + destruct (Nat.ltb 0 min); reflexivity.
    + cbn in Hmin. lia.
    + cbn in Hfuel. lia.
    + change (d :: ds) with ([d] ++ ds) in Hk.
      rewrite last_char_app in Hk. exact Hk.
Qed.

End RegexFacts.

(* ------------------------------------------------------------------ *)
(** ** The marker parser *)

Module CitationFacts.
Import JS Regex Citations RegexFacts.

(** What the marker expression reads is a well-formed marker, and group 1
    is its digits. *)
Lemma marker_matches_inv prev w rest cs :
  matches marker_re prev w rest [] cs ->
  exists ds, digits_ok ds /\ w = marker ds /\ cs = [(1%nat, ds)].
Proof.
  unfold marker_re. cbn [seq_re]. intros H.
  apply matches_Cat_inv in H. destruct H as (m1 & m2 & cs1 & -> & H1 & H2).
  apply matches_Lit_inv in H1. destruct H1 as [-> ->].
  apply matches_Cat_inv in H2. destruct H2 as (m2' & m3 & cs2 & -> & H2 & H3).
  apply matches_Capture_inv in H2. destruct H2 as (cs3 & H2 & ->).
  apply matches_digits in H2. destruct H2 as (Hd & Hlen & ->).
  apply matches_Lit_inv in H3. destruct H3 as [-> ->].
  exists m2'. repeat split; auto.
  intros ->. cbn in Hlen. lia.
Qed.

(** At a well-formed marker the expression matches, and reads all of it. *)
Lemma marker_exec_complete prev ds rest :
  digits_ok ds ->
  exec_at marker_re prev (marker ds ++ rest) = Some (rest, [(1%nat, ds)]).
Proof.
  intros [Hne Hd]. unfold exec_at, marker_re, marker.
  cbn [seq_re compile]. rewrite <- !app_assoc, strip_prefix_same.
  cbn [groups].
  apply repeat_class_greedy; [exact Hd | reflexivity | | lia |].
  - destruct ds; [contradiction | cbn; lia].
  - cbv beta. rewrite strip_prefix_same, firstn_app_length. reflexivity.
Qed.

Lemma marker_exec_inv prev s rest cs :
  exec_at marker_re prev s = Some (rest, cs) ->
  exists ds, digits_ok ds /\ s = marker ds ++ rest /\ cs = [(1%nat, ds)].
Proof.
  intros H. apply exec_at_sound in H. destruct H as (w & -> & H).
  apply marker_matches_inv in H. destruct H as (ds & Hd & -> & ->). eauto.
Qed.

Lemma marker_never_empty ds : marker ds <> [].
Proof. discriminate. Qed.

Lemma scanned_marker prev s segs :
  scanned marker_re prev s segs -> marker_scanned s segs.
Proof.
  induction 1 as [prev E | prev cs E | prev c s segs E _ IH
                  | prev w rest cs segs Hne E _ IH | prev c s cs segs E _ IH].
  - constructor.
  - apply marker_exec_inv in E. destruct E as (ds & _ & E & _). discriminate.
  - constructor; [| exact IH].
    intros ds rest Hd Heq. rewrite Heq, (marker_exec_complete prev ds rest Hd) in E.
    discriminate.
  - apply marker_exec_inv in E. destruct E as (ds & Hd & E & ->).
    apply app_inv_tail in E. subst w. constructor; assumption.
  - apply marker_exec_inv in E. destruct E as (ds & Hd & E & ->).
    exfalso. assert (L : length (c :: s) = length (marker ds ++ c :: s))
      by (rewrite <- E; reflexivity).
    rewrite length_app in L. unfold marker in L. rewrite !length_app in L.
    cbn in L. lia.
Qed.

Lemma scan_marker_scanned content :
  marker_scanned content (scan marker_re 0 None content).
Proof. eapply scanned_marker, scanned_scan. Qed.

(** *** Objects as maps *)

Lemma jsstring_eqb_eq a b : jsstring_eqb a b = true <-> a = b.
Proof.
  unfold jsstring_eqb. destruct (jsstring_eq_dec a b); split;
    congruence.
Qed.

Lemma jsstring_eqb_refl a : jsstring_eqb a a = true.
Proof. apply jsstring_eqb_eq. reflexivity. Qed.

Lemma jsstring_eqb_neq a b : jsstring_eqb a b = false <-> a <> b.
Proof.
  unfold jsstring_eqb. destruct (jsstring_eq_dec a b); split;
    congruence.
Qed.

Lemma count_from_snoc n : forall from,
  count_from from (S n) = count_from from n ++ [(from + N.of_nat n)%N].
Proof.
  induction n as [| n IH]; intros from.
  - cbn. rewrite N.add_0_r. reflexivity.
  - change (count_from from (S (S n)))
      with (from :: count_from (from + 1) (S n)).
    rewrite IH. cbn [count_from app].
    replace (from + 1 + N.of_nat n)%N with (from + N.of_nat (S n))%N by lia.
    reflexivity.
Qed.

Lemma length_count_from n : forall from, length (count_from from n) = n.
Proof. induction n; intros; cbn; auto. Qed.

Lemma combine_snoc {A B} (x : A) (y : B) : forall a b,
  length a = length b ->
  combine (a ++ [x]) (b ++ [y]) = combine a b ++ [(x, y)].
Proof.
  induction a as [| a0 a IH]; intros [| b0 b] H; try discriminate;
    [reflexivity |].
  cbn. f_equal. apply IH. cbn in H. lia.
Qed.

Lemma table_of_snoc keys x :
  table_of (keys ++ [x]) =
  table_of keys ++ [(x, (1 + N.of_nat (length keys))%N)].
Proof.
  unfold table_of. rewrite length_app. cbn [length].
  rewrite Nat.add_1_r, count_from_snoc.
  rewrite combine_snoc by (rewrite length_count_from; reflexivity).
  reflexivity.
Qed.

Lemma obj_get_combine x : forall keys from,
  obj_get (combine keys (count_from from (length keys))) x =
  if in_dec jsstring_eq_dec x keys
  then Some (from + N.of_nat (position x keys))%N
  else None.
Proof.
  induction keys as [| y keys IH]; intros from; [reflexivity |].
  cbn [length count_from combine obj_get position].
  destruct (jsstring_eqb y x) eqn:E.
  - apply jsstring_eqb_eq in E. subst y.
    destruct (in_dec jsstring_eq_dec x (x :: keys)) as [_ | n];
      [| exfalso; apply n; left; reflexivity].
    rewrite N.add_0_r. reflexivity.
  - apply jsstring_eqb_neq in E. rewrite IH.
    destruct (in_dec jsstring_eq_dec x keys) as [i | n];
      destruct (in_dec jsstring_eq_dec x (y :: keys)) as [i' | n'].
    + f_equal. lia.
    + exfalso. apply n'. right. exact i.
    + exfalso. destruct i'; [congruence | contradiction].
    + reflexivity.
Qed.

Lemma obj_set_absent {A} (o : obj A) k v :
  obj_get o k = None -> obj_set o k v = o ++ [(k, v)].
Proof.
  induction o as [| [k' v'] o IH]; cbn; [reflexivity |].
  destruct (jsstring_eqb k' k); [discriminate |].
  intros H. rewrite IH by exact H. reflexivity.
Qed.

(** *** The numbering *)

Lemma fresh_state : fresh = state_of [].
Proof. reflexivity. Qed.

Lemma assign_seen keys x :
  In x keys ->
  assign (state_of keys) x =
  (state_of keys, (1 + N.of_nat (position x keys))%N).
Proof.
  intros Hin. unfold assign, state_of, unnumbered, table_of.
  rewrite obj_get_combine.
  destruct (in_dec jsstring_eq_dec x keys); [| contradiction].
  destruct (N.eqb_spec (1 + N.of_nat (position x keys)) 0); [lia |].
  rewrite obj_get_combine.
  destruct (in_dec jsstring_eq_dec x keys); [| contradiction].
  reflexivity.
Qed.

Lemma position_fresh x keys : ~ In x keys -> position x keys = length keys.
Proof.
  induction keys as [| y keys IH]; intros H; [reflexivity |].
  cbn. destruct (jsstring_eqb y x) eqn:E.
  - apply jsstring_eqb_eq in E. exfalso. apply H. left. exact E.
  - f_equal. apply IH. intros Hin. apply H. right. exact Hin.
Qed.

Lemma position_app_l x a b : In x a -> position x (a ++ b) = position x a.
Proof.
  induction a as [| y a IH]; intros H; [contradiction |].
  cbn. destruct (jsstring_eqb y x) eqn:E; [reflexivity |].
  f_equal. apply IH. destruct H as [-> | H]; [| exact H].
  rewrite jsstring_eqb_refl in E. discriminate.
Qed.

Lemma position_app_r x a b :
  ~ In x a -> position x (a ++ x :: b) = length a.
Proof.
  induction a as [| y a IH]; intros H; cbn.
  - rewrite jsstring_eqb_refl. reflexivity.
  - destruct (jsstring_eqb y x) eqn:E.
    + apply jsstring_eqb_eq in E. exfalso. apply H. left. exact E.
    + f_equal. apply IH. intros Hin. apply H. right. exact Hin.
Qed.

Lemma assign_new keys x :
  ~ In x keys ->
  assign (state_of keys) x =
  (state_of (keys ++ [x]), (1 + N.of_nat (length keys))%N).
Proof.
  intros Hnin. unfold assign, state_of, unnumbered.
  assert (Hget : obj_get (table_of keys) x = None).
  { unfold table_of. rewrite obj_get_combine.
    destruct (in_dec jsstring_eq_dec x keys); [contradiction | reflexivity]. }
  rewrite Hget, (obj_set_absent _ _ _ Hget), <- table_of_snoc.
  assert (Hget' : obj_get (table_of (keys ++ [x])) x
                  = Some (1 + N.of_nat (length keys))%N).
  { unfold table_of. rewrite obj_get_combine.
    destruct (in_dec jsstring_eq_dec x (keys ++ [x])) as [_ | n];
      [| exfalso; apply n, in_or_app; right; left; reflexivity].
    rewrite position_app_r by exact Hnin. reflexivity. }
  rewrite Hget', length_app. cbn [length].
  replace (1 + N.of_nat (length keys + 1))%N
    with (1 + N.of_nat (length keys) + 1)%N by lia.
  reflexivity.
Qed.

Lemma final_state_spec : forall ids keys,
  final_state (state_of keys) ids = state_of (keys ++ first_seen_acc keys ids).
Proof.
  unfold final_state.
  induction ids as [| x ids IH]; intros keys;
    cbn [fold_left first_seen_acc].
  - rewrite app_nil_r. reflexivity.
  - destruct (in_dec jsstring_eq_dec x keys) as [i | n].
    + rewrite (assign_seen _ _ i). cbn [fst]. apply IH.
    + rewrite (assign_new _ _ n). cbn [fst].
      rewrite IH, <- app_assoc. reflexivity.
Qed.

Lemma numbers_from_spec : forall ids keys,
  numbers_from (state_of keys) ids =
  map (fun x => (1 + N.of_nat
                       (position x (keys ++ first_seen_acc keys ids)))%N) ids.
Proof.
  induction ids as [| x ids IH]; intros keys; [reflexivity |].
  cbn [numbers_from map first_seen_acc].
  destruct (in_dec jsstring_eq_dec x keys) as [i | n].
  - rewrite (assign_seen _ _ i), IH, position_app_l by exact i. reflexivity.
  - rewrite (assign_new _ _ n), IH, position_app_r by exact n.
    f_equal. apply map_ext. intros y. rewrite <- app_assoc. reflexivity.
Qed.

Lemma replace_fold_markers key : forall segs st,
  replace_fold (on_marker key) st segs =
  (final_state st (ids_of segs),
   render_numbered key segs (numbers_from st (ids_of segs))).
Proof.
  induction segs as [| [c | w cs] segs IH]; intros st; [reflexivity | |].
  - cbn [replace_fold ids_of flat_map app render_numbered].
    change (flat_map _ segs) with (ids_of segs).
    rewrite IH. reflexivity.
  - cbn [replace_fold ids_of flat_map app render_numbered].
    change (flat_map _ segs) with (ids_of segs).
    unfold on_marker. cbn [numbers_from final_state fold_left].
    destruct (assign st (source_id (group 1 cs))) as [st' n].
    rewrite IH. reflexivity.
Qed.

(** *** First-seen order *)

Lemma first_seen_acc_in x : forall l seen,
  In x (first_seen_acc seen l) <-> In x l /\ ~ In x seen.
Proof.
  induction l as [| y l IH]; intros seen; cbn; [tauto |].
  destruct (in_dec jsstring_eq_dec y seen) as [i | n].
  - rewrite IH. split; [tauto |].
    intros [[-> | H] Hn]; [contradiction | tauto].
  - cbn. rewrite IH. rewrite in_app_iff. cbn.
    destruct (jsstring_eq_dec y x) as [-> | Hne]; [tauto |]. tauto.
Qed.

Lemma first_seen_acc_nodup : forall l seen, NoDup (first_seen_acc seen l).
Proof.
  induction l as [| y l IH]; intros seen; cbn; [constructor |].
  destruct (in_dec jsstring_eq_dec y seen); [apply IH |].
  constructor; [| apply IH].
  rewrite first_seen_acc_in, in_app_iff. cbn. tauto.
Qed.

Lemma first_seen_in x l : In x (first_seen l) <-> In x l.
Proof. unfold first_seen. rewrite first_seen_acc_in. cbn. tauto. Qed.

Lemma first_seen_acc_app : forall a b seen,
  first_seen_acc seen (a ++ b) =
  first_seen_acc seen a ++ first_seen_acc (seen ++ first_seen_acc seen a) b.
Proof.
  induction a as [| y a IH]; intros b seen; cbn.
  - rewrite app_nil_r. reflexivity.
  - destruct (in_dec jsstring_eq_dec y seen); [apply IH |].
    cbn. rewrite IH, <- app_assoc. reflexivity.
Qed.

Lemma first_seen_split pre x post :
  ~ In x pre ->
  exists tl, first_seen (pre ++ x :: post) = first_seen pre ++ x :: tl.
Proof.
  intros Hn. unfold first_seen. rewrite first_seen_acc_app.
  cbn [first_seen_acc app].
  destruct (in_dec jsstring_eq_dec x (first_seen_acc [] pre)) as [i | n].
  - apply first_seen_acc_in in i. tauto.
  - eauto.
Qed.

Lemma first_seen_distinct l :
  length (first_seen l) = length (nodup jsstring_eq_dec l).
Proof.
  apply Nat.le_antisymm; apply NoDup_incl_length.
  - apply first_seen_acc_nodup.
  - intros x Hx. apply nodup_In. apply first_seen_in. exact Hx.
  - apply NoDup_nodup.
  - intros x Hx. apply first_seen_in. apply nodup_In in Hx. exact Hx.
Qed.

Lemma position_lt x l : In x l -> (position x l < length l)%nat.
Proof.
  induction l as [| y l IH]; intros H; [contradiction |].
  cbn. destruct (jsstring_eqb y x) eqn:E; [lia |].
  destruct H as [-> | H]; [rewrite jsstring_eqb_refl in E; discriminate |].
  specialize (IH H). lia.
Qed.

Lemma position_nth : forall l i d,
  NoDup l -> (i < length l)%nat -> position (nth i l d) l = i.
Proof.
  induction l as [| y l IH]; intros i d Hnd Hi; [cbn in Hi; lia |].
  inversion Hnd as [| ? ? Hy Hnd']; subst.
  destruct i as [| i]; cbn.
  - rewrite jsstring_eqb_refl. reflexivity.
  - destruct (jsstring_eqb y (nth i l d)) eqn:E.
    + apply jsstring_eqb_eq in E. exfalso. apply Hy. rewrite E.
      apply nth_In. cbn in Hi. lia.
    + f_equal. apply IH; [exact Hnd' | cbn in Hi; lia].
Qed.

Lemma run_spec content key :
  processCitationTags_run content key =
  (state_of (first_seen (marker_ids content)),
   render_numbered key (scan marker_re 0 None content)
     (display_numbers content)).
Proof.
  unfold processCitationTags_run. rewrite replace_fold_markers.
  rewrite fresh_state, final_state_spec. reflexivity.
Qed.

Lemma display_numbers_spec content :
  display_numbers content =
  map (fun x => (1 + N.of_nat
                       (position x (first_seen (marker_ids content))))%N)
      (marker_ids content).
Proof.
  unfold display_numbers. rewrite fresh_state, numbers_from_spec.
  reflexivity.
Qed.

Example three_markers_output :
  processCitationTags three_markers tt (lit "k") =
  lit "a " ++ citation_span (lit "src_5") (lit "k") 1 ++
  lit " b " ++ citation_span (lit "src_2") (lit "k") 2 ++
  lit " c " ++ citation_span (lit "src_5") (lit "k") 1.
Proof. vm_compute. reflexivity. Qed.

(** C1: the display numbers follow the first-seen order of the source ids
    of the markers: a marker whose id was not seen before gets one more
    than the count of distinct ids before it (so the first gets 1), every
    marker with the same id gets the same number, the numbering table
    pairs the distinct ids in first-seen order with 1..K for K the count
    of distinct ids, the numbers handed out are exactly 1..K, and the
    output carries these numbers. *)
Theorem C1_first_seen_numbering (content : jsstring) :
  let ids := marker_ids content in
  let nums := display_numbers content in
  let K := length (first_seen ids) in
  length nums = length ids /\
  (forall pre x post, ids = pre ++ x :: post -> ~ In x pre ->
     nth_error nums (length pre)
       = Some (N.of_nat (S (length (first_seen pre))))) /\
  (forall i j x, nth_error ids i = Some x -> nth_error ids j = Some x ->
     nth_error nums i = nth_error nums j) /\
  citation_table content = combine (first_seen ids) (count_from 1 K) /\
  K = length (nodup jsstring_eq_dec ids) /\
  (forall n, In n nums <-> (1 <= n <= N.of_nat K)%N) /\
  (forall (Sources : Type) (sources : Sources) key,
     processCitationTags content sources key =
     render_numbered key (scan marker_re 0 None content) nums).
Proof.
  cbv zeta. rewrite display_numbers_spec.
  set (ids := marker_ids content).
  set (g := fun x => (1 + N.of_nat (position x (first_seen ids)))%N).
  repeat split.
  - apply length_map.
  - intros pre x post E Hn.
    rewrite nth_error_map, E, nth_error_app2, Nat.sub_diag by lia.
    cbn [nth_error option_map]. unfold g. rewrite E.
    destruct (first_seen_split pre x post Hn) as (tl & ->).
    rewrite position_app_r; [f_equal; lia |].
    rewrite first_seen_in. exact Hn.
  - intros i j x Hi Hj. rewrite !nth_error_map, Hi, Hj. reflexivity.
  - unfold citation_table. rewrite run_spec. reflexivity.
  - apply first_seen_distinct.
  - apply in_map_iff in H. destruct H as (x & <- & Hx). unfold g. lia.
  - apply in_map_iff in H. destruct H as (x & <- & Hx). unfold g.
    apply first_seen_in in Hx. apply position_lt in Hx. lia.
  - intros [Hlo Hhi]. apply in_map_iff.
    set (i := (N.to_nat n - 1)%nat).
    assert (Hi : (i < length (first_seen ids))%nat) by (unfold i; lia).
    exists (nth i (first_seen ids) []). split.
    + unfold g. rewrite position_nth;
        [unfold i; lia | apply first_seen_acc_nodup | exact Hi].
    + apply first_seen_in. apply nth_In. exact Hi.
  - intros Sources sources key. unfold processCitationTags.
    rewrite run_spec, display_numbers_spec. reflexivity.
Qed.

Lemma C1_first_seen_numbering_witness :
  marker_ids three_markers = [lit "src_5"; lit "src_2"; lit "src_5"] /\
  display_numbers three_markers = [1; 2; 1]%N /\
  nth_error (display_numbers three_markers) 1 = Some 2%N /\
  nth_error (display_numbers three_markers) 0
    = nth_error (display_numbers three_markers) 2 /\
  citation_table three_markers = [(lit "src_5", 1%N); (lit "src_2", 2%N)].
Proof.
  pose proof (C1_first_seen_numbering three_markers) as H.
  cbv zeta in H. destruct H as (_ & Hfirst & Hsame & Htable & _).
  assert (Hids : marker_ids three_markers
                 = [lit "src_5"; lit "src_2"; lit "src_5"])
    by (vm_compute; reflexivity).
  assert (Hnums : display_numbers three_markers = [1; 2; 1]%N)
    by (vm_compute; reflexivity).
  assert (Hnew : ~ In (lit "src_2") [lit "src_5"])
    by (intros [E | []]; discriminate E).
  specialize (Hfirst [lit "src_5"] (lit "src_2") [lit "src_5"] Hids Hnew).
  specialize (Hsame 0%nat 2%nat (lit "src_5")).
  rewrite Hids in Hsame. specialize (Hsame eq_refl eq_refl).
  exact (conj Hids (conj Hnums (conj Hfirst (conj Hsame Htable)))).
Defined.

(** *** Text without markers *)

Lemma has_marker_cons c s : has_marker s -> has_marker (c :: s).
Proof.
  intros (ds & Hd & a & b & ->). exists ds. split; [exact Hd |].
  exists (c :: a), b. reflexivity.
Qed.

Lemma gaps_only s segs :
  marker_scanned s segs -> ~ has_marker s -> segs = map Gap s.
Proof.
  induction 1 as [| c s segs Hc _ IH | ds rest segs Hd _ IH]; intros Hn.
  - reflexivity.
  - cbn. f_equal. apply IH. intros H. apply Hn, has_marker_cons, H.
  - exfalso. apply Hn. exists ds. split; [exact Hd |].
    exists [], rest. reflexivity.
Qed.

(** Every well-formed marker of the text is one of the matches: with no
    match, the text has no well-formed marker. *)
Lemma all_gaps_no_marker s segs :
  marker_scanned s segs -> segs = map Gap s -> ~ has_marker s.
Proof.
  induction 1 as [| c s segs Hc _ IH | ds rest segs Hd _ IH]; intros E.
  - intros (ds & Hd & a & b & H). destruct a; discriminate.
  - cbn in E. injection E as E. specialize (IH E).
    intros (ds & Hd & a & b & H). destruct a as [| x a].
    + apply (Hc ds b Hd). exact H.
    + injection H as _ H. apply IH. exists ds. split; [exact Hd |].
      exists a, b. exact H.
  - discriminate.
Qed.

Lemma render_gaps key nums : forall s,
  render_numbered key (map Gap s) nums = s.
Proof. induction s as [| c s IH]; cbn; [| rewrite IH]; reflexivity. Qed.

Lemma ids_of_gaps : forall s, ids_of (map Gap s) = [].
Proof. induction s as [| c s IH]; cbn; auto. Qed.

(** C6: the parser returns a string for every input; the input is, from
    left to right, code units at which no well-formed marker starts, which
    the output repeats as they are, and well-formed markers, which the
    output replaces; a text with no well-formed marker comes back
    unchanged with an empty numbering table. *)
Theorem C6_parser_passes_text_through (content : jsstring) :
  marker_scanned content (scan marker_re 0 None content) /\
  (forall (Sources : Type) (sources : Sources) key,
     processCitationTags content sources key =
     render_numbered key (scan marker_re 0 None content)
       (display_numbers content)) /\
  (~ has_marker content ->
     scan marker_re 0 None content = map Gap content /\
     citation_table content = [] /\
     forall (Sources : Type) (sources : Sources) key,
       processCitationTags content sources key = content).
Proof.
  split; [apply scan_marker_scanned |]. split.
  - intros Sources sources key. unfold processCitationTags.
    rewrite run_spec. reflexivity.
  - intros Hn.
    pose proof (gaps_only _ _ (scan_marker_scanned content) Hn) as Hg.
    split; [exact Hg |]. split.
    + unfold citation_table. rewrite run_spec. unfold marker_ids.
      rewrite Hg, ids_of_gaps. reflexivity.
    + intros Sources sources key. unfold processCitationTags.
      rewrite run_spec. cbn [snd]. rewrite Hg. apply render_gaps.
Qed.

Lemma C6_parser_passes_text_through_witness :
  ~ has_marker malformed_markers /\
  citation_table malformed_markers = [] /\
  processCitationTags malformed_markers tt (lit "overview")
    = malformed_markers.
Proof.
  assert (Hn : ~ has_marker malformed_markers).
  { apply (all_gaps_no_marker _ _ (scan_marker_scanned malformed_markers)).
    vm_compute. reflexivity. }
  destruct (C6_parser_passes_text_through malformed_markers)
    as (_ & _ & H).
  destruct (H Hn) as (_ & Ht & Ho).
  exact (conj Hn (conj Ht (Ho unit tt (lit "overview")))).
Defined.

(** C7: the numbering of a text is computed from that text alone: the
    [sources] argument is not read, the local variables end as the table
    of the text's own distinct source ids whatever the section key, the
    first marker of every text gets 1, a source id cited in two texts is
    numbered in each by its place among the distinct ids of that text,
    and the body built for a section in a list of sections is the body
    built for it alone. *)
Theorem C7_section_scoped_numbering :
  (forall content (S1 S2 : Type) (s1 : S1) (s2 : S2) key,
     processCitationTags content s1 key = processCitationTags content s2 key)
  /\
  (forall content key,
     fst (processCitationTags_run content key)
       = state_of (first_seen (marker_ids content))) /\
  (forall content x post, marker_ids content = x :: post ->
     exists nums, display_numbers content = 1%N :: nums) /\
  (forall c1 c2 x, In x (marker_ids c1) -> In x (marker_ids c2) ->
     obj_get (citation_table c1) x
       = Some (1 + N.of_nat (position x (first_seen (marker_ids c1))))%N /\
     obj_get (citation_table c2) x
       = Some (1 + N.of_nat (position x (first_seen (marker_ids c2))))%N) /\
  (forall before sec after,
     nth_error (section_bodies (before ++ sec :: after)) (length before)
       = Some (section_body (fst sec) (snd sec))).
Proof.
  repeat split.
  - intros. rewrite run_spec. reflexivity.
  - intros content x post E. rewrite display_numbers_spec, E.
    cbn [map]. eexists. f_equal.
    unfold first_seen. cbn [first_seen_acc].
    destruct (in_dec jsstring_eq_dec x []) as [[] | _].
    cbn [position]. rewrite jsstring_eqb_refl. reflexivity.
  - unfold citation_table. rewrite run_spec. cbn [fst snd].
    unfold state_of, table_of. cbn [snd]. rewrite obj_get_combine.
    destruct (in_dec jsstring_eq_dec x (first_seen (marker_ids c1)))
      as [_ | n]; [reflexivity |].
    exfalso. apply n, first_seen_in. assumption.
  - unfold citation_table. rewrite run_spec. cbn [fst snd].
    unfold state_of, table_of. cbn [snd]. rewrite obj_get_combine.
    destruct (in_dec jsstring_eq_dec x (first_seen (marker_ids c2)))
      as [_ | n]; [reflexivity |].
    exfalso. apply n, first_seen_in. assumption.
  - intros before sec after. unfold section_bodies.
    rewrite nth_error_map, nth_error_app2, Nat.sub_diag by lia.
    reflexivity.
Qed.

Lemma C7_section_scoped_numbering_witness :
  In (lit "src_7") (marker_ids (lit "x [[Src:7]]")) /\
  In (lit "src_7") (marker_ids (lit "[[Src:3]] y [[Src:7]][[Src:3]]")) /\
  obj_get (citation_table (lit "x [[Src:7]]")) (lit "src_7") = Some 1%N /\
  obj_get (citation_table (lit "[[Src:3]] y [[Src:7]][[Src:3]]"))
    (lit "src_7") = Some 2%N /\
  nth_error
    (section_bodies [(lit "overview", Some (lit "[[Src:3]] y [[Src:7]]"));
                     (lit "products", Some (lit "x [[Src:7]]"))]) 1
  = Some (lit "x " ++ citation_span (lit "src_7") (lit "products") 1).
Proof.
  destruct C7_section_scoped_numbering as (_ & _ & _ & Hboth & Hbody).
  assert (H1 : In (lit "src_7") (marker_ids (lit "x [[Src:7]]")))
    by (vm_compute; auto).
  assert (H2 : In (lit "src_7")
                  (marker_ids (lit "[[Src:3]] y [[Src:7]][[Src:3]]")))
    by (vm_compute; auto).
  destruct (Hboth _ _ _ H1 H2) as [A B].
  specialize (Hbody [(lit "overview", Some (lit "[[Src:3]] y [[Src:7]]"))]
                    (lit "products", Some (lit "x [[Src:7]]")) []).
  exact (conj H1 (conj H2 (conj A (conj B Hbody)))).
Defined.

End CitationFacts.


(* ------------------------------------------------------------------ *)
(** ** Occurrences of a string that a replacement keeps *)

Module KeepFacts.
Import JS Regex RegexFacts.

Lemma contains_refl p : contains p p.
Proof. exists [], []. rewrite app_nil_r. reflexivity. Qed.

Lemma contains_app_l p s t : contains p s -> contains p (s ++ t).
Proof.
  intros (a & b & ->). exists a, (b ++ t). rewrite <- !app_assoc. reflexivity.
Qed.

Lemma contains_app_r p s t : contains p t -> contains p (s ++ t).
Proof.
  intros (a & b & ->). exists (s ++ a), b. rewrite <- !app_assoc. reflexivity.
Qed.

Lemma contains_cons p c s : contains p s -> contains p (c :: s).
Proof. apply (contains_app_r p [c] s). Qed.

Lemma contains_trans p q s : contains p q -> contains q s -> contains p s.
Proof.
  intros (a & b & ->) (a' & b' & ->).
  exists (a' ++ a), (b ++ b'). rewrite <- !app_assoc. reflexivity.
Qed.

(** An occurrence of [c :: t] in [u ++ v] starts after [u] when [c] is not
    in [u]. *)
Lemma skip_prefix (c : char) : forall u v a t,
  u ++ v = a ++ c :: t -> ~ In c u ->
  exists e, a = u ++ e /\ v = e ++ c :: t.
Proof.
  induction u as [| x u IH]; intros v a t E Hn.
  - exists a. auto.
  - destruct a as [| y a].
    + injection E as -> _. exfalso. apply Hn. left. reflexivity.
    + injection E as -> E.
      destruct (IH v a t E) as (e & -> & ->).
      * intros H. apply Hn. right. exact H.
      * exists e. auto.
Qed.

(** Two ways to cut one string. *)
Lemma app_cut {A} : forall (x y u v : list A),
  x ++ y = u ++ v ->
  (exists e, u = x ++ e /\ y = e ++ v) \/
  (exists e, e <> [] /\ x = u ++ e /\ v = e ++ y).
Proof.
  induction x as [| a x IH]; intros y u v E.
  - left. exists u. auto.
  - destruct u as [| b u].
    + right. exists (a :: x). repeat split; [discriminate | exact (eq_sym E)].
    + injection E as -> E. destruct (IH y u v E) as [(e & -> & ->) |
        (e & Hne & -> & ->)].
      * left. exists e. auto.
      * right. exists e. auto.
Qed.

(** An occurrence of [p] that starts inside [pre ++ g ++ post] lies inside
    [g] when [p] cannot start in [pre] or [post] and cannot hold the code
    unit that follows [g]. *)
Lemma inside_group (pre g post rest a p b : jsstring) (c : char)
    (p' : jsstring) :
  pre ++ g ++ post ++ rest = a ++ p ++ b ->
  (length a < length (pre ++ g ++ post))%nat ->
  p = c :: p' ->
  ~ In c pre -> ~ In c post ->
  match post ++ rest with x :: _ => ~ In x p | [] => True end ->
  exists g1 g2, g = g1 ++ p ++ g2.
Proof.
  intros E Hlen Hp Hpre Hpost Hnext. subst p.
  cbn [app] in E.
  destruct (skip_prefix c pre (g ++ post ++ rest) a (p' ++ b) E Hpre)
    as (a1 & -> & E1).
  rewrite !length_app in Hlen.
  destruct (app_cut g (post ++ rest) a1 (c :: p' ++ b) E1)
    as [(e & -> & E2) | (e & Hne & -> & E2)].
  - (* the occurrence starts at or after the end of [g] *)
    exfalso.
    destruct (skip_prefix c post rest e (p' ++ b) E2 Hpost) as (e' & -> & _).
    rewrite !length_app in Hlen. lia.
  - (* it starts inside [g] *)
    change (c :: p' ++ b) with ((c :: p') ++ b) in E2.
    destruct (app_cut (c :: p') b e (post ++ rest) E2)
      as [(e2 & -> & _) | (e2 & Hne2 & Ep & E3)].
    + exists a1, e2. reflexivity.
    + exfalso. destruct e2 as [| x e2]; [contradiction |].
      rewrite E3 in Hnext. cbn [app] in Hnext. apply Hnext.
      rewrite Ep. apply in_or_app. right. left. reflexivity.
Qed.

(** A code unit that [p] does not hold separates what is before it from
    what is after it. *)
Lemma barrier (x : char) (u v a p b : jsstring) :
  p <> [] -> ~ In x p ->
  u ++ x :: v = a ++ p ++ b ->
  (exists e, u = a ++ p ++ e) \/ (exists e, a = u ++ x :: e /\ v = e ++ p ++ b).
Proof.
  intros Hne Hx E.
  destruct (app_cut u (x :: v) a (p ++ b) E)
    as [(e & -> & E1) | (e & He & -> & E1)].
  - right. destruct e as [| y e].
    + exfalso. destruct p as [| c q]; [contradiction |].
      injection E1 as -> _. apply Hx. left. reflexivity.
    + injection E1 as -> ->. exists e. auto.
  - left. destruct (app_cut p b e (x :: v) E1)
      as [(e2 & -> & _) | (e2 & He2 & -> & E2)].
    + exists e2. reflexivity.
    + exfalso. destruct e2 as [| y e2]; [contradiction |].
      injection E2 as -> _. apply Hx, in_or_app. right. left. reflexivity.
Qed.

Lemma contains_in_flat_map {A} (f : A -> jsstring) p x l :
  In x l -> contains p (f x) -> contains p (flat_map f l).
Proof.
  intros Hin Hc. apply in_split in Hin. destruct Hin as (l1 & l2 & ->).
  rewrite flat_map_app. cbn. apply contains_app_r, contains_app_l. exact Hc.
Qed.

(** *** [split] and [join] *)

Lemma join_cons sep x y l :
  join sep (x :: y :: l) = x ++ sep ++ join sep (y :: l).
Proof. reflexivity. Qed.

Lemma split_go_nonempty sep : forall s skip cur, split_go sep skip cur s <> [].
Proof.
  induction s as [| c s IH]; intros skip cur; cbn; [discriminate |].
  destruct skip; [| apply IH].
  destruct (strip_prefix sep (c :: s)); [discriminate | apply IH].
Qed.

Lemma split_go_skip sep : forall q rest cur,
  split_go sep (length q) cur (q ++ rest) = split_go sep 0 cur rest.
Proof.
  induction q as [| c q IH]; intros rest cur; [reflexivity |].
  cbn [length app split_go]. apply IH.
Qed.

Lemma join_split_go sep :
  sep <> [] ->
  forall n s cur, (length s <= n)%nat ->
  join sep (split_go sep 0 cur s) = rev cur ++ s.
Proof.
  intros Hsep. induction n as [| n IH]; intros s cur Hn.
  - destruct s; [| cbn in Hn; lia]. cbn. rewrite app_nil_r. reflexivity.
  - destruct s as [| c s]; [cbn; rewrite app_nil_r; reflexivity |].
    cbn [split_go].
    destruct (strip_prefix sep (c :: s)) as [s'' |] eqn:E.
    + apply strip_prefix_app in E.
      destruct sep as [| c0 sep']; [contradiction |].
      injection E as <- ->.
      replace (length (c :: sep') - 1)%nat with (length sep')
        by (cbn; lia).
      rewrite split_go_skip.
      destruct (split_go (c :: sep') 0 [] s'') as [| y l] eqn:El;
        [exfalso; exact (split_go_nonempty _ _ _ _ El) |].
      rewrite join_cons, <- El, IH.
      * reflexivity.
      * cbn in Hn. rewrite length_app in Hn. lia.
    + rewrite IH by (cbn in Hn; lia). cbn. rewrite <- app_assoc. reflexivity.
Qed.

(** [s.split(sep).join(sep)] is [s]. *)
Lemma join_split sep s : sep <> [] -> join sep (split sep s) = s.
Proof.
  intros Hsep. unfold split.
  rewrite (join_split_go sep Hsep (length s) s []); auto.
Qed.

Lemma contains_join p sep x l :
  In x l -> contains p x -> contains p (join sep l).
Proof.
  induction l as [| y l IH]; intros Hin Hc; [contradiction |].
  destruct l as [| z l].
  - destruct Hin as [-> | []]. exact Hc.
  - rewrite join_cons. destruct Hin as [-> | Hin].
    + apply contains_app_l. exact Hc.
    + apply contains_app_r, contains_app_r. apply IH; assumption.
Qed.

(** An occurrence of [p] in a joined list lies in one of its pieces when
    [p] holds no code unit of the separator. *)
Lemma contains_join_inv p sep :
  p <> [] -> sep <> [] -> (forall c, In c sep -> ~ In c p) ->
  forall l, contains p (join sep l) -> exists x, In x l /\ contains p x.
Proof.
  intros Hp Hsep Hdis. induction l as [| x l IH]; intros Hc.
  - destruct Hc as (a & b & E). destruct a; [| discriminate].
    destruct p; [contradiction | discriminate].
  - destruct l as [| y l]; [exists x; split; [left; reflexivity | exact Hc] |].
    rewrite join_cons in Hc. destruct Hc as (a & b & E).
    destruct sep as [| c0 sep']; [contradiction |].
    cbn [app] in E.
    destruct (barrier c0 x (sep' ++ join (c0 :: sep') (y :: l)) a p b Hp)
      as [(e & Ex) | (e & Ea & Ev)].
    + apply Hdis. left. reflexivity.
    + exact E.
    + exists x. split; [left; reflexivity |]. exists a, e. exact Ex.
    + destruct p as [| c q]; [contradiction |].
      destruct (skip_prefix c sep' (join (c0 :: sep') (y :: l)) e (q ++ b))
        as (e' & -> & Ej).
      * rewrite Ev. reflexivity.
      * intros Hin. apply (Hdis c); [right; exact Hin | left; reflexivity].
      * destruct IH as (z & Hz & Hcz).
        -- exists e', b. exact Ej.
        -- exists z. split; [right; exact Hz | exact Hcz].
Qed.

(** *** [trim] *)

Lemma trimStart_keeps c q : forall a t,
  is_whitespace c = false ->
  exists a', trimStart (a ++ c :: q ++ t) = a' ++ c :: q ++ t.
Proof.
  induction a as [| x a IH]; intros t Hc.
  - exists []. cbn. rewrite Hc. reflexivity.
  - cbn. destruct (is_whitespace x).
    + apply IH. exact Hc.
    + exists (x :: a). reflexivity.
Qed.

Lemma trim_keeps p s :
  (exists t, p = 60%N :: t) -> (exists t, p = t ++ [62%N]) ->
  contains p s -> contains p (trim s).
Proof.
  intros (t1 & E1) (t2 & E2) (a & b & ->). unfold trim, trimEnd.
  rewrite E1. cbn [app].
  destruct (trimStart_keeps 60%N t1 a b eq_refl) as (a' & ->).
  change (60%N :: t1 ++ b) with ((60%N :: t1) ++ b). rewrite <- E1, E2.
  rewrite !rev_app_distr. cbn [rev app]. rewrite <- !app_assoc. cbn [app].
  destruct (trimStart_keeps 62%N (rev t2) (rev b) (rev a') eq_refl)
    as (b' & ->).
  rewrite rev_app_distr. cbn [rev]. rewrite rev_app_distr, !rev_involutive.
  cbn [rev app]. rewrite <- !app_assoc. cbn [app].
  exists a', (rev b'). rewrite <- !app_assoc. reflexivity.
Qed.

Section Keep.
Variable r : regex.
Variable f : jsstring -> caps -> jsstring.
Variable p : jsstring.

(** No match starts inside an occurrence of [p], its first code unit
    included. *)
Hypothesis no_start : forall prev q1 c q2 b,
  p = q1 ++ c :: q2 ->
  (q1 <> [] -> prev = last_char None q1) ->
  exec_at r prev (c :: q2 ++ b) = None.

(** A match that starts before an occurrence of [p] and reaches into it
    is replaced by a string that holds [p]. *)
Hypothesis hit_safe : forall prev w rest cs a b,
  exec_at r prev (w ++ rest) = Some (rest, cs) ->
  w ++ rest = a ++ p ++ b ->
  a <> [] -> (length a < length w)%nat ->
  contains p (f w cs).

Lemma gap_run : forall q2 q1 prev b segs,
  p = q1 ++ q2 ->
  (q1 <> [] -> prev = last_char None q1) ->
  scanned r prev (q2 ++ b) segs ->
  exists segs', segs = map Gap q2 ++ segs'.
Proof.
  induction q2 as [| c q2 IH]; intros q1 prev b segs Hp Hprev Hsc.
  - exists segs. reflexivity.
  - pose proof (no_start prev q1 c q2 b Hp Hprev) as Hnone.
    cbn [app] in Hsc. remember (c :: q2 ++ b) as s eqn:Es.
    destruct Hsc as [prev E | prev cs E | prev c0 s segs E Hsc
                     | prev w rest cs segs Hne E Hsc
                     | prev c0 s cs segs E Hsc]; try discriminate.
    + injection Es as -> ->.
      destruct (IH (q1 ++ [c]) (Some c) b segs) as (segs' & ->).
      * rewrite <- app_assoc. exact Hp.
      * intros _. rewrite last_char_app. reflexivity.
      * exact Hsc.
      * exists segs'. reflexivity.
    + rewrite Hnone in E. discriminate.
    + rewrite Hnone in E. discriminate.
Qed.

Lemma keep_scanned prev s segs :
  p <> [] ->
  scanned r prev s segs ->
  forall a b, s = a ++ p ++ b -> contains p (flat_map (seg_out f) segs).
Proof.
  intros Hpne Hsc.
  induction Hsc as [prev E | prev cs E | prev c s segs E Hsc IH
                    | prev w rest cs segs Hne E Hsc IH
                    | prev c s cs segs E Hsc IH]; intros a b Hs.
  - destruct a; [destruct p; [contradiction | discriminate] | discriminate].
  - destruct a; [destruct p; [contradiction | discriminate] | discriminate].
  - destruct a as [| x a].
    + cbn [app] in Hs.
      destruct (gap_run p [] prev b (Gap c :: segs) eq_refl) as (segs' & ->).
      * intros H. contradiction.
      * rewrite <- Hs. constructor; assumption.
      * rewrite flat_map_app. apply contains_app_l.
        replace (flat_map (seg_out f) (map Gap p)) with p;
          [apply contains_refl |].
        clear. induction p as [| y q IHq]; [reflexivity |].
        cbn. f_equal. exact IHq.
    + injection Hs as -> ->. cbn [flat_map seg_out].
      apply contains_app_r. apply (IH a b). reflexivity.
  - cbn [flat_map seg_out].
    destruct a as [| x a].
    + exfalso. destruct p as [| c q]; [contradiction |].
      cbn [app] in Hs. rewrite Hs in E.
      rewrite (no_start prev [] c q b eq_refl) in E; [discriminate |].
      intros H. contradiction.
    + destruct (Nat.lt_ge_cases (length (x :: a)) (length w)) as [Hlt | Hge].
      * apply contains_app_l.
        apply (hit_safe prev w rest cs (x :: a) b E Hs); [discriminate | exact Hlt].
      * apply contains_app_r.
        destruct (app_cut w rest (x :: a) (p ++ b) Hs)
          as [(e & Ea & Er) | (e & Hne' & Ew & _)].
        -- apply (IH e b). exact Er.
        -- exfalso. rewrite Ew, length_app in Hge.
           destruct e; [contradiction | cbn in Hge; lia].
  - destruct a as [| x a].
    + exfalso. destruct p as [| c0 q]; [contradiction |].
      cbn [app] in Hs. rewrite Hs in E.
      rewrite (no_start prev [] c0 q b eq_refl) in E; [discriminate |].
      intros H. contradiction.
    + injection Hs as -> ->. cbn [flat_map seg_out].
      apply contains_app_r. apply contains_cons. apply (IH a b). reflexivity.
Qed.

(** The replacement keeps every occurrence of [p]. *)
Theorem replace_keeps s :
  p <> [] -> contains p s -> contains p (replace r f s).
Proof.
  intros Hpne (a & b & ->). unfold replace.
  apply (keep_scanned None (a ++ p ++ b) _ Hpne (scanned_scan r _) a b).
  reflexivity.
Qed.

End Keep.

(** A replacement whose expression matches nowhere is the identity. *)
Lemma scanned_no_match r f prev s segs :
  scanned r prev s segs ->
  (forall a b, s = a ++ b -> exec_at r (last_char prev a) b = None) ->
  flat_map (seg_out f) segs = s.
Proof.
  induction 1 as [prev E | prev cs E | prev c s segs E Hsc IH
                  | prev w rest cs segs Hne E Hsc IH
                  | prev c s cs segs E Hsc IH]; intros Hno.
  - reflexivity.
  - specialize (Hno [] [] eq_refl).
    change (last_char prev []) with prev in Hno. congruence.
  - cbn. f_equal. apply IH. intros a b Hs.
    specialize (Hno (c :: a) b). rewrite Hs in Hno.
    specialize (Hno eq_refl).
    change (c :: a) with ([c] ++ a) in Hno.
    rewrite last_char_app in Hno. exact Hno.
  - specialize (Hno [] (w ++ rest) eq_refl).
    change (last_char prev []) with prev in Hno. congruence.
  - specialize (Hno [] (c :: s) eq_refl).
    change (last_char prev []) with prev in Hno. congruence.
Qed.

Lemma replace_no_match r f s :
  (forall a b, s = a ++ b -> exec_at r (last_char None a) b = None) ->
  replace r f s = s.
Proof.
  intros Hno. unfold replace.
  apply (scanned_no_match r f None s _ (scanned_scan r s) Hno).
Qed.

(** [split] of a string without the separator, and of joined pieces
    without the separator's first code unit. *)
Lemma split_go_plain sep0 sep' : forall x cur tail,
  ~ In sep0 x ->
  split_go (sep0 :: sep') 0 cur (x ++ tail) =
  split_go (sep0 :: sep') 0 (rev x ++ cur) tail.
Proof.
  induction x as [| c x IH]; intros cur tail Hn; [reflexivity |].
  cbn [app split_go strip_prefix]. unfold char_eqb.
  destruct (N.eqb_spec sep0 c) as [-> | Hne];
    [exfalso; apply Hn; left; reflexivity |].
  rewrite IH by (intros H; apply Hn; right; exact H).
  cbn [rev]. rewrite <- app_assoc. reflexivity.
Qed.

Lemma split_go_at_sep sep0 sep' cur tl :
  split_go (sep0 :: sep') 0 cur ((sep0 :: sep') ++ tl) =
  rev cur :: split_go (sep0 :: sep') 0 [] tl.
Proof.
  cbn [app split_go].
  change (sep0 :: sep' ++ tl) with ((sep0 :: sep') ++ tl).
  rewrite strip_prefix_same. f_equal.
  replace (length (sep0 :: sep') - 1)%nat with (length sep') by (cbn; lia).
  apply split_go_skip.
Qed.

Lemma split_join sep0 sep' : forall ps,
  ps <> [] ->
  Forall (fun x => ~ In sep0 x) ps ->
  split (sep0 :: sep') (join (sep0 :: sep') ps) = ps.
Proof.
  unfold split. induction ps as [| x ps IH]; intros Hne HF; [contradiction |].
  inversion HF as [| ? ? Hx HF']; subst.
  destruct ps as [| y ps].
  - cbn [join]. rewrite <- (app_nil_r x) at 1.
    rewrite split_go_plain by exact Hx. cbn. rewrite app_nil_r, rev_involutive.
    reflexivity.
  - rewrite join_cons, split_go_plain by exact Hx.
    rewrite app_nil_r.
    rewrite split_go_at_sep, rev_involutive. f_equal.
    apply IH; [discriminate | exact HF'].
Qed.

Lemma split_go_whole sep0 sep1 sep' : forall s cur,
  (forall a b, s <> a ++ sep0 :: sep1 :: b) ->
  split_go (sep0 :: sep1 :: sep') 0 cur s = [rev cur ++ s].
Proof.
  induction s as [| c s IH]; intros cur Hn.
  - cbn. rewrite app_nil_r. reflexivity.
  - cbn [split_go].
    destruct (strip_prefix (sep0 :: sep1 :: sep') (c :: s)) as [s' |] eqn:E.
    + exfalso. apply strip_prefix_app in E. cbn [app] in E.
      apply (Hn [] (sep' ++ s')). exact E.
    + rewrite IH.
      * cbn [rev]. rewrite <- app_assoc. reflexivity.
      * intros a b Hs. apply (Hn (c :: a) b). rewrite Hs. reflexivity.
Qed.

End KeepFacts.

(* ------------------------------------------------------------------ *)
(** ** The renderer *)

Module MarkdownFacts.
Import JS Regex RegexFacts KeepFacts Markdown.

Ltac invert_matches :=
  repeat match goal with
  | H : matches (Cat _ _) _ _ _ _ _ |- _ =>
      apply matches_Cat_inv in H; destruct H as (? & ? & ? & ? & ? & ?)
  | H : matches (Lit _) _ _ _ _ _ |- _ =>
      apply matches_Lit_inv in H; destruct H as [? ?]
  | H : matches (Capture _ _) _ _ _ _ _ |- _ =>
      apply matches_Capture_inv in H; destruct H as (? & ? & ?)
  | H : matches LineStart _ _ _ _ _ |- _ =>
      apply matches_LineStart_inv in H; destruct H as (? & ? & ?)
  | H : matches LineEnd _ _ _ _ _ |- _ =>
      apply matches_LineEnd_inv in H; destruct H as (? & ? & ?)
  | H : matches (Repeat _ _ AnyChar) _ _ _ _ _ |- _ =>
      apply matches_some_chars in H; destruct H as (? & ? & ?)
  | H : matches (Repeat _ _ DigitChar) _ _ _ _ _ |- _ =>
      apply matches_digits in H; destruct H as (? & ? & ?)
  | H : matches (Repeat _ _ (OneOf _)) _ _ _ _ _ |- _ =>
      apply matches_one_of in H; destruct H as (? & ? & ?)
  end; subst.

Ltac pick_group :=
  match goal with
  | H : Forall (fun c => is_line_terminator c = false) ?g |- _ => exists g
  end.

Ltac pick_digits :=
  match goal with
  | H : Forall (fun c => is_digit c = true) ?g |- _ => exists g
  end.

Lemma heading_shape hashes prev s rest cs :
  exec_at (heading_re hashes) prev s = Some (rest, cs) ->
  exists g, s = (hashes ++ lit " ") ++ g ++ rest /\ g <> [] /\
            at_line_start prev = true /\ at_line_end rest = true /\
            group 1 cs = g.
Proof.
  intros H. apply exec_at_sound in H. destruct H as (w & -> & H).
  unfold heading_re, some_chars in H. cbn [seq_re] in H. invert_matches.
  pick_group. split; [| repeat split; auto].
  - cbn [app]. rewrite app_nil_r, <- !app_assoc. reflexivity.
  - intros ->. cbn in *. lia.
Qed.

Lemma bold_shape prev s rest cs :
  exec_at bold_re prev s = Some (rest, cs) ->
  exists g, s = lit "**" ++ g ++ lit "**" ++ rest /\ g <> [] /\
            group 1 cs = g.
Proof.
  intros H. apply exec_at_sound in H. destruct H as (w & -> & H).
  unfold bold_re, some_chars in H. cbn [seq_re] in H. invert_matches.
  pick_group. split; [| repeat split; auto].
  - rewrite <- !app_assoc. reflexivity.
  - intros ->. cbn in *. lia.
Qed.

Lemma italic_shape prev s rest cs :
  exec_at italic_re prev s = Some (rest, cs) ->
  exists g, s = lit "*" ++ g ++ lit "*" ++ rest /\ g <> [] /\
            group 1 cs = g.
Proof.
  intros H. apply exec_at_sound in H. destruct H as (w & -> & H).
  unfold italic_re, some_chars in H. cbn [seq_re] in H. invert_matches.
  pick_group. split; [| repeat split; auto].
  - rewrite <- !app_assoc. reflexivity.
  - intros ->. cbn in *. lia.
Qed.

Lemma bullet_shape prev s rest cs :
  exec_at bullet_re prev s = Some (rest, cs) ->
  exists g, s = lit "* " ++ g ++ rest /\ g <> [] /\
            at_line_start prev = true /\ at_line_end rest = true /\
            group 1 cs = g.
Proof.
  intros H. apply exec_at_sound in H. destruct H as (w & -> & H).
  unfold bullet_re, some_chars in H. cbn [seq_re] in H. invert_matches.
  pick_group. split; [| repeat split; auto].
  - cbn [app]. rewrite app_nil_r. reflexivity.
  - intros ->. cbn in *. lia.
Qed.

Lemma numbered_shape prev s rest cs :
  exec_at numbered_re prev s = Some (rest, cs) ->
  exists ds g, s = (ds ++ lit ". ") ++ g ++ rest /\ g <> [] /\
               ds <> [] /\ Forall (fun c => is_digit c = true) ds /\
               at_line_start prev = true /\ at_line_end rest = true /\
               group 1 cs = g.
Proof.
  intros H. apply exec_at_sound in H. destruct H as (w & -> & H).
  unfold numbered_re, some_chars in H. cbn [seq_re] in H. invert_matches.
  pick_digits. pick_group. split; [| repeat split; auto].
  - cbn [app]. rewrite app_nil_r, <- !app_assoc. reflexivity.
  - intros ->. cbn in *. lia.
  - intros ->. cbn in *. lia.
Qed.

(** *** What a protected string cannot hold *)

Lemma prot_nonempty p : protected p -> p <> [].
Proof. intros [[t ->] _ _ _]. discriminate. Qed.

Lemma prot_in p x :
  protected p -> In x p ->
  is_line_terminator x = false /\ x <> 42%N /\ x <> 124%N.
Proof.
  intros Hp Hin. pose proof (prot_chars p Hp) as F.
  rewrite Forall_forall in F. exact (F x Hin).
Qed.

Lemma prot_no_star p : protected p -> ~ In 42%N p.
Proof. intros Hp Hin. destruct (prot_in p _ Hp Hin) as (_ & H & _). auto. Qed.

Lemma prot_no_pipe p : protected p -> ~ In 124%N p.
Proof. intros Hp Hin. destruct (prot_in p _ Hp Hin) as (_ & _ & H). auto. Qed.

Lemma prot_no_newline p x :
  protected p -> In x p -> is_line_terminator x = false.
Proof. intros Hp Hin. apply (prot_in p x Hp Hin). Qed.

Lemma prot_last_char p q1 :
  protected p -> q1 <> [] -> (exists q2, p = q1 ++ q2) ->
  at_line_start (last_char None q1) = false.
Proof.
  intros Hp Hne (q2 & E).
  destruct (exists_last Hne) as (q0 & y & ->).
  rewrite last_char_app. cbn.
  apply (prot_no_newline p y Hp). rewrite E, <- app_assoc.
  apply in_or_app. right. left. reflexivity.
Qed.

Lemma wrap_keeps r tag p s :
  wrap_shape r -> protected p ->
  contains p s -> contains p (replace r (wrap_group tag) s).
Proof.
  intros Hshape Hp. apply replace_keeps; [| | apply prot_nonempty; exact Hp].
  - (* no match starts inside [p] *)
    intros prev q1 c q2 b E Hprev.
    destruct (exec_at r prev (c :: q2 ++ b)) as [[rest cs] |] eqn:Ex;
      [exfalso | reflexivity].
    apply Hshape in Ex.
    destruct Ex as (pre & g & post & Es & _ & Hne & Hpre & _ & Hstart & _).
    destruct pre as [| x pre]; [contradiction |].
    injection Es as <- _.
    destruct Hstart as [(t & [= -> _]) | Hls].
    + apply (prot_no_star p Hp).
      rewrite E. apply in_or_app. right. left. reflexivity.
    + destruct q1 as [| y q1].
      * destruct (prot_head p Hp) as (t & Et). rewrite Et in E.
        injection E as <- _. apply Hpre. left. reflexivity.
      * rewrite (Hprev ltac:(discriminate)) in Hls.
        rewrite (prot_last_char p (y :: q1) Hp) in Hls;
          [discriminate | discriminate | eauto].
  - (* a match that reaches into [p] holds it in group 1 *)
    intros prev w rest cs a b Ex Es Hane Hlen.
    apply Hshape in Ex.
    destruct Ex as (pre & g & post & Ew & Hg & Hne & Hpre & Hpost & _ & Hend).
    assert (Hw : w = pre ++ g ++ post).
    { apply (app_inv_tail rest). rewrite Ew, <- !app_assoc. reflexivity. }
    destruct (prot_head p Hp) as (p' & Ep).
    destruct (inside_group pre g post rest a p b 60%N p') as (g1 & g2 & Eg).
    + rewrite <- Es, Hw, <- !app_assoc. reflexivity.
    + rewrite <- Hw. exact Hlen.
    + exact Ep.
    + exact Hpre.
    + exact Hpost.
    + destruct Hend as [(t & ->) | (-> & Hle)].
      * cbn [app]. apply (prot_no_star p Hp).
      * cbn [app]. destruct rest as [| x rest]; [exact I |].
        cbn in Hle. intros Hin.
        pose proof (prot_no_newline p x Hp Hin). congruence.
    + unfold wrap_group. rewrite Hg, Eg.
      apply contains_app_r, contains_app_r, contains_app_r.
      apply contains_app_l, contains_app_r, contains_app_l.
      apply contains_refl.
Qed.

Lemma heading_wrap_shape hashes :
  hashes <> [] -> ~ In 60%N hashes -> wrap_shape (heading_re hashes).
Proof.
  intros Hne Hn prev s rest cs H. apply heading_shape in H.
  destruct H as (g & -> & Hg & Hs & He & Hc).
  exists (hashes ++ lit " "), g, []. cbn [app].
  repeat split; auto.
  - destruct hashes; [contradiction | discriminate].
  - intros Hin. apply in_app_or in Hin. destruct Hin as [Hin | Hin];
      [contradiction |].
    cbn in Hin. destruct Hin as [Hin | []]. discriminate.
Qed.

Lemma bold_wrap_shape : wrap_shape bold_re.
Proof.
  intros prev s rest cs H. apply bold_shape in H.
  destruct H as (g & -> & Hg & Hc).
  exists (lit "**"), g, (lit "**").
  repeat split; auto; try discriminate.
  - cbn. intros [H | [H | []]]; discriminate.
  - cbn. intros [H | [H | []]]; discriminate.
  - left. eexists. reflexivity.
  - left. eexists. reflexivity.
Qed.

Lemma italic_wrap_shape : wrap_shape italic_re.
Proof.
  intros prev s rest cs H. apply italic_shape in H.
  destruct H as (g & -> & Hg & Hc).
  exists (lit "*"), g, (lit "*").
  repeat split; auto; try discriminate.
  - cbn. intros [H | []]; discriminate.
  - cbn. intros [H | []]; discriminate.
  - left. eexists. reflexivity.
  - left. eexists. reflexivity.
Qed.

Lemma bullet_wrap_shape : wrap_shape bullet_re.
Proof.
  intros prev s rest cs H. apply bullet_shape in H.
  destruct H as (g & -> & Hg & Hs & He & Hc).
  exists (lit "* "), g, []. cbn [app].
  repeat split; auto; try discriminate.
  cbn. intros [H | [H | []]]; discriminate.
Qed.

Lemma numbered_wrap_shape : wrap_shape numbered_re.
Proof.
  intros prev s rest cs H. apply numbered_shape in H.
  destruct H as (ds & g & -> & Hg & Hne & Hd & Hs & He & Hc).
  exists (ds ++ lit ". "), g, []. cbn [app].
  repeat split; auto.
  - destruct ds; [contradiction | discriminate].
  - intros Hin. apply in_app_or in Hin. destruct Hin as [Hin | Hin].
    + rewrite Forall_forall in Hd. specialize (Hd _ Hin). discriminate.
    + cbn in Hin. destruct Hin as [H | [H | []]]; discriminate.
Qed.

(** *** The list wrapper *)

Lemma item_shape prev w rest cs cs' :
  matches item_re prev w rest cs cs' -> starts_item w /\ ends_item w.
Proof.
  unfold item_re. cbn [seq_re]. intros H. invert_matches.
  match goal with
  | H : matches (Optional _) _ ?o _ _ _ |- _ =>
      apply matches_Optional_inv in H;
      destruct H as [[-> ->] | [Hne H]]; [| invert_matches]
  end.
  - split.
    + eexists. reflexivity.
    + match goal with
      | |- ends_item (_ ++ ?x ++ _) => exists (lit "<li>" ++ x), []
      end.
      split; [| left; reflexivity]. rewrite <- !app_assoc. reflexivity.
  - split.
    + eexists. reflexivity.
    + match goal with
      | |- ends_item (_ ++ ?x ++ _) => exists (lit "<li>" ++ x), nl
      end.
      split; [| right; reflexivity]. rewrite <- !app_assoc. reflexivity.
Qed.

Lemma run_shape min greedy prev w rest cs cs' :
  matches (Repeat min greedy item_re) prev w rest cs cs' ->
  (w = [] /\ min = 0%nat) \/ (starts_item w /\ ends_item w).
Proof.
  intros H. remember (Repeat min greedy item_re) as rr eqn:E.
  revert min E.
  induction H; intros mn E; try discriminate.
  - injection E as <- _ _. left. auto.
  - injection E as -> -> ->. right.
    apply item_shape in H. destruct H as [(t1 & E1) (t2 & o & E2 & Ho)].
    destruct (IHmatches2 (pred mn) eq_refl) as [[-> _] |
      [_ (t3 & o3 & E3 & Ho3)]].
    + rewrite app_nil_r. split; [exists t1; exact E1 |].
      exists t2, o. auto.
    + split.
      * exists (t1 ++ m2). rewrite E1, <- !app_assoc. reflexivity.
      * exists (m1 ++ t3), o3. rewrite E3, <- !app_assoc. auto.
Qed.

Lemma list_run_shape prev s rest cs :
  exec_at list_run_re prev s = Some (rest, cs) ->
  exists w, s = w ++ rest /\ starts_item w /\ ends_item w.
Proof.
  intros H. apply exec_at_sound in H. destruct H as (w & -> & H).
  exists w. split; [reflexivity |].
  apply run_shape in H. destruct H as [[_ H] | H]; [discriminate | exact H].
Qed.

Lemma proper_suffix_of_close e3 e :
  lit "</li>" = e3 ++ e -> e3 <> [] -> e <> [] ->
  exists x t, e = x :: t /\ x <> 60%N.
Proof.
  intros E H3 He. cbn in E.
  destruct e3 as [| c1 e3]; [contradiction |]. injection E as _ E.
  do 4 (destruct e3 as [| ? e3];
        [cbn in E; subst e; do 2 eexists; split;
         [reflexivity | discriminate] |
         injection E as _ E]).
  destruct e3; [cbn in E; subst e; contradiction | discriminate].
Qed.

Lemma list_run_keeps p s :
  protected p ->
  contains p s -> contains p (replace list_run_re wrap_whole s).
Proof.
  intros Hp. apply replace_keeps; [| | apply prot_nonempty; exact Hp].
  - intros prev q1 c q2 b E Hprev.
    destruct (exec_at list_run_re prev (c :: q2 ++ b)) as [[rest cs] |] eqn:Ex;
      [exfalso | reflexivity].
    apply list_run_shape in Ex.
    destruct Ex as (w & Es & (t & ->) & _).
    cbn in Es. injection Es as -> Es.
    destruct (prot_lt p Hp q1 q2 E) as [(u & ->) | (u & ->)];
      discriminate.
  - intros prev w rest cs a b Ex Es Hane Hlen.
    apply list_run_shape in Ex. destruct Ex as (w' & Ew & _ & Hend).
    apply app_inv_tail in Ew. subst w'.
    unfold wrap_whole. apply contains_app_r, contains_app_l.
    destruct (app_cut w rest a (p ++ b) Es)
      as [(e & -> & _) | (e & Hne & -> & Ee)].
    { rewrite length_app in Hlen. lia. }
    destruct (app_cut p b e rest Ee) as [(e2 & -> & _) | (e2 & Hne2 & Ep & _)].
    { exists a, e2. reflexivity. }
    exfalso. destruct Hend as (t & o & Ew & [-> | ->]).
    + rewrite app_nil_r in Ew.
      destruct (app_cut a e t (lit "</li>") Ew)
        as [(e3 & -> & Ee3) | (e3 & Hne3 & -> & Ee3)].
      * rewrite Ee3 in Ep. rewrite <- app_assoc in Ep. cbn in Ep.
        destruct (prot_lt p Hp e3 _ Ep) as [(u & Hu) | (u & Hu)];
          discriminate.
      * destruct (proper_suffix_of_close e3 e Ee3 Hne3 Hne)
          as (x & u & -> & Hx).
        destruct (prot_head p Hp) as (p' & Ep'). rewrite Ep' in Ep.
        injection Ep as Ex _. congruence.
    + assert (Hin : In 10%N p).
      { rewrite Ep. apply in_or_app. left.
        assert (El : exists e0, e = e0 ++ [10%N]).
        { rewrite app_assoc in Ew.
          destruct (exists_last Hne) as (e0 & y & ->).
          rewrite !app_assoc in Ew. apply app_inj_tail in Ew.
          destruct Ew as [_ ->]. eauto. }
        destruct El as (e0 & ->). apply in_or_app. right. left. reflexivity. }
      pose proof (prot_no_newline p _ Hp Hin). discriminate.
Qed.

(** *** Tables *)

Lemma row_shape prev w rest cs cs' :
  matches row_re prev w rest cs cs' -> cs' = cs /\ ends_row w.
Proof.
  unfold row_re, some_chars. cbn [seq_re]. intros H. invert_matches.
  match goal with
  | H : matches (Optional _) _ ?o _ _ _ |- _ =>
      apply matches_Optional_inv in H;
      destruct H as [[-> ->] | [Hne H]]; [| invert_matches]
  end.
  - split; [reflexivity |].
    match goal with
    | |- ends_row (_ ++ ?x ++ _) => exists (lit "|" ++ x), 124%N
    end.
    split; [| left; reflexivity]. rewrite <- !app_assoc. reflexivity.
  - split; [cbn [groups]; apply clear_caps_nil |].
    match goal with
    | |- ends_row (_ ++ ?x ++ _) => exists (lit "|" ++ x ++ lit "|"), 10%N
    end.
    split; [| right; reflexivity]. rewrite <- !app_assoc. reflexivity.
Qed.

Lemma rows_shape min greedy prev w rest cs cs' :
  matches (Repeat min greedy row_re) prev w rest cs cs' ->
  cs' = cs /\ ((w = [] /\ min = 0%nat) \/ ends_row w).
Proof.
  intros H. remember (Repeat min greedy row_re) as rr eqn:E.
  revert min E.
  induction H; intros mn E; try discriminate.
  - injection E as <- _ _. auto.
  - injection E as -> -> ->.
    apply row_shape in H. destruct H as [-> (y & z & E1 & Hz)].
    change (groups row_re) with (@nil nat) in *.
    rewrite clear_caps_nil in *.
    destruct (IHmatches2 (pred mn) eq_refl) as [-> [[-> _] |
      (y2 & z2 & E2 & Hz2)]].
    + split; [reflexivity |]. right. rewrite app_nil_r. exists y, z. auto.
    + split; [reflexivity |]. right.
      exists (m1 ++ y2), z2. rewrite E2, <- app_assoc. auto.
Qed.

Lemma table_shape prev s rest cs :
  exec_at tableRegex prev s = Some (rest, cs) ->
  exists hdr sepr body,
    s = 124%N :: hdr ++ 124%N :: 10%N :: 124%N :: sepr ++
        124%N :: 10%N :: body ++ rest /\
    Forall (fun c => existsb (char_eqb c) (lit "-: |") = true) sepr /\
    ends_row body /\
    group 1 cs = hdr /\ group 2 cs = body.
Proof.
  intros H. apply exec_at_sound in H. destruct H as (w & -> & H).
  unfold tableRegex, some_chars in H. cbn [seq_re] in H. invert_matches.
  match goal with
  | H : matches (Repeat _ _ _) _ _ _ _ _ |- _ =>
      apply rows_shape in H; destruct H as [-> [[_ H] | H]];
      [discriminate |]
  end.
  match goal with
  | H1 : Forall (fun c => is_line_terminator c = false) ?h,
    H2 : Forall (fun c => existsb _ _ = true) ?sp,
    H3 : ends_row ?bd |- _ => exists h, sp, bd
  end.
  repeat split; auto.
  rewrite <- !app_assoc. reflexivity.
Qed.

Lemma barrier_head (x : char) (v a p b : jsstring) :
  p <> [] -> ~ In x p ->
  x :: v = a ++ p ++ b ->
  exists e, a = x :: e /\ v = e ++ p ++ b.
Proof.
  intros Hne Hx E.
  destruct (barrier x [] v a p b Hne Hx E) as [(e & Ee) | (e & -> & ->)].
  - exfalso. symmetry in Ee. apply app_eq_nil in Ee. destruct Ee as [_ Ee].
    apply app_eq_nil in Ee. destruct Ee as [Ee _]. contradiction.
  - exists e. auto.
Qed.

Lemma prot_no_nl p : protected p -> ~ In 10%N p.
Proof. intros Hp Hin. pose proof (prot_no_newline p _ Hp Hin). discriminate. Qed.

Lemma cells_keep p row :
  protected p -> contains p row ->
  exists cell, In cell (cells row) /\ contains p (trim cell).
Proof.
  intros Hp Hc.
  rewrite <- (join_split (lit "|") row) in Hc by discriminate.
  apply contains_join_inv in Hc;
    [| apply prot_nonempty; exact Hp | discriminate |].
  - destruct Hc as (cell & Hin & Hcell). exists cell.
    assert (Ht : contains p (trim cell))
      by (apply trim_keeps; [apply prot_head | apply prot_last |]; assumption).
    split; [| exact Ht].
    unfold cells. apply filter_In. split; [exact Hin |].
    unfold nonblank. destruct (trim cell); [| reflexivity].
    destruct Ht as (a & b & E). exfalso.
    destruct a; [| discriminate].
    destruct p; [exact (prot_nonempty _ Hp eq_refl) | discriminate].
  - intros c [<- | []]. apply prot_no_pipe. exact Hp.
Qed.

Lemma table_html_keeps p w cs :
  protected p ->
  contains p (group 1 cs) \/ contains p (group 2 cs) ->
  contains p (table_html w cs).
Proof.
  intros Hp [Hc | Hc]; unfold table_html.
  - apply cells_keep in Hc; [| exact Hp]. destruct Hc as (cell & Hin & Hcell).
    apply contains_app_r, contains_app_l.
    apply (contains_in_flat_map _ p cell _ Hin).
    apply contains_app_r, contains_app_l. exact Hcell.
  - apply (trim_keeps p _ (prot_head p Hp) (prot_last p Hp)) in Hc.
    rewrite <- (join_split nl (trim (group 2 cs))) in Hc by discriminate.
    apply contains_join_inv in Hc;
      [| apply prot_nonempty; exact Hp | discriminate |].
    + destruct Hc as (row & Hrow & Hc).
      apply cells_keep in Hc; [| exact Hp].
      destruct Hc as (cell & Hin & Hcell).
      apply contains_app_r, contains_app_r, contains_app_r, contains_app_l.
      apply (contains_in_flat_map _ p (cells row)).
      * apply in_map. exact Hrow.
      * apply contains_app_r, contains_app_l.
        apply (contains_in_flat_map _ p cell _ Hin).
        apply contains_app_r, contains_app_l. exact Hcell.
    + intros c [<- | []]. apply prot_no_nl. exact Hp.
Qed.

Lemma table_keeps p s :
  protected p ->
  contains p s -> contains p (replace tableRegex table_html s).
Proof.
  intros Hp. pose proof (prot_nonempty p Hp) as Hne.
  pose proof (prot_no_pipe p Hp) as Hpipe.
  pose proof (prot_no_nl p Hp) as Hnl.
  apply replace_keeps; [| | exact Hne].
  - intros prev q1 c q2 b E Hprev.
    destruct (exec_at tableRegex prev (c :: q2 ++ b)) as [[rest cs] |] eqn:Ex;
      [exfalso | reflexivity].
    apply table_shape in Ex. destruct Ex as (hdr & sepr & body & Es & _).
    injection Es as -> _. apply Hpipe. rewrite E.
    apply in_or_app. right. left. reflexivity.
  - intros prev w rest cs a b Ex Es Hane Hlen.
    apply table_shape in Ex.
    destruct Ex as (hdr & sepr & body & Ew & Hsep & (y & z & -> & Hz) & H1 & H2).
    apply table_html_keeps; [exact Hp |]. rewrite H1, H2.
    assert (Hw : w = 124%N :: hdr ++ 124%N :: 10%N :: 124%N :: sepr ++
                     124%N :: 10%N :: y ++ [z]).
    { apply (app_inv_tail rest). rewrite Ew.
      repeat (cbn [app]; rewrite <- app_assoc). reflexivity. }
    rewrite Es in Ew. symmetry in Ew.
    destruct (barrier_head _ _ a p b Hne Hpipe Ew) as (e1 & -> & E1).
    destruct (barrier _ hdr _ e1 p b Hne Hpipe E1)
      as [(e & Eh) | (e2 & -> & E2)].
    { left. exists e1, e. exact Eh. }
    destruct (barrier_head _ _ e2 p b Hne Hnl E2) as (e3 & -> & E3).
    destruct (barrier_head _ _ e3 p b Hne Hpipe E3) as (e4 & -> & E4).
    destruct (barrier _ sepr _ e4 p b Hne Hpipe E4)
      as [(e & Eh) | (e5 & -> & E5)].
    { exfalso. destruct (prot_head p Hp) as (t & Et).
      rewrite Forall_forall in Hsep.
      assert (Hin : In 60%N sepr).
      { rewrite Eh, Et. apply in_or_app. right. left. reflexivity. }
      specialize (Hsep _ Hin). discriminate. }
    destruct (barrier_head _ _ e5 p b Hne Hnl E5) as (e6 & -> & E6).
    rewrite <- app_assoc in E6. cbn [app] in E6.
    assert (Hz' : ~ In z p) by (destruct Hz as [-> | ->]; assumption).
    destruct (barrier z y rest e6 p b Hne Hz' E6)
      as [(e & Ey) | (e7 & -> & _)].
    { right. exists e6, (e ++ [z]). rewrite Ey, <- !app_assoc. reflexivity. }
    exfalso. rewrite Hw in Hlen. cbn [length] in Hlen.
    repeat (rewrite length_app in Hlen; cbn [length] in Hlen). lia.
Qed.

(** *** Paragraphs *)

Lemma paragraph_keeps p x :
  protected p -> contains p x -> contains p (paragraph x).
Proof.
  intros Hp Hc.
  apply (trim_keeps p _ (prot_head p Hp) (prot_last p Hp)) in Hc.
  unfold paragraph. destruct (trim x) as [| c t] eqn:E.
  - destruct Hc as (a & b & Eab). exfalso.
    destruct a; [| discriminate].
    destruct p; [exact (prot_nonempty _ Hp eq_refl) | discriminate].
  - destruct (_ || _); [exact Hc |].
    apply contains_app_r, contains_app_l. exact Hc.
Qed.

Lemma blocks_keep p html :
  protected p -> contains p html -> contains p (join nl (blocks html)).
Proof.
  intros Hp Hc.
  rewrite <- (join_split (nl ++ nl) html) in Hc by discriminate.
  apply contains_join_inv in Hc;
    [| apply prot_nonempty; exact Hp | discriminate |].
  - destruct Hc as (x & Hin & Hx).
    apply (contains_join p nl (paragraph x)).
    + unfold blocks. apply in_map. exact Hin.
    + apply paragraph_keeps; assumption.
  - intros c [<- | [<- | []]]; apply prot_no_nl; exact Hp.
Qed.

(** The renderer keeps every occurrence of a protected string. *)
Theorem renderMarkdown_keeps p content :
  protected p -> contains p content -> contains p (renderMarkdown content).
Proof.
  intros Hp Hc. unfold renderMarkdown, render_blocks.
  apply blocks_keep; [exact Hp |]. unfold inline_passes.
  apply table_keeps; [exact Hp |].
  apply wrap_keeps; [apply numbered_wrap_shape | exact Hp |].
  apply list_run_keeps; [exact Hp |].
  apply wrap_keeps; [apply bullet_wrap_shape | exact Hp |].
  apply wrap_keeps; [apply italic_wrap_shape | exact Hp |].
  apply wrap_keeps; [apply bold_wrap_shape | exact Hp |].
  apply wrap_keeps; [apply heading_wrap_shape | exact Hp |].
  { discriminate. } { cbn. intros [H | []]. discriminate. }
  apply wrap_keeps; [apply heading_wrap_shape | exact Hp |].
  { discriminate. } { cbn. intros [H | [H | []]]; discriminate. }
  apply wrap_keeps; [apply heading_wrap_shape | exact Hp |].
  { discriminate. } { cbn. intros [H | [H | [H | []]]]; discriminate. }
  exact Hc.
Qed.

(** *** Placeholders are protected *)

Lemma inner_char_spec c :
  inner_char c = true ->
  is_line_terminator c = false /\ c <> 42%N /\ c <> 124%N /\ c <> 60%N.
Proof.
  unfold inner_char. rewrite !andb_true_iff, !negb_true_iff.
  intros (((H1 & H2) & H3) & H4).
  apply N.eqb_neq in H2, H3, H4. auto.
Qed.

Lemma digit_inner c : is_digit c = true -> inner_char c = true.
Proof.
  unfold is_digit, inner_char, is_line_terminator.
  rewrite andb_true_iff. intros [H1 H2].
  apply N.leb_le in H1, H2.
  repeat match goal with
  | |- context [N.eqb c ?k] =>
      destruct (N.eqb_spec c k); [exfalso; lia |]
  end.
  reflexivity.
Qed.

Lemma key_inner c : key_char_ok c = true -> inner_char c = true.
Proof.
  unfold key_char_ok, inner_char. rewrite !andb_true_iff.
  intros ((((H1 & H2) & H3) & H4) & H5). auto.
Qed.

Lemma uint_digits_ok u : Forall (fun c => is_digit c = true) (uint_digits u).
Proof. induction u; cbn; constructor; auto. Qed.

Lemma number_inner n :
  Forall (fun c => inner_char c = true) (number_to_string n).
Proof.
  eapply Forall_impl; [| apply uint_digits_ok]. apply digit_inner.
Qed.

Lemma citation_span_split sourceId key n :
  Citations.citation_span sourceId key n =
  60%N :: span_body sourceId key n ++ lit "</span>".
Proof.
  unfold Citations.citation_span, span_body, Citations.quoted.
  change (lit "<span class=") with (60%N :: lit "span class=").
  cbn [app]. f_equal.
  repeat (rewrite <- app_assoc; cbn [app]). reflexivity.
Qed.

Lemma span_body_inner ds key n :
  Forall (fun c => is_digit c = true) ds -> key_ok key ->
  Forall (fun c => inner_char c = true)
         (span_body (Citations.source_id ds) key n).
Proof.
  intros Hd Hk. unfold span_body, Citations.quoted, Citations.source_id.
  repeat first
    [ apply Forall_app; split
    | apply Forall_cons; [reflexivity |]
    | apply Forall_nil
    | apply number_inner
    | exact (Forall_impl _ key_inner Hk)
    | exact (Forall_impl _ digit_inner Hd) ].
Qed.

Lemma citation_span_protected ds key n :
  Forall (fun c => is_digit c = true) ds -> key_ok key ->
  protected (Citations.citation_span (Citations.source_id ds) key n).
Proof.
  intros Hd Hk. rewrite citation_span_split.
  pose proof (span_body_inner ds key n Hd Hk) as Hb.
  set (body := span_body (Citations.source_id ds) key n) in *.
  assert (Hno : ~ In 60%N body).
  { intros Hin. rewrite Forall_forall in Hb.
    destruct (inner_char_spec _ (Hb _ Hin)) as (_ & _ & _ & H). auto. }
  constructor.
  - eexists. reflexivity.
  - exists (60%N :: body ++ lit "</span").
    cbn [app]. rewrite <- app_assoc. reflexivity.
  - constructor; [repeat split; discriminate |].
    apply Forall_app. split.
    + eapply Forall_impl; [| exact Hb]. intros c Hc.
      destruct (inner_char_spec c Hc) as (H1 & H2 & H3 & _). auto.
    + repeat (constructor; [repeat split; discriminate |]). constructor.
  - intros a b E. destruct a as [| x a].
    + injection E as <-. left. unfold body, span_body. eexists. reflexivity.
    + injection E as _ E.
      destruct (skip_prefix 60%N body (lit "</span>") a b E Hno)
        as (e & -> & E2).
      destruct e as [| y e].
      * injection E2 as <-. right. eexists. reflexivity.
      * exfalso. injection E2 as _ E2.
        assert (Hin : In 60%N (e ++ 60%N :: b))
          by (apply in_or_app; right; left; reflexivity).
        rewrite <- E2 in Hin.
        cbn in Hin. repeat (destruct Hin as [Hin | Hin]; [discriminate |]).
        exact Hin.
Qed.

Lemma section_keys_ok : Forall key_ok section_keys.
Proof.
  unfold section_keys, key_ok.
  repeat (constructor; [repeat (constructor; [reflexivity |]); constructor |]).
  constructor.
Qed.

(** *** The placeholders of the parser *)

Import Citations CitationFacts.

Lemma marker_ids_digits s segs :
  marker_scanned s segs ->
  Forall (fun id => exists ds, Forall (fun c => is_digit c = true) ds /\
                               id = source_id ds) (ids_of segs).
Proof.
  induction 1 as [| c s segs Hc _ IH | ds rest segs Hd _ IH]; cbn.
  - constructor.
  - exact IH.
  - constructor; [| exact IH]. exists ds. split; [apply Hd | reflexivity].
Qed.

Lemma render_contains_span key : forall segs nums i id n,
  nth_error (ids_of segs) i = Some id ->
  nth_error nums i = Some n ->
  contains (citation_span id key n) (render_numbered key segs nums).
Proof.
  induction segs as [| [c | w cs] segs IH]; intros nums i id n Hid Hn.
  - destruct i; discriminate.
  - cbn [render_numbered]. apply contains_cons. apply (IH nums i); assumption.
  - cbn [ids_of flat_map app] in Hid. change (flat_map _ segs) with (ids_of segs) in Hid.
    destruct nums as [| n0 nums]; [destruct i; discriminate |].
    cbn [render_numbered]. destruct i as [| i].
    + injection Hid as <-. injection Hn as <-.
      apply contains_app_l, contains_refl.
    + apply contains_app_r. apply (IH nums i); assumption.
Qed.

Example bold_marker_rendered :
  renderMarkdown (processCitationTags bold_marker tt (lit "overview")) =
  lit "<p><strong>bold " ++
  citation_span (lit "src_1") (lit "overview") 1 ++
  lit " text</strong></p>".
Proof. vm_compute. reflexivity. Qed.

(** C2: with a section key that holds no line terminator, [*], [|], [<]
    or [>] (as the keys of [sectionOrder] do), every placeholder the
    parser writes for a marker stands in the parser's output and,
    unchanged, in the rendering of that output; more generally each of the
    heading, emphasis and list rules, and the renderer as a whole, keeps
    every occurrence of a placeholder in any text. *)
Theorem C2_placeholders_survive (content key : jsstring) :
  key_ok key ->
  let html := processCitationTags content tt key in
  (forall i id n,
     nth_error (marker_ids content) i = Some id ->
     nth_error (display_numbers content) i = Some n ->
     contains (citation_span id key n) html /\
     contains (citation_span id key n) (renderMarkdown html)) /\
  (forall ds n text,
     Forall (fun c => is_digit c = true) ds ->
     let p := citation_span (source_id ds) key n in
     contains p text ->
     contains p (replace (heading_re (lit "###")) (wrap_group (lit "h3")) text)
     /\
     contains p (replace (heading_re (lit "##")) (wrap_group (lit "h2")) text)
     /\
     contains p (replace (heading_re (lit "#")) (wrap_group (lit "h1")) text)
     /\
     contains p (replace bold_re (wrap_group (lit "strong")) text) /\
     contains p (replace italic_re (wrap_group (lit "em")) text) /\
     contains p (replace bullet_re (wrap_group (lit "li")) text) /\
     contains p (replace list_run_re wrap_whole text) /\
     contains p (replace numbered_re (wrap_group (lit "li")) text) /\
     contains p (renderMarkdown text)).
Proof.
  intros Hk. cbv zeta. split.
  - intros i id n Hid Hn.
    assert (Hin : contains (citation_span id key n)
                    (processCitationTags content tt key)).
    { unfold processCitationTags. rewrite run_spec. cbn [snd].
      apply (render_contains_span key _ _ i); assumption. }
    split; [exact Hin |].
    pose proof (marker_ids_digits _ _ (scan_marker_scanned content)) as Hd.
    rewrite Forall_forall in Hd.
    destruct (Hd id (nth_error_In _ _ Hid)) as (ds & Hds & ->).
    apply renderMarkdown_keeps; [| exact Hin].
    apply citation_span_protected; assumption.
  - intros ds n text Hd Hc.
    pose proof (citation_span_protected ds key n Hd Hk) as Hp.
    repeat split.
    + apply wrap_keeps; [apply heading_wrap_shape | |]; try assumption.
      * discriminate.
      * cbn. intros [H | [H | [H | []]]]; discriminate.
    + apply wrap_keeps; [apply heading_wrap_shape | |]; try assumption.
      * discriminate.
      * cbn. intros [H | [H | []]]; discriminate.
    + apply wrap_keeps; [apply heading_wrap_shape | |]; try assumption.
      * discriminate.
      * cbn. intros [H | []]; discriminate.
    + apply wrap_keeps; [apply bold_wrap_shape | |]; assumption.
    + apply wrap_keeps; [apply italic_wrap_shape | |]; assumption.
    + apply wrap_keeps; [apply bullet_wrap_shape | |]; assumption.
    + apply list_run_keeps; assumption.
    + apply wrap_keeps; [apply numbered_wrap_shape | |]; assumption.
    + apply renderMarkdown_keeps; assumption.
Qed.

Lemma C2_placeholders_survive_witness :
  key_ok (lit "overview") /\
  nth_error (marker_ids bold_marker) 0 = Some (lit "src_1") /\
  nth_error (display_numbers bold_marker) 0 = Some 1%N /\
  contains (citation_span (lit "src_1") (lit "overview") 1)
    (renderMarkdown (processCitationTags bold_marker tt (lit "overview"))).
Proof.
  assert (Hk : key_ok (lit "overview")).
  { pose proof section_keys_ok as H. inversion H. assumption. }
  assert (Hid : nth_error (marker_ids bold_marker) 0 = Some (lit "src_1"))
    by (vm_compute; reflexivity).
  assert (Hn : nth_error (display_numbers bold_marker) 0 = Some 1%N)
    by (vm_compute; reflexivity).
  destruct (C2_placeholders_survive bold_marker (lit "overview") Hk)
    as [H _].
  destruct (H 0%nat (lit "src_1") 1%N Hid Hn) as [_ Hr].
  exact (conj Hk (conj Hid (conj Hn Hr))).
Defined.

(** *** Text without markup *)

Lemma markup_free_app : forall a prev b,
  markup_free prev (a ++ b) =
  markup_free prev a && markup_free (last_char prev a) b.
Proof.
  induction a as [| c a IH]; intros prev b; [reflexivity |].
  cbn [app markup_free]. rewrite IH, andb_assoc.
  change (c :: a) with ([c] ++ a). rewrite last_char_app. reflexivity.
Qed.

Lemma markup_free_star prev t : markup_free prev (42%N :: t) = false.
Proof. reflexivity. Qed.

Lemma markup_free_pipe prev t : markup_free prev (124%N :: t) = false.
Proof. reflexivity. Qed.

Lemma markup_free_hash prev t :
  at_line_start prev = true -> markup_free prev (35%N :: t) = false.
Proof. intros H. cbn. unfold char_free. rewrite H. reflexivity. Qed.

Lemma markup_free_digit prev d t :
  at_line_start prev = true -> is_digit d = true ->
  markup_free prev (d :: t) = false.
Proof.
  intros H Hd. cbn. unfold char_free. rewrite H, Hd. cbn.
  rewrite !andb_false_r. reflexivity.
Qed.

Lemma markup_free_li prev t :
  markup_free prev (60%N :: 108%N :: t) = false.
Proof. cbn. rewrite !andb_false_r. reflexivity. Qed.

Lemma heading_silent hashes :
  (exists t, hashes = 35%N :: t) -> silent (heading_re hashes).
Proof.
  intros (t & ->) prev b Hf.
  destruct (exec_at _ prev b) as [[rest cs] |] eqn:E; [| reflexivity].
  apply heading_shape in E. destruct E as (g & -> & _ & Hls & _).
  cbn [app] in Hf. rewrite markup_free_hash in Hf by exact Hls. discriminate.
Qed.

Lemma bold_silent : silent bold_re.
Proof.
  intros prev b Hf.
  destruct (exec_at _ prev b) as [[rest cs] |] eqn:E; [| reflexivity].
  apply bold_shape in E. destruct E as (g & -> & _).
  cbn [app lit] in Hf. discriminate.
Qed.

Lemma italic_silent : silent italic_re.
Proof.
  intros prev b Hf.
  destruct (exec_at _ prev b) as [[rest cs] |] eqn:E; [| reflexivity].
  apply italic_shape in E. destruct E as (g & -> & _).
  cbn [app lit] in Hf. discriminate.
Qed.

Lemma bullet_silent : silent bullet_re.
Proof.
  intros prev b Hf.
  destruct (exec_at _ prev b) as [[rest cs] |] eqn:E; [| reflexivity].
  apply bullet_shape in E. destruct E as (g & -> & _).
  cbn [app lit] in Hf. discriminate.
Qed.

Lemma numbered_silent : silent numbered_re.
Proof.
  intros prev b Hf.
  destruct (exec_at _ prev b) as [[rest cs] |] eqn:E; [| reflexivity].
  apply numbered_shape in E.
  destruct E as (ds & g & -> & _ & Hne & Hd & Hls & _).
  destruct ds as [| d ds]; [contradiction |].
  inversion Hd; subst.
  cbn [app] in Hf. rewrite markup_free_digit in Hf by assumption.
  discriminate.
Qed.

Lemma list_run_silent : silent list_run_re.
Proof.
  intros prev b Hf.
  destruct (exec_at _ prev b) as [[rest cs] |] eqn:E; [| reflexivity].
  apply list_run_shape in E. destruct E as (w & -> & (t & ->) & _).
  change ((lit "<li>" ++ t) ++ rest)
    with (60%N :: 108%N :: (105%N :: 62%N :: t) ++ rest) in Hf.
  rewrite markup_free_li in Hf. discriminate.
Qed.

Lemma table_silent : silent tableRegex.
Proof.
  intros prev b Hf.
  destruct (exec_at _ prev b) as [[rest cs] |] eqn:E; [| reflexivity].
  apply table_shape in E. destruct E as (hdr & sepr & body & -> & _).
  rewrite markup_free_pipe in Hf. discriminate.
Qed.

Lemma silent_replace r f s :
  silent r -> markup_free None s = true -> replace r f s = s.
Proof.
  intros Hr Hf. apply replace_no_match. intros a b ->.
  apply Hr. rewrite markup_free_app in Hf.
  apply andb_true_iff in Hf. apply Hf.
Qed.

(** The rewriting passes leave a text without markup as it is. *)
Lemma inline_passes_plain s :
  markup_free None s = true -> inline_passes s = s.
Proof.
  intros Hf. unfold inline_passes.
  rewrite (silent_replace (heading_re (lit "###")) _ s)
    by (try apply heading_silent; try (eexists; reflexivity); exact Hf).
  rewrite (silent_replace (heading_re (lit "##")) _ s)
    by (try apply heading_silent; try (eexists; reflexivity); exact Hf).
  rewrite (silent_replace (heading_re (lit "#")) _ s)
    by (try apply heading_silent; try (eexists; reflexivity); exact Hf).
  rewrite (silent_replace bold_re _ s) by (try apply bold_silent; exact Hf).
  rewrite (silent_replace italic_re _ s)
    by (try apply italic_silent; exact Hf).
  rewrite (silent_replace bullet_re _ s)
    by (try apply bullet_silent; exact Hf).
  rewrite (silent_replace list_run_re _ s)
    by (try apply list_run_silent; exact Hf).
  rewrite (silent_replace numbered_re _ s)
    by (try apply numbered_silent; exact Hf).
  apply silent_replace; [apply table_silent | exact Hf].
Qed.

(** *** Plain paragraphs *)

Lemma plain_char_spec c :
  plain_char c = true ->
  is_line_terminator c = false /\ c <> 42%N /\ c <> 124%N /\ c <> 60%N.
Proof. apply inner_char_spec. Qed.

Lemma char_free_inside p c :
  plain_char p = true -> plain_char c = true -> char_free (Some p) c = true.
Proof.
  intros Hp Hc. apply plain_char_spec in Hp, Hc.
  destruct Hp as (P1 & _ & _ & P4). destruct Hc as (_ & C2 & C3 & _).
  unfold char_free. cbn [at_line_start]. rewrite P1.
  apply N.eqb_neq in C2, C3, P4. rewrite C2, C3, P4. reflexivity.
Qed.

Lemma plain_tail_free : forall t p,
  plain_char p = true -> forallb plain_char t = true ->
  markup_free (Some p) t = true.
Proof.
  induction t as [| c t IH]; intros p Hp Ht; [reflexivity |].
  cbn in Ht. apply andb_true_iff in Ht. destruct Ht as [Hc Ht].
  cbn [markup_free]. rewrite char_free_inside, IH by assumption.
  reflexivity.
Qed.

(** What [plain_paragraph] says. *)
Lemma plain_paragraph_spec x :
  plain_paragraph x = true ->
  exists c t,
    x = c :: t /\ forallb plain_char x = true /\ is_digit c = false /\
    c <> 35%N /\ is_whitespace c = false /\
    is_whitespace (last x 0%N) = false.
Proof.
  unfold plain_paragraph. destruct x as [| c t]; [discriminate |].
  rewrite !andb_true_iff, !negb_true_iff.
  intros ((((H1 & H2) & H3) & H4) & H5).
  exists c, t. apply N.eqb_neq in H3. auto 7.
Qed.

Lemma plain_free x prev :
  plain_paragraph x = true -> prev <> Some 60%N ->
  markup_free prev x = true.
Proof.
  intros Hx Hprev. apply plain_paragraph_spec in Hx.
  destruct Hx as (c & t & -> & Hall & Hd & Hh & _ & _).
  cbn in Hall. apply andb_true_iff in Hall. destruct Hall as [Hc Ht].
  cbn [markup_free]. rewrite plain_tail_free by assumption.
  rewrite andb_true_r.
  pose proof (plain_char_spec c Hc) as (_ & C2 & C3 & _).
  apply N.eqb_neq in C2, C3, Hh.
  unfold char_free. rewrite C2, C3, Hd, Hh. cbn.
  destruct (at_line_start prev); cbn.
  - destruct prev as [d |]; [| reflexivity].
    destruct (N.eqb_spec d 60); [congruence | reflexivity].
  - destruct prev as [d |]; [| reflexivity].
    destruct (N.eqb_spec d 60); [congruence | reflexivity].
Qed.

Lemma forallb_last (f : N -> bool) : forall x c,
  forallb f (c :: x) = true -> f (last (c :: x) 0%N) = true.
Proof.
  induction x as [| d x IH]; intros c H.
  - cbn in *. apply andb_true_iff in H. apply H.
  - change (last (c :: d :: x) 0%N) with (last (d :: x) 0%N).
    apply IH. cbn in H. apply andb_true_iff in H. apply H.
Qed.

Lemma last_char_last prev : forall x c,
  last_char prev (c :: x) = Some (last (c :: x) 0%N).
Proof.
  intros x c. destruct (exists_last (l := c :: x)) as (y & z & E);
    [discriminate |].
  rewrite E, last_char_app, last_last. reflexivity.
Qed.

Lemma plain_last x prev :
  plain_paragraph x = true ->
  exists z, last_char prev x = Some z /\ plain_char z = true.
Proof.
  intros Hx. apply plain_paragraph_spec in Hx.
  destruct Hx as (c & t & -> & Hall & _).
  exists (last (c :: t) 0%N). split; [apply last_char_last |].
  apply forallb_last. exact Hall.
Qed.

Lemma plain_no_newline x : plain_paragraph x = true -> ~ In 10%N x.
Proof.
  intros Hx Hin. apply plain_paragraph_spec in Hx.
  destruct Hx as (c & t & _ & Hall & _).
  rewrite forallb_forall in Hall. specialize (Hall _ Hin). discriminate.
Qed.

(** Plain paragraphs with blank lines between them are a text without
    markup. *)
Lemma paragraphs_free : forall ps prev,
  ps <> [] -> Forall (fun x => plain_paragraph x = true) ps ->
  prev <> Some 60%N ->
  markup_free prev (join (nl ++ nl) ps) = true.
Proof.
  induction ps as [| x ps IH]; intros prev Hne HF Hprev; [contradiction |].
  inversion HF as [| ? ? Hx HF']; subst.
  destruct ps as [| y ps]; [apply plain_free; assumption |].
  rewrite join_cons, markup_free_app, (markup_free_app (nl ++ nl)),
    plain_free by assumption.
  destruct (plain_last x prev Hx) as (z & -> & Hz).
  assert (Hsep : markup_free (Some z) (nl ++ nl) = true).
  { cbn [nl app markup_free].
    apply plain_char_spec in Hz. destruct Hz as (Z1 & _ & _ & Z4).
    unfold char_free at 1. cbn [at_line_start]. rewrite Z1.
    apply N.eqb_neq in Z4. rewrite Z4. reflexivity. }
  rewrite Hsep. cbn [andb]. apply IH; [discriminate | exact HF' |].
  cbn. discriminate.
Qed.

Lemma char_free_lt prev : char_free prev 60%N = true.
Proof.
  unfold char_free. cbn. destruct (at_line_start prev); cbn;
    destruct prev; try reflexivity; rewrite andb_false_r; reflexivity.
Qed.

Lemma p_block_free x prev :
  plain_paragraph x = true -> markup_free prev (p_block x) = true.
Proof.
  intros Hx. unfold p_block.
  rewrite !markup_free_app.
  destruct (plain_last x (last_char prev (lit "<p>")) Hx) as (z & -> & Hz).
  rewrite (plain_free x) by (assumption || (cbn; discriminate)).
  cbn [lit app markup_free list_ascii_of_string map].
  change (N_of_ascii "<") with 60%N. rewrite !char_free_lt.
  apply plain_char_spec in Hz. destruct Hz as (Z1 & _ & _ & Z4).
  reflexivity.
Qed.

(** The rendering of plain paragraphs is a text without markup as well. *)
Lemma p_blocks_free : forall ps prev,
  Forall (fun x => plain_paragraph x = true) ps ->
  markup_free prev (join nl (map p_block ps)) = true.
Proof.
  induction ps as [| x ps IH]; intros prev HF; [reflexivity |].
  inversion HF as [| ? ? Hx HF']; subst.
  destruct ps as [| y ps]; [apply p_block_free; assumption |].
  cbn [map]. rewrite join_cons, !markup_free_app, p_block_free by assumption.
  cbn [andb].
  assert (Hl : last_char prev (p_block x) = Some 62%N).
  { unfold p_block. rewrite !last_char_app. reflexivity. }
  rewrite Hl. cbn [nl markup_free]. apply andb_true_iff. split;
    [reflexivity |].
  apply (IH (Some 10%N) HF').
Qed.

(** *** The block logic on plain paragraphs and on its own output *)

Lemma trimStart_id c t : is_whitespace c = false -> trimStart (c :: t) = c :: t.
Proof. intros H. cbn. rewrite H. reflexivity. Qed.

Lemma trim_id x :
  (exists c t, x = c :: t /\ is_whitespace c = false) ->
  is_whitespace (last x 0%N) = false ->
  trim x = x.
Proof.
  intros (c & t & -> & Hc) Hl. unfold trim, trimEnd.
  rewrite trimStart_id by exact Hc.
  destruct (exists_last (l := c :: t)) as (y & z & E); [discriminate |].
  rewrite E in *. rewrite last_last in Hl.
  rewrite rev_app_distr. cbn [rev app].
  rewrite trimStart_id by exact Hl.
  change (z :: rev y) with ([z] ++ rev y).
  rewrite rev_app_distr, rev_involutive. reflexivity.
Qed.

Lemma paragraph_plain x : plain_paragraph x = true -> paragraph x = p_block x.
Proof.
  intros Hx. apply plain_paragraph_spec in Hx.
  destruct Hx as (c & t & -> & Hall & _ & _ & Hws & Hl).
  unfold paragraph. rewrite trim_id by eauto.
  cbn in Hall. apply andb_true_iff in Hall. destruct Hall as [Hc _].
  apply plain_char_spec in Hc. destruct Hc as (_ & _ & _ & C4).
  unfold startsWith. cbn [lit list_ascii_of_string map strip_prefix].
  change (N_of_ascii "<") with 60%N. unfold char_eqb.
  destruct (N.eqb_spec 60 c); [congruence |]. reflexivity.
Qed.

Lemma blocks_plain ps :
  ps <> [] -> Forall (fun x => plain_paragraph x = true) ps ->
  blocks (join (nl ++ nl) ps) = map p_block ps.
Proof.
  intros Hne HF. unfold blocks.
  change (nl ++ nl) with (10%N :: [10%N]).
  rewrite split_join; [| exact Hne |].
  - apply map_ext_in. intros x Hx. apply paragraph_plain.
    rewrite Forall_forall in HF. auto.
  - eapply Forall_impl; [| exact HF]. apply plain_no_newline.
Qed.

Lemma p_block_no_newline x : plain_paragraph x = true -> ~ In 10%N (p_block x).
Proof.
  intros Hx Hin. unfold p_block in Hin.
  apply in_app_or in Hin. destruct Hin as [Hin | Hin].
  - cbn in Hin. repeat (destruct Hin as [Hin | Hin]; [discriminate |]).
    exact Hin.
  - apply in_app_or in Hin. destruct Hin as [Hin | Hin].
    + exact (plain_no_newline x Hx Hin).
    + cbn in Hin. repeat (destruct Hin as [Hin | Hin]; [discriminate |]).
      exact Hin.
Qed.

Lemma split_go_single_newline cur t :
  split_go (nl ++ nl) 0 cur (10%N :: 60%N :: t) =
  split_go (nl ++ nl) 0 (10%N :: cur) (60%N :: t).
Proof. reflexivity. Qed.

(** The rendering of plain paragraphs has no blank line: [split] finds
    one piece. *)
Lemma split_p_blocks : forall ps cur,
  ps <> [] -> Forall (fun x => plain_paragraph x = true) ps ->
  split_go (nl ++ nl) 0 cur (join nl (map p_block ps)) =
  [rev cur ++ join nl (map p_block ps)].
Proof.
  induction ps as [| x ps IH]; intros cur Hne HF; [contradiction |].
  inversion HF as [| ? ? Hx HF']; subst.
  destruct ps as [| y ps].
  - cbn [map join]. rewrite <- (app_nil_r (p_block x)) at 1.
    change (nl ++ nl) with (10%N :: [10%N]).
    rewrite split_go_plain by (apply p_block_no_newline; exact Hx).
    cbn [split_go]. rewrite rev_app_distr, rev_involutive. reflexivity.
  - cbn [map]. rewrite join_cons.
    change (nl ++ nl) with (10%N :: [10%N]) at 1.
    rewrite split_go_plain by (apply p_block_no_newline; exact Hx).
    change (10%N :: [10%N]) with (nl ++ nl).
    set (tl := join nl (p_block y :: map p_block ps)).
    assert (Etl : exists t, tl = 60%N :: t).
    { unfold tl. destruct (map p_block ps); eexists; reflexivity. }
    destruct Etl as (t & Et).
    assert (IH' := IH (10%N :: rev (p_block x) ++ cur)
                      ltac:(discriminate) HF').
    cbn [map] in IH'. fold tl in IH'.
    change (nl ++ tl) with (10%N :: tl). rewrite Et.
    rewrite split_go_single_newline, <- Et, IH'.
    cbn [rev]. rewrite rev_app_distr, rev_involutive, <- !app_assoc.
    reflexivity.
Qed.

Lemma last_app_cons (a : list N) b c d : last (a ++ b :: c) d = last (b :: c) d.
Proof.
  induction a as [| x a IH]; [reflexivity |].
  cbn [app]. rewrite <- IH. destruct (a ++ b :: c) eqn:E; [| reflexivity].
  destruct a; discriminate.
Qed.

Lemma p_block_head x : p_block x = 60%N :: 112%N :: 62%N :: x ++ lit "</p>".
Proof. reflexivity. Qed.

Lemma p_block_last x : last (p_block x) 0%N = 62%N.
Proof.
  unfold p_block. rewrite app_assoc.
  change (lit "</p>") with (lit "</p" ++ [62%N]).
  rewrite app_assoc. apply last_last.
Qed.

(** The rendering of paragraphs starts with [<p>] and ends with [>]. *)
Lemma p_blocks_shape : forall ps x,
  (exists t, join nl (map p_block (x :: ps)) = 60%N :: 112%N :: 62%N :: t) /\
  last (join nl (map p_block (x :: ps))) 0%N = 62%N.
Proof.
  induction ps as [| y ps IH]; intros x.
  - cbn [map join]. split; [| apply p_block_last].
    eexists. apply p_block_head.
  - cbn [map]. rewrite join_cons. split.
    + rewrite p_block_head. eexists. reflexivity.
    + destruct (IH y) as [(t & Et) Hl]. cbn [map] in Et, Hl.
      rewrite app_assoc, Et, last_app_cons, <- Et. exact Hl.
Qed.

(** The paragraph pass does not know [<p>]: it wraps a rendering of
    paragraphs once more. *)
Lemma paragraph_p_blocks ps :
  ps <> [] ->
  paragraph (join nl (map p_block ps)) = p_block (join nl (map p_block ps)).
Proof.
  intros Hne. destruct ps as [| x ps]; [contradiction |].
  destruct (p_blocks_shape ps x) as [(t & Et) Hl].
  unfold paragraph. rewrite trim_id.
  - rewrite Et. reflexivity.
  - rewrite Et. eexists _, _. split; reflexivity.
  - rewrite Hl. reflexivity.
Qed.

Lemma p_block_longer x : p_block x <> x.
Proof.
  intros E. apply (f_equal (@length N)) in E. unfold p_block in E.
  rewrite !length_app in E. cbn in E. lia.
Qed.

(** C3 (as the code has it): on a text of plain paragraphs with blank
    lines between them the block logic yields one [<p>] block for each
    paragraph; applied to its own output it yields one block, the whole
    first rendering wrapped in one more [<p>]: the guard of the paragraph
    pass lists [<h], [<ul], [<ol], [<li] and [<table], not [<p], and the
    blocks were joined with one newline, so that no blank line is left to
    split at.  The blocks of the second rendering are never those of the
    first. *)
Theorem C3_rerender_wraps_again (ps : list jsstring) :
  ps <> [] ->
  Forall (fun x => plain_paragraph x = true) ps ->
  render_blocks (join (nl ++ nl) ps) = map p_block ps /\
  renderMarkdown (join (nl ++ nl) ps) = join nl (map p_block ps) /\
  render_blocks (renderMarkdown (join (nl ++ nl) ps)) =
    [p_block (renderMarkdown (join (nl ++ nl) ps))] /\
  renderMarkdown (renderMarkdown (join (nl ++ nl) ps)) =
    p_block (renderMarkdown (join (nl ++ nl) ps)) /\
  render_blocks (renderMarkdown (join (nl ++ nl) ps)) <>
    render_blocks (join (nl ++ nl) ps).
Proof.
  intros Hne HF.
  assert (H1 : render_blocks (join (nl ++ nl) ps) = map p_block ps).
  { unfold render_blocks. rewrite inline_passes_plain.
    - apply blocks_plain; assumption.
    - apply paragraphs_free; [assumption | assumption | discriminate]. }
  assert (H2 : renderMarkdown (join (nl ++ nl) ps) = join nl (map p_block ps)).
  { unfold renderMarkdown. rewrite H1. reflexivity. }
  assert (H3 : render_blocks (join nl (map p_block ps)) =
               [p_block (join nl (map p_block ps))]).
  { unfold render_blocks. rewrite inline_passes_plain
      by (apply p_blocks_free; exact HF).
    unfold blocks, split. rewrite split_p_blocks by assumption.
    cbn [rev app map]. rewrite paragraph_p_blocks by assumption.
    reflexivity. }
  rewrite H2, H1. repeat split; try assumption.
  - unfold renderMarkdown. rewrite H3. reflexivity.
  - rewrite H3. destruct ps as [| x [| y ps]]; [contradiction | | discriminate].
    cbn [map join]. intros E. injection E as E.
    exact (p_block_longer _ E).
Qed.

(** C3, counterexample: the paragraphs [a] and [b] are rendered as two
    blocks; the rendering of that rendering is one block. *)
Lemma C3_two_paragraphs_rerendered :
  render_blocks two_paragraphs = [lit "<p>a</p>"; lit "<p>b</p>"] /\
  render_blocks (renderMarkdown two_paragraphs) =
    [lit "<p><p>a</p>" ++ nl ++ lit "<p>b</p></p>"] /\
  length (render_blocks two_paragraphs) = 2 /\
  length (render_blocks (renderMarkdown two_paragraphs)) = 1.
Proof. vm_compute. repeat split. Qed.

Lemma C3_rerender_wraps_again_witness :
  Forall (fun x => plain_paragraph x = true) [lit "a"; lit "b"] /\
  render_blocks (renderMarkdown (join (nl ++ nl) [lit "a"; lit "b"])) =
    [p_block (renderMarkdown (join (nl ++ nl) [lit "a"; lit "b"]))].
Proof.
  assert (HF : Forall (fun x => plain_paragraph x = true) [lit "a"; lit "b"])
    by (repeat constructor).
  assert (Hne : [lit "a"; lit "b"] <> []) by discriminate.
  destruct (C3_rerender_wraps_again [lit "a"; lit "b"] Hne HF)
    as (_ & _ & H & _).
  exact (conj HF H).
Defined.

End MarkdownFacts.

(* ------------------------------------------------------------------ *)
(** ** What the popover shows *)

Module TooltipStateFacts.
Import JS Positioner Tooltip TooltipStates TooltipFacts.

Lemma or_default_nonempty a b : b <> [] -> or_default a b <> [].
Proof. intros Hb. destruct a as [[| c s] |]; cbn; (exact Hb || discriminate). Qed.

Lemma or_default_some c s b : or_default (Some (c :: s)) b = c :: s.
Proof. reflexivity. Qed.

(** [cancelHideTimer] touches the timer only. *)
Lemma cancel_view st :
  visible (cancelHideTimer st) = visible st /\
  pinned (cancelHideTimer st) = pinned st /\
  currentSourceId (cancelHideTimer st) = currentSourceId st /\
  currentSectionKey (cancelHideTimer st) = currentSectionKey st /\
  tooltipPage (cancelHideTimer st) = tooltipPage st /\
  tooltipTitle (cancelHideTimer st) = tooltipTitle st /\
  tooltipContent (cancelHideTimer st) = tooltipContent st /\
  style_left (cancelHideTimer st) = style_left st /\
  style_top (cancelHideTimer st) = style_top st.
Proof. unfold cancelHideTimer. destruct (hideTimeout st); cbn; auto 10. Qed.

Lemma elapse_nothing_due ms st :
  filter (fun tm => (snd tm <=? now st + ms)%N) (timers st) = [] ->
  visible (elapse ms st) = visible st /\
  currentSourceId (elapse ms st) = currentSourceId st /\
  currentSectionKey (elapse ms st) = currentSectionKey st /\
  tooltipPage (elapse ms st) = tooltipPage st /\
  tooltipTitle (elapse ms st) = tooltipTitle st /\
  tooltipContent (elapse ms st) = tooltipContent st.
Proof. intros H. unfold elapse. rewrite H. cbn. auto 10. Qed.

Lemma elapse_still_visible ms st :
  visible (elapse ms st) = true ->
  filter (fun tm => (snd tm <=? now st + ms)%N) (timers st) = [].
Proof.
  intros H. destruct (elapse_fields ms st) as (_ & _ & _ & Hv).
  rewrite Hv in H. destruct (filter _ (timers st)); [reflexivity | discriminate].
Qed.

(** What [showTooltip] does for a source that resolves. *)
Lemma show_resolved sd target tr w st source :
  lookupSource sd (data_section target) (data_source_id target) = Some source ->
  let st' := showTooltip sd target tr w st in
  visible st' = true /\ pinned st' = pinned st /\ texts_of source st' /\
  currentSourceId st' = Some (data_source_id target) /\
  currentSectionKey st' = Some (data_section target) /\
  (style_left st', style_top st') =
    positionTooltipNear (bounding target) tr w /\
  console st' =
    console st ++ [LogShowing (data_source_id target) (data_section target)].
Proof.
  intros Hl. unfold showTooltip. rewrite Hl.
  destruct (positionTooltipNear (bounding target) tr w) as [x y].
  cbn. destruct (cancel_view st) as (_ & Hp & _).
  repeat split; try reflexivity; try exact Hp.
  unfold cancelHideTimer. destruct (hideTimeout st); reflexivity.
Qed.

Lemma texts_filled source st : texts_of source st -> filled st.
Proof.
  intros (Hp & Ht & Hc). unfold filled. rewrite Hp, Ht, Hc.
  repeat split; apply or_default_nonempty; discriminate.
Qed.

Lemma showing_step sd ev st :
  (visible st = true -> showing st) ->
  visible (handle sd ev st) = true -> showing (handle sd ev st).
Proof.
  intros IH. pose proof (cancel_view st) as (Cv & _ & Cs & Ck & Cp & Ct & Cc & _).
  destruct ev as [target tr w | | | | [| |] | ms]; cbn [handle documentClick].
  - destruct (lookupSource sd (data_section target) (data_source_id target))
      as [source |] eqn:Hl.
    + intros _. destruct (show_resolved sd target tr w st source Hl)
        as (_ & _ & Ht & Hs & Hk & _).
      split; [exact (texts_filled _ _ Ht) |].
      rewrite Hs, Hk. split; discriminate.
    + unfold showTooltip. rewrite Hl. cbn. rewrite Cv. intros Hv.
      destruct (IH Hv) as ((F1 & F2 & F3) & _).
      unfold showing, filled. cbn. rewrite Cp, Ct, Cc.
      repeat split; (assumption || discriminate).
  - unfold startHideTimer. destruct (pinned st); [exact IH |]. cbn. exact IH.
  - unfold showing, filled. rewrite Cv, Cs, Ck, Cp, Ct, Cc. exact IH.
  - unfold startHideTimer. destruct (pinned st); [exact IH |]. cbn. exact IH.
  - unfold pinTooltip, showing, filled. cbn. rewrite Cv, Cs, Ck, Cp, Ct, Cc.
    exact IH.
  - exact IH.
  - cbn. discriminate.
  - intros Hv. pose proof (elapse_still_visible ms st Hv) as Hd.
    destruct (elapse_nothing_due ms st Hd) as (E1 & E2 & E3 & E4 & E5 & E6).
    unfold showing, filled. rewrite E2, E3, E4, E5, E6. apply IH.
    rewrite <- E1. exact Hv.
Qed.

Lemma showing_run sd : forall evs st,
  (visible st = true -> showing st) ->
  visible (run sd evs st) = true -> showing (run sd evs st).
Proof.
  induction evs as [| ev evs IH]; intros st Hst; [exact Hst |].
  cbn [run fold_left]. apply (IH (handle sd ev st)).
  apply showing_step. exact Hst.
Qed.

(** X4: whatever events the listeners receive, in whatever order, a
    visible popover is never blank: page, title and content hold text
    (the source's, or the fallbacks [Source], [Annual Report] and
    [No preview available] for a field that is missing or empty), and
    [currentSourceId] and [currentSectionKey] are set. *)
Theorem visible_popover_is_filled (sd : SectionTable) (evs : list Event) :
  visible (run sd evs initial) = true ->
  tooltipPage (run sd evs initial) <> [] /\
  tooltipTitle (run sd evs initial) <> [] /\
  tooltipContent (run sd evs initial) <> [] /\
  currentSourceId (run sd evs initial) <> None /\
  currentSectionKey (run sd evs initial) <> None.
Proof.
  intros Hv.
  destruct (showing_run sd evs initial) as ((F1 & F2 & F3) & Hs & Hk);
    [discriminate | exact Hv |]. auto.
Qed.

Lemma visible_popover_is_filled_witness :
  visible (run two_sections
             [CitationEnter metrics_citation small_tooltip roomy_window;
              CitationLeave; Elapse 100] initial) = true /\
  tooltipPage (run two_sections
             [CitationEnter metrics_citation small_tooltip roomy_window;
              CitationLeave; Elapse 100] initial) <> [].
Proof.
  assert (Hv : visible (run two_sections
             [CitationEnter metrics_citation small_tooltip roomy_window;
              CitationLeave; Elapse 100] initial) = true) by reflexivity.
  split; [exact Hv |].
  exact (proj1 (visible_popover_is_filled two_sections _ Hv)).
Defined.

#[local] Arguments elapse : simpl never.
#[local] Arguments startHideTimer : simpl never.
#[local] Arguments cancelHideTimer : simpl never.
#[local] Arguments showTooltip : simpl never.

Lemma leave_then_wait_tracked ms st :
  timers st = [] ->
  tracked (elapse ms (startHideTimer st)) /\
  pinned (elapse ms (startHideTimer st)) = pinned st.
Proof.
  intros Ht. destruct (elapse_fields ms (startHideTimer st))
    as (Hp & Hh & Htm & _).
  destruct (pinned st) eqn:Hpin.
  - unfold startHideTimer in *. rewrite Hpin in *. rewrite Hp. split; [| exact Hpin].
    left. rewrite Htm, Ht. reflexivity.
  - destruct (start_unpinned st Hpin) as (S1 & S2 & _ & S4 & _).
    rewrite Hp, S4. split; [| reflexivity].
    rewrite S1, Ht in Htm. cbn [app filter] in Htm.
    destruct (negb _) in Htm.
    + right. exists (next_timer st), (now st + 300)%N.
      rewrite Hh, S2. auto.
    + left. exact Htm.
Qed.

(** X5: when no hide timer is pending and the pointer leaves a citation
    and, any time later, enters a citation whose source resolves, the
    popover ends up visible with the texts of that source (pinned if it
    was pinned), no timer is left pending, and no later expiry hides it:
    the timer the leave started has either run or is cancelled by the
    enter. *)
Theorem hover_moves_to_next_citation (sd : SectionTable) (st : State)
    (target : Citation) (tr : DOMRect) (w : Window) (source : Source)
    (ms : N) :
  timers st = [] ->
  lookupSource sd (data_section target) (data_source_id target) = Some source ->
  let st' := run sd [CitationLeave; Elapse ms; CitationEnter target tr w] st in
  visible st' = true /\ pinned st' = pinned st /\
  timers st' = [] /\
  tooltipPage st' = or_default (page_number source) (lit "Source") /\
  tooltipTitle st' = or_default (title source) (lit "Annual Report") /\
  tooltipContent st' =
    or_default (raw_text source) (lit "No preview available") /\
  forall ms', visible (handle sd (Elapse ms') st') = true.
Proof.
  intros Ht Hl. cbn [run fold_left handle].
  destruct (leave_then_wait_tracked ms st Ht) as [Htr Hp].
  set (st2 := elapse ms (startHideTimer st)) in *.
  destruct (show_resolved sd target tr w st2 source Hl)
    as (Hv & Hp' & (T1 & T2 & T3) & _).
  cbn zeta in *.
  assert (Htm : timers (showTooltip sd target tr w st2) = []).
  { rewrite show_timers. apply cancel_tracked_timers. exact Htr. }
  repeat split; try assumption; [congruence |].
  intros ms'. destruct (elapse_idle ms' _ Htm) as (E & _). congruence.
Qed.

Lemma hover_moves_to_next_citation_witness :
  timers (run two_sections [enter_sample] initial) = [] /\
  tooltipContent
    (run two_sections
       [enter_sample; CitationLeave; Elapse 100;
        CitationEnter metrics_citation small_tooltip roomy_window] initial)
  = lit "Net income." /\
  tooltipPage
    (run two_sections
       [enter_sample; CitationLeave; Elapse 100;
        CitationEnter metrics_citation small_tooltip roomy_window] initial)
  = lit "Source".
Proof.
  assert (Ht : timers (run two_sections [enter_sample] initial) = [])
    by reflexivity.
  assert (Hl : lookupSource two_sections (data_section metrics_citation)
                 (data_source_id metrics_citation) = Some untitled_source)
    by reflexivity.
  destruct (hover_moves_to_next_citation two_sections
              (run two_sections [enter_sample] initial) metrics_citation
              small_tooltip roomy_window untitled_source 100 Ht Hl)
    as (_ & _ & _ & Hp & _ & Hc & _).
  exact (conj Ht (conj Hc Hp)).
Defined.

End TooltipStateFacts.

(* ------------------------------------------------------------------ *)
(** ** The results page *)

Module PageFacts.
Import JS Page.

Lemma toggle_twice el :
  aria_expanded el = bool_to_string (expanded el) ->
  toggleCollapse (toggleCollapse el) = el.
Proof.
  intros H. destruct el as [k i t b c e a]. cbn in H. subst a.
  destruct e; reflexivity.
Qed.

Lemma iter_toggle key title icon s : forall n,
  let el := Nat.iter n toggleCollapse (createCollapsibleSection key title icon s)
  in
  expanded el = Nat.even n /\
  aria_expanded el = bool_to_string (expanded el) /\
  dataset_section el = key /\
  header_badge el = header_badge (createCollapsibleSection key title icon s) /\
  content_innerHTML el =
    content_innerHTML (createCollapsibleSection key title icon s).
Proof.
  induction n as [| n IH]; [cbn; auto |].
  cbn zeta in *. rewrite Nat.even_succ, <- Nat.negb_even.
  change (Nat.iter (S n) toggleCollapse ?x)
    with (toggleCollapse (Nat.iter n toggleCollapse x)).
  destruct IH as (He & Ha & Hk & Hb & Hc).
  cbn [toggleCollapse expanded aria_expanded dataset_section header_badge
       content_innerHTML].
  rewrite He. auto.
Qed.

(** X1: a section is created expanded, with [aria-expanded] equal to
    [true]; after any number of clicks on its header the attribute is
    [true] or [false] as the content has the class [expanded] or not, the
    content is expanded exactly after an even number of clicks, and key,
    badge and body are as created. *)
Theorem collapse_state_in_step (key title icon : jsstring) (s : ApiSection)
    (n : nat) :
  let el0 := createCollapsibleSection key title icon s in
  let el := Nat.iter n toggleCollapse el0 in
  expanded el0 = true /\ aria_expanded el0 = lit "true" /\
  expanded el = Nat.even n /\
  aria_expanded el = (if expanded el then lit "true" else lit "false") /\
  dataset_section el = key /\
  header_badge el = header_badge el0 /\
  content_innerHTML el = content_innerHTML el0 /\
  toggleCollapse (toggleCollapse el) = el.
Proof.
  cbn zeta. destruct (iter_toggle key title icon s n) as (He & Ha & Hk & Hb & Hc).
  repeat split; try assumption.
  apply toggle_twice. exact Ha.
Qed.

Lemma displayed_keys_display name sections st :
  displayed_keys (displayResults name sections st) =
  map dataset_section (section_elements sections).
Proof. reflexivity. Qed.

Lemma badge_display name sections st :
  sectionCountBadge (results (displayResults name sections st)) =
  number_to_string (N.of_nat (length (filter not_null (map snd sections)))) ++
  lit " sections".
Proof. reflexivity. Qed.

(** What one entry of [sectionOrder] adds to the page. *)
Lemma section_elements_fields data :
  map dataset_section (section_elements (sections_of data)) =
  flat_map (fun kv => if truthy (snd kv) then [fst kv] else [])
           (sections_of data).
Proof.
  destruct data as [err o p l s m]. unfold section_elements, sections_of.
  cbn [overview products leadership stakeholders metrics sectionOrder
       flat_map].
  change (obj_get _ (lit "overview")) with (Some o).
  change (obj_get _ (lit "products")) with (Some p).
  change (obj_get _ (lit "leadership")) with (Some l).
  change (obj_get _ (lit "stakeholders")) with (Some s).
  change (obj_get _ (lit "metrics")) with (Some m).
  rewrite !map_app.
  f_equal; [destruct o; reflexivity |].
  f_equal; [destruct p; reflexivity |].
  f_equal; [destruct l; reflexivity |].
  f_equal; [destruct s; reflexivity |].
  f_equal. destruct m; reflexivity.
Qed.

Lemma shown_filter (kvs : obj Field) :
  flat_map (fun kv => if truthy (snd kv) then [fst kv] else []) kvs =
  map fst (filter (fun kv => truthy (snd kv)) kvs).
Proof.
  induction kvs as [| [k v] kvs IH]; [reflexivity |].
  cbn. destruct (truthy v); cbn; rewrite IH; reflexivity.
Qed.

Lemma shown_le_counted (kvs : obj Field) :
  (length (filter (fun kv => truthy (snd kv)) kvs) <=
   length (filter not_null (map snd kvs)))%nat /\
  (length (filter (fun kv => truthy (snd kv)) kvs) =
   length (filter not_null (map snd kvs)) <-> ~ In Missing (map snd kvs)).
Proof.
  induction kvs as [| [k v] kvs [IH1 IH2]]; [cbn; intuition |].
  cbn [map snd filter In]. destruct v; cbn [truthy not_null length].
  - split; [lia |]. split; [lia | intros H; exfalso; apply H; auto].
  - split; [exact IH1 |]. split.
    + intros H [E | E]; [discriminate |]. apply IH2 in H. exact (H E).
    + intros H. apply IH2. intros E. apply H. right. exact E.
  - split; [lia |]. split.
    + intros H [E | E]; [discriminate |]. injection H as H.
      apply IH2 in H. exact (H E).
    + intros H. f_equal. apply IH2. intros E. apply H. right. exact E.
Qed.

(** X2: [displayResults] shows the sections of the response that are
    objects, in the order overview, products, leadership, stakeholders,
    metrics, whereas its badge counts the fields that are not [null]: the
    count is never below the number of sections shown, and equals it
    exactly when no field of the response is missing. *)
Theorem displayResults_sections (name : jsstring)
    (data : AnnualReportResponse) (st : PageState) :
  let st' := displayResults name (sections_of data) st in
  displayed_keys st' =
    map fst (filter (fun kv => truthy (snd kv)) (sections_of data)) /\
  sectionCountBadge (results st') =
    number_to_string (N.of_nat (length (filter not_null (fields data)))) ++
    lit " sections" /\
  (length (displayed_keys st') <= length (filter not_null (fields data)))%nat /\
  (length (displayed_keys st') = length (filter not_null (fields data)) <->
   ~ In Missing (fields data)) /\
  inputSection_display (results st') = lit "none" /\
  resultsSection_display (results st') = lit "block".
Proof.
  cbn zeta. rewrite displayed_keys_display, badge_display.
  rewrite section_elements_fields, shown_filter, length_map.
  unfold fields. destruct (shown_le_counted (sections_of data)) as [H1 H2].
  repeat split; try assumption; apply H2.
Qed.

(** X3: [runAnalysis] does nothing at all for a company name that is
    blank after trimming.  Otherwise it sends one request, with the
    trimmed name, to [/api/analyze-report-sequential], and whatever the
    request comes to the submit button is enabled again at the end; when
    the request fails (rejected, a status that is not ok, a body that does
    not parse, or a body with an [error]) one alert with the message is
    raised and neither [sectionData] nor the results view changes; when it
    succeeds [sectionData] holds the five sections of the response and the
    results view is the one [displayResults] builds for them. *)
Theorem runAnalysis_outcomes (value : jsstring) (chosen : option jsstring)
    (answer : FetchResult) (st : PageState) :
  (trim value = [] -> runAnalysis value chosen answer st = st) /\
  (trim value <> [] ->
   let st' := runAnalysis value chosen answer st in
   controls st' =
     {| submitBtn_disabled := false; btnText_display := lit "inline";
        btnLoader_display := lit "none" |} /\
   requests st' =
     requests st ++
     [{| url := lit "http://localhost:8000/api/analyze-report-sequential";
         company_name := trim value; file := chosen |}] /\
   match outcome answer with
   | inl message =>
       alerts st' = alerts st ++ [lit "Analysis failed: " ++ message] /\
       sectionData st' = sectionData st /\ results st' = results st
   | inr data =>
       alerts st' = alerts st /\ sectionData st' = sections_of data /\
       results st' =
         results (displayResults (trim value) (sections_of data) st)
   end).
Proof.
  unfold runAnalysis. split.
  - intros ->. reflexivity.
  - intros Hne. destruct (trim value) as [| c name]; [contradiction |].
    cbn zeta.
    destruct answer as [message | [|] status [message | data]];
      try (destruct chosen; cbn; repeat split; reflexivity).
    cbn [outcome negb]. destruct (error data) as [[| e message] |];
      destruct chosen; cbn; repeat split; reflexivity.
Qed.

Lemma runAnalysis_outcomes_witness :
  trim (lit " Acme ") <> [] /\
  outcome (Responded false 503 (Unparsable [])) = inl (lit "API error: 503") /\
  alerts (runAnalysis (lit " Acme ") None
            (Responded false 503 (Unparsable []))
            {| controls := {| submitBtn_disabled := false;
                              btnText_display := lit "inline";
                              btnLoader_display := lit "none" |};
               results := {| resultsTitle := []; sectionCountBadge := [];
                             sectionsContainer := [];
                             inputSection_display := lit "flex";
                             resultsSection_display := lit "none" |};
               sectionData := []; requests := []; alerts := [];
               page_console := [] |})
  = [lit "Analysis failed: API error: 503"].
Proof.
  assert (Hne : trim (lit " Acme ") <> []) by (vm_compute; discriminate).
  split; [exact Hne |]. split; [reflexivity |].
  destruct (runAnalysis_outcomes (lit " Acme ") None
              (Responded false 503 (Unparsable []))
              {| controls := {| submitBtn_disabled := false;
                                btnText_display := lit "inline";
                                btnLoader_display := lit "none" |};
                 results := {| resultsTitle := []; sectionCountBadge := [];
                               sectionsContainer := [];
                               inputSection_display := lit "flex";
                               resultsSection_display := lit "none" |};
                 sectionData := []; requests := []; alerts := [];
                 page_console := [] |}) as [_ H].
  destruct (H Hne) as (_ & _ & Ha & _). exact Ha.
Defined.

Lemma displayResults_sections_witness :
  displayed_keys (displayResults (lit "Acme") (sections_of sample_response)
                    blank_page) = [lit "overview"; lit "metrics"] /\
  sectionCountBadge
    (results (displayResults (lit "Acme") (sections_of sample_response)
                blank_page)) = lit "4 sections".
Proof.
  destruct (displayResults_sections (lit "Acme") sample_response blank_page)
    as (Hk & Hb & _).
  exact (conj Hk Hb).
Defined.

(** *** Placeholders of the sections on display *)

Lemma sectionOrder_keys :
  map (fun kti => fst (fst kti)) sectionOrder = Markdown.section_keys.
Proof. reflexivity. Qed.

Lemma sectionOrder_key_ok key title icon :
  In (key, title, icon) sectionOrder -> Markdown.key_ok key.
Proof.
  intros Hin. pose proof MarkdownFacts.section_keys_ok as Hok.
  rewrite Forall_forall in Hok. apply Hok. rewrite <- sectionOrder_keys.
  apply (in_map (fun kti => fst (fst kti))) in Hin. exact Hin.
Qed.

(** The placeholder of a marker stands in the rendering of the parser's
    output. *)
Lemma span_survives {Sources : Type} content (sources : Sources) key i id n :
  Markdown.key_ok key ->
  nth_error (Citations.marker_ids content) i = Some id ->
  nth_error (Citations.display_numbers content) i = Some n ->
  contains (Citations.citation_span id key n)
    (Markdown.renderMarkdown (Citations.processCitationTags content sources key)).
Proof.
  intros Hk Hid Hn.
  pose proof (MarkdownFacts.marker_ids_digits _ _
                (CitationFacts.scan_marker_scanned content)) as Hd.
  rewrite Forall_forall in Hd.
  destruct (Hd id (nth_error_In _ _ Hid)) as (ds & Hds & ->).
  apply MarkdownFacts.renderMarkdown_keeps.
  - apply MarkdownFacts.citation_span_protected; assumption.
  - unfold Citations.processCitationTags. rewrite CitationFacts.run_spec.
    cbn [snd]. apply (MarkdownFacts.render_contains_span key _ _ i); assumption.
Qed.

(** Where an element of the results view comes from. *)
Lemma section_elements_inv sections el :
  In el (section_elements sections) ->
  exists title icon s,
    In (dataset_section el, title, icon) sectionOrder /\
    obj_get sections (dataset_section el) = Some (Present s) /\
    el = createCollapsibleSection (dataset_section el) title icon s.
Proof.
  unfold section_elements. intros Hin. apply in_flat_map in Hin.
  destruct Hin as ([[key title] icon] & Hord & Hel).
  destruct (obj_get sections key) as [[| | s] |] eqn:Hget;
    try contradiction.
  destruct Hel as [<- | []]. exists title, icon, s.
  cbn [dataset_section createCollapsibleSection]. auto.
Qed.

(** X6: every section on display comes from an entry of [sectionOrder]
    and the section object the response has under its key, and for every
    well-formed marker of the section's cited text its body holds the
    placeholder with the marker's source id, the display number of the
    marker within this section, and the section's own key as
    [data-section]. *)
Theorem displayed_section_placeholders (name : jsstring)
    (data : AnnualReportResponse) (st : PageState) (el : SectionElement) :
  In el (sectionsContainer
           (results (displayResults name (sections_of data) st))) ->
  exists title icon s,
    In (dataset_section el, title, icon) sectionOrder /\
    obj_get (sections_of data) (dataset_section el) = Some (Present s) /\
    el = createCollapsibleSection (dataset_section el) title icon s /\
    forall i id n,
      nth_error (Citations.marker_ids (cited_text_of s)) i = Some id ->
      nth_error (Citations.display_numbers (cited_text_of s)) i = Some n ->
      contains (Citations.citation_span id (dataset_section el) n)
               (content_innerHTML el).
Proof.
  intros Hin. apply section_elements_inv in Hin.
  destruct Hin as (title & icon & s & Hord & Hget & Hel).
  exists title, icon, s. repeat split; try assumption.
  intros i id n Hid Hn. rewrite Hel at 2.
  cbn [content_innerHTML createCollapsibleSection].
  apply KeepFacts.contains_app_r, KeepFacts.contains_app_r,
    KeepFacts.contains_app_r, KeepFacts.contains_app_l.
  apply (span_survives _ _ _ i); try assumption.
  exact (sectionOrder_key_ok _ _ _ Hord).
Qed.

Lemma displayed_section_placeholders_witness :
  contains
    (Citations.citation_span (lit "src_1") (lit "metrics") 1)
    (content_innerHTML
       (createCollapsibleSection (lit "metrics") (lit "Key Metrics")
          [55357; 56520]%N metrics_section)).
Proof.
  assert (Hin : In (createCollapsibleSection (lit "metrics")
                      (lit "Key Metrics") [55357; 56520]%N metrics_section)
                   (sectionsContainer
                      (results (displayResults (lit "Acme")
                                  (sections_of sample_response) blank_page)))).
  { right. left. reflexivity. }
  destruct (displayed_section_placeholders _ _ _ _ Hin)
    as (title & icon & s & _ & Hget & _ & H).
  injection Hget as <-.
  apply (H 0%nat (lit "src_1") 1%N); vm_compute; reflexivity.
Defined.

(** *** The tooltip of a section on display *)

Lemma obj_get_tooltip_table key : forall sections,
  obj_get (tooltip_table sections) key =
  match obj_get sections key with
  | Some (Present s) => Some (Some (section_data s))
  | Some _ => Some None
  | None => None
  end.
Proof.
  induction sections as [| [k v] sections IH]; [reflexivity |].
  cbn [tooltip_table map obj_get fst snd].
  destruct (jsstring_eqb k key); [destruct v; reflexivity | exact IH].
Qed.

Lemma lookup_own_source sections key s sourceId :
  obj_get sections key = Some (Present s) ->
  Tooltip.lookupSource (tooltip_table sections) key sourceId =
  own_source s sourceId.
Proof.
  intros Hget. unfold Tooltip.lookupSource, own_source, obj_read.
  rewrite obj_get_tooltip_table, Hget. reflexivity.
Qed.

(** X7: for a citation inside a section on display (its [data-section]
    is the section's key), [showTooltip] reads the sources of that
    section and of no other.  When they hold a non-null entry for the
    citation's source id the popover becomes visible with that source's
    page, title and text (or the fallbacks); when they hold no entry and
    the id names a member of [Object.prototype], the popover becomes
    visible with the three fallbacks; in every other case its visibility
    and content stay as they were and one warning is logged. *)
Theorem hover_in_displayed_section (name : jsstring)
    (data : AnnualReportResponse) (st : PageState) (el : SectionElement)
    (target : Tooltip.Citation) (tr : Positioner.DOMRect)
    (w : Positioner.Window) (tst : Tooltip.State) :
  In el (sectionsContainer
           (results (displayResults name (sections_of data) st))) ->
  Tooltip.data_section target = dataset_section el ->
  exists title icon s,
    obj_get (sections_of data) (dataset_section el) = Some (Present s) /\
    el = createCollapsibleSection (dataset_section el) title icon s /\
    let tst' :=
      Tooltip.showTooltip (tooltip_table (sections_of data)) target tr w tst in
    let entry :=
      match Tooltip.sources (section_data s) with
      | Some srcs => obj_get srcs (Tooltip.data_source_id target)
      | None => Some None
      end in
    match entry with
    | Some (Some source) =>
        Tooltip.visible tst' = true /\ TooltipStates.texts_of source tst'
    | None =>
        if inherited (Tooltip.data_source_id target)
        then Tooltip.visible tst' = true /\
             Tooltip.tooltipPage tst' = lit "Source" /\
             Tooltip.tooltipTitle tst' = lit "Annual Report" /\
             Tooltip.tooltipContent tst' = lit "No preview available"
        else unchanged_with_warning tst tst' target
    | Some None => unchanged_with_warning tst tst' target
    end.
Proof.
  intros Hin Hkey. apply section_elements_inv in Hin.
  destruct Hin as (title & icon & s & _ & Hget & Hel).
  exists title, icon, s. split; [exact Hget |]. split; [exact Hel |].
  cbn zeta.
  pose proof (lookup_own_source _ _ _ (Tooltip.data_source_id target) Hget)
    as Hl.
  rewrite <- Hkey in Hl.
  assert (Hnone : own_source s (Tooltip.data_source_id target) = None ->
                  unchanged_with_warning tst
                    (Tooltip.showTooltip (tooltip_table (sections_of data))
                       target tr w tst) target).
  { intros Hn. rewrite Hn in Hl. unfold unchanged_with_warning.
    unfold Tooltip.showTooltip. rewrite Hl. cbn.
    unfold Tooltip.cancelHideTimer.
    destruct (Tooltip.hideTimeout tst); cbn; auto 10. }
  assert (Hsome : forall source,
            own_source s (Tooltip.data_source_id target) = Some source ->
            Tooltip.visible
              (Tooltip.showTooltip (tooltip_table (sections_of data))
                 target tr w tst) = true /\
            TooltipStates.texts_of source
              (Tooltip.showTooltip (tooltip_table (sections_of data))
                 target tr w tst)).
  { intros source Hs. rewrite Hs in Hl.
    destruct (TooltipStateFacts.show_resolved _ target tr w tst source Hl)
      as (Hv & _ & Ht & _).
    split; assumption. }
  unfold own_source, Tooltip.read_source, obj_read in Hnone, Hsome.
  destruct (Tooltip.sources (section_data s)) as [srcs |];
    [| apply Hnone; reflexivity].
  destruct (obj_get srcs (Tooltip.data_source_id target)) as [[source |] |].
  - apply Hsome. reflexivity.
  - apply Hnone. reflexivity.
  - destruct (inherited (Tooltip.data_source_id target));
      [| apply Hnone; reflexivity].
    destruct (Hsome _ eq_refl) as (Hv & Hp & Ht & Hc).
    repeat split; assumption.
Qed.

Lemma hover_in_displayed_section_witness :
  Tooltip.tooltipContent
    (Tooltip.showTooltip (tooltip_table (sections_of sample_response))
       TooltipStates.metrics_citation Positioner.small_tooltip
       Positioner.roomy_window Tooltip.initial) = lit "Net income.".
Proof.
  assert (Hin : In (createCollapsibleSection (lit "metrics")
                      (lit "Key Metrics") [55357; 56520]%N metrics_section)
                   (sectionsContainer
                      (results (displayResults (lit "Acme")
                                  (sections_of sample_response) blank_page)))).
  { right. left. reflexivity. }
  destruct (hover_in_displayed_section _ _ _ _
              TooltipStates.metrics_citation Positioner.small_tooltip
              Positioner.roomy_window Tooltip.initial Hin eq_refl)
    as (title & icon & s & Hget & _ & H).
  injection Hget as <-.
  destruct H as (_ & _ & _ & Hc). exact Hc.
Defined.

End PageFacts.

(* ------------------------------------------------------------------ *)
(** ** The earlier variants *)

Module VariantFacts.
Import JS Regex Citations Spans Markdown.
Import RegexFacts CitationFacts KeepFacts MarkdownFacts.

(** *** One numbering, three templates *)

Lemma replace_fold_spans span : forall segs st,
  replace_fold (on_marker_with span) st segs =
  (final_state st (ids_of segs),
   render_spans span segs (numbers_from st (ids_of segs))).
Proof.
  induction segs as [| [c | w cs] segs IH]; intros st; [reflexivity | |].
  - cbn [replace_fold ids_of flat_map app render_spans].
    change (flat_map _ segs) with (ids_of segs).
    rewrite IH. reflexivity.
  - cbn [replace_fold ids_of flat_map app render_spans].
    change (flat_map _ segs) with (ids_of segs).
    unfold on_marker_with. cbn [numbers_from final_state fold_left].
    destruct (assign st (source_id (group 1 cs))) as [st' n].
    rewrite IH. reflexivity.
Qed.

Lemma parse_with span content :
  snd (replace_fold (on_marker_with span) fresh (scan marker_re 0 None content))
  = render_spans span (scan marker_re 0 None content) (display_numbers content).
Proof. rewrite replace_fold_spans. reflexivity. Qed.

Lemma render_spans_gaps span nums : forall s,
  render_spans span (map Gap s) nums = s.
Proof. induction s as [| c s IH]; [reflexivity |]. cbn. rewrite IH. reflexivity. Qed.

(** X8: the three marker parsers ([processCitations] of the first
    script, and [processCitationTags] of the two others) replace the same
    markers and hand out the same display numbers; their outputs differ
    in the attributes of the placeholder only, and a text without a
    well-formed marker is returned unchanged by all three. *)
Theorem parsers_number_alike (content key : jsstring) :
  let segs := scan marker_re 0 None content in
  let nums := display_numbers content in
  Legacy.processCitations content =
    render_spans Legacy.citation_span segs nums /\
  Basic.processCitationTags content =
    render_spans Basic.citation_span segs nums /\
  processCitationTags content tt key =
    render_spans (fun id n => citation_span id key n) segs nums /\
  length nums = length (marker_ids content) /\
  (~ has_marker content ->
     Legacy.processCitations content = content /\
     Basic.processCitationTags content = content /\
     processCitationTags content tt key = content).
Proof.
  cbn zeta.
  assert (HL : Legacy.processCitations content =
               render_spans Legacy.citation_span (scan marker_re 0 None content)
                 (display_numbers content))
    by exact (parse_with Legacy.citation_span content).
  assert (HB : Basic.processCitationTags content =
               render_spans Basic.citation_span (scan marker_re 0 None content)
                 (display_numbers content))
    by exact (parse_with Basic.citation_span content).
  assert (HU : processCitationTags content tt key =
               render_spans (fun id n => citation_span id key n)
                 (scan marker_re 0 None content) (display_numbers content))
    by exact (parse_with (fun id n => citation_span id key n) content).
  repeat split; try assumption.
  - rewrite display_numbers_spec. apply length_map.
  - rewrite HL.
    rewrite (gaps_only _ _ (scan_marker_scanned content) H).
    apply render_spans_gaps.
  - rewrite HB.
    rewrite (gaps_only _ _ (scan_marker_scanned content) H).
    apply render_spans_gaps.
  - rewrite HU.
    rewrite (gaps_only _ _ (scan_marker_scanned content) H).
    apply render_spans_gaps.
Qed.

Lemma parsers_number_alike_witness :
  Legacy.processCitations three_markers =
    lit "a " ++ Legacy.citation_span (lit "src_5") 1 ++
    lit " b " ++ Legacy.citation_span (lit "src_2") 2 ++
    lit " c " ++ Legacy.citation_span (lit "src_5") 1 /\
  Basic.processCitationTags malformed_markers = malformed_markers.
Proof.
  destruct (parsers_number_alike three_markers []) as (HL & _).
  destruct (parsers_number_alike malformed_markers []) as (_ & _ & _ & _ & H).
  split.
  - rewrite HL. vm_compute. reflexivity.
  - apply H.
    apply (all_gaps_no_marker _ _ (scan_marker_scanned malformed_markers)).
    vm_compute. reflexivity.
Defined.

(** *** Placeholders in the earlier renderers *)

Lemma span_protected body :
  (exists t, body = 115%N :: t) ->
  Forall (fun c => inner_char c = true) body ->
  protected (60%N :: body ++ lit "</span>").
Proof.
  intros (t0 & Hs) Hb.
  assert (Hno : ~ In 60%N body).
  { intros Hin. rewrite Forall_forall in Hb.
    destruct (inner_char_spec _ (Hb _ Hin)) as (_ & _ & _ & H). auto. }
  constructor.
  - eexists. reflexivity.
  - exists (60%N :: body ++ lit "</span").
    cbn [app]. rewrite <- app_assoc. reflexivity.
  - constructor; [repeat split; discriminate |].
    apply Forall_app. split.
    + eapply Forall_impl; [| exact Hb]. intros c Hc.
      destruct (inner_char_spec c Hc) as (H1 & H2 & H3 & _). auto.
    + repeat (constructor; [repeat split; discriminate |]). constructor.
  - intros a b E. destruct a as [| x a].
    + injection E as <-. left. exists (t0 ++ lit "</span>").
      rewrite Hs. reflexivity.
    + injection E as _ E.
      destruct (skip_prefix 60%N body (lit "</span>") a b E Hno)
        as (e & -> & E2).
      destruct e as [| y e].
      * injection E2 as <-. right. eexists. reflexivity.
      * exfalso. injection E2 as _ E2.
        assert (Hin : In 60%N (e ++ 60%N :: b))
          by (apply in_or_app; right; left; reflexivity).
        rewrite <- E2 in Hin.
        cbn in Hin. repeat (destruct Hin as [Hin | Hin]; [discriminate |]).
        exact Hin.
Qed.

Lemma legacy_span_protected ds n :
  Forall (fun c => is_digit c = true) ds ->
  protected (Legacy.citation_span (source_id ds) n).
Proof.
  intros Hd.
  assert (E : Legacy.citation_span (source_id ds) n =
              60%N :: Legacy.span_body (source_id ds) n ++ lit "</span>").
  { unfold Legacy.citation_span, Legacy.span_body, quoted.
    change (lit "<span class=") with (60%N :: lit "span class=").
    cbn [app]. f_equal.
    repeat (rewrite <- app_assoc; cbn [app]). reflexivity. }
  rewrite E. apply span_protected; [eexists; reflexivity |].
  unfold Legacy.span_body, quoted, source_id.
  repeat first
    [ apply Forall_app; split
    | apply Forall_cons; [reflexivity |]
    | apply Forall_nil
    | apply number_inner
    | exact (Forall_impl _ digit_inner Hd) ].
Qed.

Lemma basic_span_protected ds n :
  Forall (fun c => is_digit c = true) ds ->
  protected (Basic.citation_span (source_id ds) n).
Proof.
  intros Hd.
  assert (E : Basic.citation_span (source_id ds) n =
              60%N :: Basic.span_body (source_id ds) n ++ lit "</span>").
  { unfold Basic.citation_span, Basic.span_body, quoted.
    change (lit "<span class=") with (60%N :: lit "span class=").
    cbn [app]. f_equal.
    repeat (rewrite <- app_assoc; cbn [app]). reflexivity. }
  rewrite E. apply span_protected; [eexists; reflexivity |].
  unfold Basic.span_body, quoted, source_id.
  repeat first
    [ apply Forall_app; split
    | apply Forall_cons; [reflexivity |]
    | apply Forall_nil
    | apply number_inner
    | exact (Forall_impl _ digit_inner Hd) ].
Qed.

Lemma render_spans_contains span : forall segs nums i id n,
  nth_error (ids_of segs) i = Some id ->
  nth_error nums i = Some n ->
  contains (span id n) (render_spans span segs nums).
Proof.
  induction segs as [| [c | w cs] segs IH]; intros nums i id n Hid Hn.
  - destruct i; discriminate.
  - cbn [render_spans]. apply contains_cons. apply (IH nums i); assumption.
  - cbn [ids_of flat_map app] in Hid.
    change (flat_map _ segs) with (ids_of segs) in Hid.
    destruct nums as [| n0 nums]; [destruct i; discriminate |].
    cbn [render_spans]. destruct i as [| i].
    + injection Hid as <-. injection Hn as <-.
      apply contains_app_l, contains_refl.
    + apply contains_app_r. apply (IH nums i); assumption.
Qed.

(** The paragraph pass of either script keeps a protected string. *)
Lemma join_blocks_keep (f : jsstring -> jsstring) p html :
  protected p ->
  (forall x, contains p x -> contains p (f x)) ->
  contains p html ->
  contains p (join nl (map f (split (nl ++ nl) html))).
Proof.
  intros Hp Hf Hc.
  rewrite <- (join_split (nl ++ nl) html) in Hc by discriminate.
  apply contains_join_inv in Hc;
    [| apply prot_nonempty; exact Hp | discriminate |].
  - destruct Hc as (x & Hin & Hx).
    apply (contains_join p nl (f x)).
    + apply in_map. exact Hin.
    + apply Hf. exact Hx.
  - intros c [<- | [<- | []]]; apply prot_no_nl; exact Hp.
Qed.

Lemma legacy_paragraph_keeps p x :
  contains p x -> contains p (Legacy.paragraph x).
Proof.
  intros Hc. unfold Legacy.paragraph. destruct (_ || _); [exact Hc |].
  apply contains_app_r, contains_app_l. exact Hc.
Qed.

Lemma basic_paragraph_keeps p x :
  protected p -> contains p x -> contains p (Basic.paragraph x).
Proof.
  intros Hp Hc.
  apply (trim_keeps p _ (prot_head p Hp) (prot_last p Hp)) in Hc.
  unfold Basic.paragraph. destruct (trim x) as [| c t] eqn:E.
  - destruct Hc as (a & b & Eab). exfalso.
    destruct a; [| discriminate].
    destruct p; [exact (prot_nonempty _ Hp eq_refl) | discriminate].
  - destruct (_ || _); [exact Hc |].
    apply contains_app_r, contains_app_l. exact Hc.
Qed.

Lemma renderContent_keeps p content :
  protected p -> contains p content ->
  contains p (Legacy.renderContent content).
Proof.
  intros Hp Hc. unfold Legacy.renderContent.
  apply join_blocks_keep; [exact Hp | apply legacy_paragraph_keeps |].
  unfold Legacy.inline_passes.
  apply list_run_keeps; [exact Hp |].
  apply wrap_keeps; [apply bullet_wrap_shape | exact Hp |].
  apply wrap_keeps; [apply bold_wrap_shape | exact Hp |].
  apply wrap_keeps; [apply heading_wrap_shape | exact Hp |].
  { discriminate. } { cbn. intros [H | []]. discriminate. }
  apply wrap_keeps; [apply heading_wrap_shape | exact Hp |].
  { discriminate. } { cbn. intros [H | [H | []]]; discriminate. }
  apply wrap_keeps; [apply heading_wrap_shape | exact Hp |].
  { discriminate. } { cbn. intros [H | [H | [H | []]]]; discriminate. }
  exact Hc.
Qed.

Lemma basic_renderMarkdown_keeps p content :
  protected p -> contains p content ->
  contains p (Basic.renderMarkdown content).
Proof.
  intros Hp Hc. unfold Basic.renderMarkdown.
  apply join_blocks_keep;
    [exact Hp | intros x; apply basic_paragraph_keeps; exact Hp |].
  unfold Basic.inline_passes.
  apply wrap_keeps; [apply numbered_wrap_shape | exact Hp |].
  apply list_run_keeps; [exact Hp |].
  apply wrap_keeps; [apply bullet_wrap_shape | exact Hp |].
  apply wrap_keeps; [apply italic_wrap_shape | exact Hp |].
  apply wrap_keeps; [apply bold_wrap_shape | exact Hp |].
  apply wrap_keeps; [apply heading_wrap_shape | exact Hp |].
  { discriminate. } { cbn. intros [H | []]. discriminate. }
  apply wrap_keeps; [apply heading_wrap_shape | exact Hp |].
  { discriminate. } { cbn. intros [H | [H | []]]; discriminate. }
  apply wrap_keeps; [apply heading_wrap_shape | exact Hp |].
  { discriminate. } { cbn. intros [H | [H | [H | []]]]; discriminate. }
  exact Hc.
Qed.

(** X9: in the two earlier scripts as well, the placeholder written for
    a well-formed marker (source id and display number as attributes or
    text) stands unchanged in the rendering of the parser's output,
    whatever markup surrounds the marker. *)
Theorem earlier_scripts_keep_placeholders (content : jsstring) (i : nat)
    (id : jsstring) (n : N) :
  nth_error (marker_ids content) i = Some id ->
  nth_error (display_numbers content) i = Some n ->
  contains (Legacy.citation_span id n)
    (Legacy.renderContent (Legacy.processCitations content)) /\
  contains (Basic.citation_span id n)
    (Basic.renderMarkdown (Basic.processCitationTags content)).
Proof.
  intros Hid Hn.
  pose proof (marker_ids_digits _ _ (scan_marker_scanned content)) as Hd.
  rewrite Forall_forall in Hd.
  destruct (Hd id (nth_error_In _ _ Hid)) as (ds & Hds & ->).
  split.
  - apply renderContent_keeps; [apply legacy_span_protected; exact Hds |].
    unfold Legacy.processCitations.
    rewrite (parse_with Legacy.citation_span).
    apply (render_spans_contains _ _ _ i); assumption.
  - apply basic_renderMarkdown_keeps;
      [apply basic_span_protected; exact Hds |].
    unfold Basic.processCitationTags.
    rewrite (parse_with Basic.citation_span).
    apply (render_spans_contains _ _ _ i); assumption.
Qed.

Lemma earlier_scripts_keep_placeholders_witness :
  contains (Legacy.citation_span (lit "src_1") 1)
    (Legacy.renderContent (Legacy.processCitations bold_marker)) /\
  Legacy.renderContent (Legacy.processCitations bold_marker) =
    lit "<p><strong>bold " ++ Legacy.citation_span (lit "src_1") 1 ++
    lit " text</strong></p>".
Proof.
  split.
  - apply (earlier_scripts_keep_placeholders bold_marker 0 (lit "src_1") 1);
      vm_compute; reflexivity.
  - vm_compute. reflexivity.
Defined.

(** *** Plain paragraphs in the three renderers *)

Lemma legacy_passes_plain s :
  markup_free None s = true -> Legacy.inline_passes s = s.
Proof.
  intros Hf. unfold Legacy.inline_passes.
  rewrite (silent_replace (heading_re (lit "###")) _ s)
    by (try apply heading_silent; try (eexists; reflexivity); exact Hf).
  rewrite (silent_replace (heading_re (lit "##")) _ s)
    by (try apply heading_silent; try (eexists; reflexivity); exact Hf).
  rewrite (silent_replace (heading_re (lit "#")) _ s)
    by (try apply heading_silent; try (eexists; reflexivity); exact Hf).
  rewrite (silent_replace bold_re _ s) by (try apply bold_silent; exact Hf).
  rewrite (silent_replace bullet_re _ s) by (try apply bullet_silent; exact Hf).
  apply silent_replace; [apply list_run_silent | exact Hf].
Qed.

Lemma basic_passes_plain s :
  markup_free None s = true -> Basic.inline_passes s = s.
Proof.
  intros Hf. unfold Basic.inline_passes.
  rewrite (silent_replace (heading_re (lit "###")) _ s)
    by (try apply heading_silent; try (eexists; reflexivity); exact Hf).
  rewrite (silent_replace (heading_re (lit "##")) _ s)
    by (try apply heading_silent; try (eexists; reflexivity); exact Hf).
  rewrite (silent_replace (heading_re (lit "#")) _ s)
    by (try apply heading_silent; try (eexists; reflexivity); exact Hf).
  rewrite (silent_replace bold_re _ s) by (try apply bold_silent; exact Hf).
  rewrite (silent_replace italic_re _ s) by (try apply italic_silent; exact Hf).
  rewrite (silent_replace bullet_re _ s) by (try apply bullet_silent; exact Hf).
  rewrite (silent_replace list_run_re _ s)
    by (try apply list_run_silent; exact Hf).
  apply silent_replace; [apply numbered_silent | exact Hf].
Qed.

Lemma plain_first_char x :
  plain_paragraph x = true -> exists c t, x = c :: t /\ c <> 60%N.
Proof.
  intros Hx. apply plain_paragraph_spec in Hx.
  destruct Hx as (c & t & -> & Hall & _).
  cbn in Hall. apply andb_true_iff in Hall. destruct Hall as [Hc _].
  apply plain_char_spec in Hc. destruct Hc as (_ & _ & _ & C4).
  exists c, t. auto.
Qed.

Lemma legacy_paragraph_plain x :
  plain_paragraph x = true -> Legacy.paragraph x = p_block x.
Proof.
  intros Hx. destruct (plain_first_char x Hx) as (c & t & -> & Hc).
  unfold Legacy.paragraph, startsWith.
  cbn [lit list_ascii_of_string map strip_prefix].
  change (N_of_ascii "<") with 60%N. unfold char_eqb.
  destruct (N.eqb_spec 60 c); [congruence |]. reflexivity.
Qed.

Lemma basic_paragraph_plain x :
  plain_paragraph x = true -> Basic.paragraph x = p_block x.
Proof.
  intros Hx. destruct (plain_first_char x Hx) as (c & t & E & Hc).
  pose proof (plain_paragraph_spec x Hx) as (c' & t' & E' & _ & _ & _ & Hws & Hl).
  unfold Basic.paragraph. rewrite trim_id by eauto. subst x.
  unfold startsWith. cbn [lit list_ascii_of_string map strip_prefix].
  change (N_of_ascii "<") with 60%N. unfold char_eqb.
  destruct (N.eqb_spec 60 c); [congruence |]. reflexivity.
Qed.

Lemma split_plain ps :
  ps <> [] -> Forall (fun x => plain_paragraph x = true) ps ->
  split (nl ++ nl) (join (nl ++ nl) ps) = ps.
Proof.
  intros Hne HF. change (nl ++ nl) with (10%N :: [10%N]).
  apply split_join; [exact Hne |].
  eapply Forall_impl; [| exact HF]. apply plain_no_newline.
Qed.

(** X10: a text of plain paragraphs separated by blank lines (one line
    each, without [*], [|] and [<], not starting with a digit, [#] or
    white space, not ending with white space) is rendered by all three
    renderers as the paragraphs, each between [<p>] and [</p>], joined
    with single newlines. *)
Theorem plain_paragraphs_render_alike (ps : list jsstring) :
  ps <> [] ->
  Forall (fun x => plain_paragraph x = true) ps ->
  Legacy.renderContent (join (nl ++ nl) ps) = join nl (map p_block ps) /\
  Basic.renderMarkdown (join (nl ++ nl) ps) = join nl (map p_block ps) /\
  renderMarkdown (join (nl ++ nl) ps) = join nl (map p_block ps).
Proof.
  intros Hne HF.
  assert (Hfree : markup_free None (join (nl ++ nl) ps) = true)
    by (apply paragraphs_free; [assumption | assumption | discriminate]).
  rewrite Forall_forall in HF.
  repeat split.
  - unfold Legacy.renderContent.
    rewrite legacy_passes_plain, split_plain
      by (assumption || (apply Forall_forall; assumption)).
    f_equal. apply map_ext_in. intros x Hx. apply legacy_paragraph_plain. auto.
  - unfold Basic.renderMarkdown.
    rewrite basic_passes_plain, split_plain
      by (assumption || (apply Forall_forall; assumption)).
    f_equal. apply map_ext_in. intros x Hx. apply basic_paragraph_plain. auto.
  - unfold renderMarkdown, render_blocks.
    rewrite inline_passes_plain by assumption.
    rewrite blocks_plain by (assumption || (apply Forall_forall; assumption)).
    reflexivity.
Qed.

Lemma plain_paragraphs_render_alike_witness :
  Forall (fun x => plain_paragraph x = true) [lit "Revenue grew."; lit "So did cost."] /\
  Legacy.renderContent (join (nl ++ nl) [lit "Revenue grew."; lit "So did cost."])
  = lit "<p>Revenue grew.</p>" ++ nl ++ lit "<p>So did cost.</p>".
Proof.
  assert (HF : Forall (fun x => plain_paragraph x = true)
                 [lit "Revenue grew."; lit "So did cost."])
    by (repeat constructor).
  split; [exact HF |].
  destruct (plain_paragraphs_render_alike
              [lit "Revenue grew."; lit "So did cost."]
              ltac:(discriminate) HF) as (H & _).
  exact H.
Defined.

(** *** The tooltip that follows the pointer *)

(** X11: the popover of the first script is placed 16 px right of and
    below the pointer, or, where that would cross the right or bottom
    margin of 16 px, 16 px left of or above it: it never covers the
    pointer, and it keeps the margin where it was not flipped.  Nothing
    keeps it inside the viewport after a flip: its left edge is off
    screen exactly when it was flipped with less than its width plus 16
    px left of the pointer (and likewise its top edge). *)
Theorem pointer_tooltip_placement (clientX clientY : Z)
    (tip : Positioner.DOMRect) (win : Positioner.Window) :
  (0 <= Positioner.width tip)%Z -> (0 <= Positioner.height tip)%Z ->
  (0 <= clientX)%Z -> (0 <= clientY)%Z ->
  let x := fst (Legacy.positionTooltip clientX clientY tip win) in
  let y := snd (Legacy.positionTooltip clientX clientY tip win) in
  let flipX := (clientX + 16 + Positioner.width tip >
                Positioner.innerWidth win - 16)%Z in
  let flipY := (clientY + 16 + Positioner.height tip >
                Positioner.innerHeight win - 16)%Z in
  ((~ flipX /\ x = clientX + 16 /\
    x + Positioner.width tip <= Positioner.innerWidth win - 16) \/
   (flipX /\ x + Positioner.width tip + 16 = clientX))%Z /\
  ((~ flipY /\ y = clientY + 16 /\
    y + Positioner.height tip <= Positioner.innerHeight win - 16) \/
   (flipY /\ y + Positioner.height tip + 16 = clientY))%Z /\
  ~ (x <= clientX <= x + Positioner.width tip)%Z /\
  ~ (y <= clientY <= y + Positioner.height tip)%Z /\
  (x < 0 <-> flipX /\ clientX < Positioner.width tip + 16)%Z /\
  (y < 0 <-> flipY /\ clientY < Positioner.height tip + 16)%Z.
Proof.
  intros Hw Hh Hx Hy. unfold Legacy.positionTooltip. cbn [fst snd].
  cbn zeta.
  destruct (Z.gtb_spec (clientX + 16 + Positioner.width tip)
                       (Positioner.innerWidth win - 16));
  destruct (Z.gtb_spec (clientY + 16 + Positioner.height tip)
                       (Positioner.innerHeight win - 16));
  repeat split; try lia.
Qed.

Lemma pointer_tooltip_placement_witness :
  Legacy.positionTooltip 100 700 Positioner.small_tooltip
    Positioner.roomy_window = (116, 484)%Z /\
  Legacy.positionTooltip 900 100 Positioner.wide_tooltip
    Positioner.narrow_window = (484, 116)%Z /\
  (fst (Legacy.positionTooltip 200 100 Positioner.wide_tooltip
          Positioner.narrow_window) < 0)%Z.
Proof.
  destruct (pointer_tooltip_placement 200 100 Positioner.wide_tooltip
              Positioner.narrow_window)
    as (_ & _ & _ & _ & H & _); try (cbn; lia).
  split; [reflexivity |]. split; [reflexivity |].
  apply H. cbn. lia.
Defined.

(** *** The tooltip text and the response of the one-text script *)

(** X12: the text the one-text script shows for a source is never empty
    and never longer than 403 code units: a raw text of at most 400 code
    units is shown as it is ([No preview available] when it is missing or
    empty), a longer one as its first 400 code units followed by three
    dots. *)
Theorem shown_text_bounded (source : Tooltip.Source) :
  let rawText :=
    or_default (Tooltip.raw_text source) (lit "No preview available") in
  Basic.shown_text source <> [] /\
  (length (Basic.shown_text source) <= 403)%nat /\
  ((length rawText <= 400)%nat -> Basic.shown_text source = rawText) /\
  ((400 < length rawText)%nat ->
     Basic.shown_text source = firstn 400 rawText ++ lit "..." /\
     length (Basic.shown_text source) = 403%nat) /\
  firstn 400 (Basic.shown_text source) = firstn 400 rawText.
Proof.
  cbn zeta. unfold Basic.shown_text.
  set (rawText := or_default (Tooltip.raw_text source)
                    (lit "No preview available")).
  assert (Hne : rawText <> [])
    by (apply TooltipStateFacts.or_default_nonempty; discriminate).
  destruct (Nat.ltb_spec 400 (length rawText)) as [Hlong | Hshort].
  - assert (Hlen : length (firstn 400 rawText ++ lit "...") = 403%nat).
    { rewrite length_app, firstn_length_le by lia. reflexivity. }
    repeat split; try lia.
    + intros E. rewrite E in Hlen. discriminate.
    + rewrite firstn_app, firstn_firstn, firstn_length_le by lia.
      rewrite Nat.min_id, Nat.sub_diag. cbn [firstn]. apply app_nil_r.
  - repeat split; try lia; try assumption.
Qed.

(** X13: what [runAnalysis] of the one-text script does with a parsed
    body.  A body with an error message is refused with that message and
    [sourcesData] and [citationsData] stay as they were.  Otherwise the
    two variables are replaced (by the empty object and the empty list for
    missing fields), and the text handed to [displayResults] is
    [cited_text], or [content] when [cited_text] is missing or empty; it
    is never empty: with neither, the error [No content received from
    analysis] is thrown.  The count handed over is the number of
    citations stored. *)
Theorem receive_outcomes (data : Basic.FinalResponse)
    (stored : Basic.Stored) :
  let stored' := fst (Basic.receive data stored) in
  let fresh_store :=
    {| Basic.sourcesData :=
         match Basic.sources data with Some o => o | None => [] end;
       Basic.citationsData :=
         match Basic.citations data with Some l => l | None => [] end |} in
  let text :=
    or_default (Basic.cited_text data) (or_default (Basic.content data) []) in
  (forall c message, Basic.error data = Some (c :: message) ->
     Basic.receive data stored = (stored, inl (c :: message))) /\
  (or_default (Basic.error data) [] = [] ->
     stored' = fresh_store /\
     (text = [] ->
        snd (Basic.receive data stored) =
        inl (lit "No content received from analysis")) /\
     (text <> [] ->
        snd (Basic.receive data stored) =
        inr (text, length (Basic.citationsData fresh_store)))) /\
  (forall shown count, snd (Basic.receive data stored) = inr (shown, count) ->
     shown <> [] /\ shown = text /\
     count = length (Basic.citationsData stored')).
Proof.
  cbn zeta. unfold Basic.receive.
  destruct (Basic.error data) as [[| e message] |]; cbn [or_default].
  - split; [intros; discriminate |].
    destruct (or_default (Basic.cited_text data) _) as [| c t] eqn:E;
      cbn [fst snd].
    + repeat split; auto; intros; try discriminate; try contradiction.
    + repeat split; auto; try discriminate.
      * injection H as <- _. discriminate.
      * injection H as <- _. reflexivity.
      * injection H as _ <-. reflexivity.
  - split; [intros c m H; injection H as <- <-; reflexivity |].
    cbn [fst snd]. split; [discriminate |]. intros; discriminate.
  - split; [intros; discriminate |].
    destruct (or_default (Basic.cited_text data) _) as [| c t] eqn:E;
      cbn [fst snd].
    + repeat split; auto; intros; try discriminate; try contradiction.
    + repeat split; auto; try discriminate.
      * injection H as <- _. discriminate.
      * injection H as <- _. reflexivity.
      * injection H as _ <-. reflexivity.
Qed.

(** *** Parsing the parser's output *)

Lemma parse_no_marker span s :
  ~ has_marker s ->
  snd (replace_fold (on_marker_with span) fresh (scan marker_re 0 None s)) = s.
Proof.
  intros H. rewrite parse_with.
  rewrite (gaps_only _ _ (scan_marker_scanned s) H).
  apply render_spans_gaps.
Qed.

Lemma marker_chars ds :
  Forall (fun c => is_digit c = true) ds -> ~ In 60%N (marker ds).
Proof.
  intros Hd Hin. unfold marker in Hin.
  apply in_app_or in Hin. destruct Hin as [Hin | Hin].
  - cbn in Hin. repeat (destruct Hin as [Hin | Hin]; [discriminate |]).
    exact Hin.
  - apply in_app_or in Hin. destruct Hin as [Hin | Hin].
    + rewrite Forall_forall in Hd. specialize (Hd _ Hin). discriminate.
    + cbn in Hin. repeat (destruct Hin as [Hin | Hin]; [discriminate |]).
      exact Hin.
Qed.

(** What the output starts with, up to its first placeholder, the input
    starts with as well. *)
Lemma output_prefix span s segs :
  closed_template span ->
  marker_scanned s segs ->
  forall nums m rest',
    render_spans span segs nums = m ++ rest' -> ~ In 60%N m ->
    exists rest, s = m ++ rest.
Proof.
  intros Hspan Hscan.
  induction Hscan as [| c s segs Hno Hscan IH | ds rest segs Hds Hscan IH];
    intros nums m rest' E Hm.
  - destruct m; [exists []; reflexivity | discriminate].
  - destruct m as [| x m]; [eexists; reflexivity |].
    cbn [render_spans app] in E. injection E as <- E.
    destruct (IH nums m rest' E) as (rest & ->).
    + intros Hin. apply Hm. right. exact Hin.
    + exists rest. reflexivity.
  - destruct m as [| x m]; [eexists; reflexivity |]. exfalso.
    cbn [render_spans] in E. destruct nums as [| n nums]; [discriminate |].
    change (group 1 [(1%nat, ds)]) with ds in E.
    destruct (Hspan ds n (proj2 Hds)) as ((t & Et) & _).
    rewrite Et in E. injection E as <- _. apply Hm. left. reflexivity.
Qed.

Lemma output_no_marker span s segs :
  closed_template span ->
  marker_scanned s segs ->
  forall nums, ~ has_marker (render_spans span segs nums).
Proof.
  intros Hspan Hscan.
  induction Hscan as [| c s segs Hno Hscan IH | ds rest segs Hds Hscan IH];
    intros nums (ds' & Hds' & a & b & E).
  - destruct a; discriminate.
  - cbn [render_spans] in E. destruct a as [| x a].
    + cbn [app] in E.
      destruct (output_prefix span (c :: s) (Gap c :: segs) Hspan
                  (ms_gap c s segs Hno Hscan) nums (marker ds') b E
                  (marker_chars ds' (proj2 Hds'))) as (rest & Es).
      exact (Hno ds' rest Hds' Es).
    + injection E as _ E. apply (IH nums). exists ds'. split; [exact Hds' |].
      exists a, b. exact E.
  - cbn [render_spans] in E. destruct nums as [| n nums];
      [destruct a; discriminate |].
    change (group 1 [(1%nat, ds)]) with ds in E.
    destruct (Hspan ds n (proj2 Hds)) as (_ & Hno).
    destruct (app_cut _ _ _ _ E) as [(e & -> & E2) | (e & Hne & E1 & E2)].
    + apply (IH nums). exists ds'. split; [exact Hds' |]. exists e, b.
      exact E2.
    + destruct e as [| x e]; [contradiction |].
      apply Hno. rewrite E1. apply in_or_app. right.
      cbn in E2. injection E2 as <- _. left. reflexivity.
Qed.

Lemma no_bracket_digits ds :
  Forall (fun c => is_digit c = true) ds -> Forall (fun c => c <> 91%N) ds.
Proof.
  apply Forall_impl. intros c Hc ->. discriminate.
Qed.

Lemma no_bracket_number n : Forall (fun c => c <> 91%N) (number_to_string n).
Proof. apply no_bracket_digits, uint_digits_ok. Qed.

Ltac no_bracket Hd :=
  repeat first
    [ apply Forall_app; split
    | apply Forall_cons; [discriminate |]
    | apply Forall_nil
    | apply no_bracket_number
    | exact (no_bracket_digits _ Hd)
    | assumption ].

Lemma ui_template_closed key :
  ~ In 91%N key -> closed_template (fun id n => citation_span id key n).
Proof.
  intros Hk ds n Hd. split; [eexists; reflexivity |].
  assert (Hkey : Forall (fun c => c <> 91%N) key).
  { apply Forall_forall. intros c Hc ->. exact (Hk Hc). }
  assert (H : Forall (fun c => c <> 91%N) (citation_span (source_id ds) key n)).
  { unfold citation_span, quoted, source_id.
    cbn [lit list_ascii_of_string map app]. no_bracket Hd. }
  intros Hin. rewrite Forall_forall in H. exact (H _ Hin eq_refl).
Qed.

Lemma legacy_template_closed : closed_template Legacy.citation_span.
Proof.
  intros ds n Hd. split; [eexists; reflexivity |].
  assert (H : Forall (fun c => c <> 91%N) (Legacy.citation_span (source_id ds) n)).
  { unfold Legacy.citation_span, quoted, source_id.
    cbn [lit list_ascii_of_string map app]. no_bracket Hd. }
  intros Hin. rewrite Forall_forall in H. exact (H _ Hin eq_refl).
Qed.

Lemma basic_template_closed : closed_template Basic.citation_span.
Proof.
  intros ds n Hd. split; [eexists; reflexivity |].
  assert (H : Forall (fun c => c <> 91%N) (Basic.citation_span (source_id ds) n)).
  { unfold Basic.citation_span, quoted, source_id.
    cbn [lit list_ascii_of_string map app]. no_bracket Hd. }
  intros Hin. rewrite Forall_forall in H. exact (H _ Hin eq_refl).
Qed.

Lemma parse_twice span span' content :
  closed_template span ->
  let once :=
    snd (replace_fold (on_marker_with span) fresh
           (scan marker_re 0 None content)) in
  ~ has_marker once /\
  snd (replace_fold (on_marker_with span') fresh (scan marker_re 0 None once))
  = once.
Proof.
  intros Hspan. cbn zeta.
  assert (Hno : ~ has_marker
                  (snd (replace_fold (on_marker_with span) fresh
                          (scan marker_re 0 None content)))).
  { rewrite parse_with.
    apply (output_no_marker span content _ Hspan (scan_marker_scanned content)). }
  split; [exact Hno |]. apply parse_no_marker. exact Hno.
Qed.

(** X14: the marker parsers are idempotent.  The output of
    [processCitationTags] for a section key without [[] (as the keys of
    [sectionOrder] are) holds no well-formed marker, so that parsing it
    again, under any key, returns it unchanged; the same holds of the
    parsers of the two earlier scripts, without a condition. *)
Theorem parsers_idempotent (content key key' : jsstring) :
  ~ In 91%N key ->
  ~ has_marker (processCitationTags content tt key) /\
  processCitationTags (processCitationTags content tt key) tt key' =
    processCitationTags content tt key /\
  Legacy.processCitations (Legacy.processCitations content) =
    Legacy.processCitations content /\
  Basic.processCitationTags (Basic.processCitationTags content) =
    Basic.processCitationTags content.
Proof.
  intros Hk.
  destruct (parse_twice (fun id n => citation_span id key n)
              (fun id n => citation_span id key' n) content
              (ui_template_closed key Hk)) as [H1 H2].
  destruct (parse_twice Legacy.citation_span Legacy.citation_span content
              legacy_template_closed) as [_ H3].
  destruct (parse_twice Basic.citation_span Basic.citation_span content
              basic_template_closed) as [_ H4].
  repeat split; assumption.
Qed.

Lemma parsers_idempotent_witness :
  ~ In 91%N (lit "overview") /\
  processCitationTags (processCitationTags three_markers tt (lit "overview"))
    tt (lit "metrics") =
  processCitationTags three_markers tt (lit "overview").
Proof.
  assert (Hk : ~ In 91%N (lit "overview")).
  { cbn. intros H. repeat (destruct H as [H | H]; [discriminate |]). exact H. }
  split; [exact Hk |].
  exact (proj1 (proj2 (parsers_idempotent three_markers (lit "overview")
                         (lit "metrics") Hk))).
Defined.

End VariantFacts.

(* ------------------------------------------------------------------ *)
(** ** What the renderer makes of simple sources *)

Module RenderFacts.
Import JS Regex Markdown Documents.
Import RegexFacts KeepFacts MarkdownFacts.

(** *** Scans with known matches *)

Lemma scan_gaps r : forall u prev v,
  (forall u1 u2, u = u1 ++ u2 -> u2 <> [] ->
     exec_at r (last_char prev u1) (u2 ++ v) = None) ->
  scan r 0 prev (u ++ v) = map Gap u ++ scan r 0 (last_char prev u) v.
Proof.
  induction u as [| c u IH]; intros prev v Hno; [reflexivity |].
  rewrite scan_step.
  pose proof (Hno [] (c :: u) eq_refl ltac:(discriminate)) as E.
  cbn [app] in E. change (last_char prev []) with prev in E.
  cbn [app]. rewrite E. cbn [map app]. f_equal.
  change (c :: u) with ([c] ++ u). rewrite last_char_app.
  apply IH. intros u1 u2 Eu Hne.
  specialize (Hno (c :: u1) u2). rewrite Eu in Hno.
  specialize (Hno eq_refl Hne).
  change (c :: u1) with ([c] ++ u1) in Hno. rewrite last_char_app in Hno.
  exact Hno.
Qed.

Lemma scan_hit r prev w v cs :
  w <> [] -> exec_at r prev (w ++ v) = Some (v, cs) ->
  scan r 0 prev (w ++ v) = Hit w cs :: scan r 0 (last_char prev w) v.
Proof.
  intros Hne E. rewrite scan_step, E. cbn zeta.
  rewrite firstn_app_length. destruct w; [contradiction | reflexivity].
Qed.

Lemma scan_nothing r f prev s :
  (forall a b, s = a ++ b -> exec_at r (last_char prev a) b = None) ->
  flat_map (seg_out f) (scan r 0 prev s) = s.
Proof.
  intros Hno. apply (scanned_no_match r f prev s); [| exact Hno].
  apply (scan_scanned r (length s)). lia.
Qed.

(** A text with one match. *)
Lemma replace_one r f a w b cs :
  (forall a1 a2, a = a1 ++ a2 -> a2 <> [] ->
     exec_at r (last_char None a1) (a2 ++ w ++ b) = None) ->
  w <> [] ->
  exec_at r (last_char None a) (w ++ b) = Some (b, cs) ->
  (forall b1 b2, b = b1 ++ b2 ->
     exec_at r (last_char None (a ++ w ++ b1)) b2 = None) ->
  replace r f (a ++ w ++ b) = a ++ f w cs ++ b.
Proof.
  intros Ha Hw He Hb. unfold replace.
  rewrite scan_gaps by exact Ha.
  rewrite (scan_hit r _ w b cs Hw He).
  rewrite flat_map_app. cbn [flat_map seg_out].
  rewrite scan_nothing.
  - f_equal. clear. induction a as [| c a IH]; [reflexivity |].
    cbn. rewrite IH. reflexivity.
  - intros b1 b2 E. rewrite <- !last_char_app.
    apply Hb. exact E.
Qed.

(** *** Lines *)

Lemma inside_line s prev : forall a b,
  Forall (fun c => is_line_terminator c = false) s ->
  s = a ++ b -> a <> [] -> at_line_start (last_char prev a) = false.
Proof.
  intros a b Hs E Hne. destruct (exists_last Hne) as (a' & c & ->).
  rewrite last_char_app. cbn [last_char rev app at_line_start].
  rewrite Forall_forall in Hs. apply Hs. rewrite E.
  apply in_or_app. left. apply in_or_app. right. left. reflexivity.
Qed.

Lemma plain_line_spec t :
  plain_line t = true ->
  t <> [] /\ forallb plain_char t = true /\
  Forall (fun c => is_line_terminator c = false) t /\
  ~ In 42%N t /\ ~ In 124%N t /\ ~ In 60%N t /\ ~ In 10%N t.
Proof.
  intros H. destruct t as [| c t]; [discriminate |]. unfold plain_line in H.
  split; [discriminate |]. split; [exact H |].
  rewrite forallb_forall in H.
  assert (Hc : forall x, In x (c :: t) ->
                 is_line_terminator x = false /\ x <> 42%N /\ x <> 124%N /\
                 x <> 60%N)
    by (intros x Hx; apply plain_char_spec, H, Hx).
  repeat split.
  - apply Forall_forall. intros x Hx. apply (Hc x Hx).
  - intros Hin. destruct (Hc _ Hin) as (_ & E & _). congruence.
  - intros Hin. destruct (Hc _ Hin) as (_ & _ & E & _). congruence.
  - intros Hin. destruct (Hc _ Hin) as (_ & _ & _ & E). congruence.
  - intros Hin. destruct (Hc _ Hin) as (E & _). discriminate.
Qed.

(** *** Headings *)

Lemma heading_exec hashes prev t rest :
  at_line_start prev = true -> t <> [] ->
  Forall (fun c => is_line_terminator c = false) t ->
  at_line_end rest = true ->
  exec_at (heading_re hashes) prev ((hashes ++ lit " ") ++ t ++ rest)
  = Some (rest, [(1%nat, t)]).
Proof.
  intros Hs Hne Ht He. unfold exec_at, heading_re, some_chars.
  cbn [seq_re compile]. rewrite Hs, strip_prefix_same. cbn [groups].
  apply repeat_class_greedy.
  - eapply Forall_impl; [| exact Ht]. intros c Hc. rewrite Hc. reflexivity.
  - destruct rest as [| c rest]; [exact I |]. cbn in He. rewrite He.
    reflexivity.
  - destruct t; [contradiction | cbn; lia].
  - lia.
  - cbv beta. rewrite He, firstn_app_length. reflexivity.
Qed.

(** *** Elements in a text without markup *)

Lemma angle_run prev x :
  forallb plain_char x = true ->
  match x with c :: _ => c <> 108%N | [] => True end ->
  markup_free prev (60%N :: x) = true.
Proof.
  intros Hx Hc. cbn [markup_free]. rewrite char_free_lt. cbn [andb].
  destruct x as [| c x]; [reflexivity |].
  cbn [forallb] in Hx. apply andb_true_iff in Hx. destruct Hx as [Hp Hx].
  cbn [markup_free]. rewrite plain_tail_free, andb_true_r by assumption.
  apply plain_char_spec in Hp. destruct Hp as (_ & C2 & C3 & _).
  apply N.eqb_neq in C2, C3, Hc. unfold char_free. rewrite C2, C3, Hc.
  reflexivity.
Qed.

Lemma element_split tag body :
  element tag body =
  (60%N :: tag ++ 62%N :: body) ++ (60%N :: 47%N :: tag ++ [62%N]).
Proof.
  unfold element. change (lit "<") with [60%N]. change (lit ">") with [62%N].
  change (lit "</") with [60%N; 47%N]. cbn [app].
  rewrite <- !app_assoc. reflexivity.
Qed.

Lemma forallb_plain_app a b :
  forallb plain_char (a ++ b) = forallb plain_char a && forallb plain_char b.
Proof. apply forallb_app. Qed.

(** An element whose tag does not start with [l], around plain text, is
    a text without markup. *)
Lemma element_free tag body prev :
  forallb plain_char tag = true ->
  match tag with c :: _ => c <> 108%N | [] => False end ->
  forallb plain_char body = true ->
  markup_free prev (element tag body) = true.
Proof.
  intros Ht Hc Hb. rewrite element_split, markup_free_app.
  apply andb_true_iff. split.
  - apply angle_run.
    + rewrite forallb_plain_app. cbn [forallb]. rewrite Ht, Hb. reflexivity.
    + destruct tag; [contradiction | exact Hc].
  - apply angle_run; [| discriminate].
    cbn [forallb]. rewrite forallb_plain_app, Ht. reflexivity.
Qed.

(** *** One block *)

Lemma one_piece html :
  ~ In 10%N html -> split (nl ++ nl) html = [html].
Proof.
  intros Hno. unfold split. change (nl ++ nl) with (10%N :: [10%N]).
  rewrite <- (app_nil_r html) at 1.
  rewrite split_go_plain by exact Hno.
  cbn [split_go]. rewrite app_nil_r, rev_involutive. reflexivity.
Qed.

Lemma element_last tag body : last (element tag body) 0%N = 62%N.
Proof.
  rewrite element_split, last_app_cons.
  change (60%N :: 47%N :: tag ++ [62%N])
    with ((60%N :: 47%N :: tag) ++ [62%N]).
  apply last_last.
Qed.

Lemma element_no_newline tag body :
  ~ In 10%N tag -> ~ In 10%N body -> ~ In 10%N (element tag body).
Proof.
  intros Ht Hb. rewrite element_split. intros Hin.
  apply in_app_or in Hin.
  destruct Hin as [[H | Hin] | [H | [H | Hin]]]; try discriminate.
  - apply in_app_or in Hin. destruct Hin as [Hin | [H | Hin]]; auto.
    discriminate.
  - apply in_app_or in Hin. destruct Hin as [Hin | [H | []]]; auto.
    discriminate.
Qed.

Lemma trim_element tag body : trim (element tag body) = element tag body.
Proof.
  apply trim_id.
  - rewrite element_split. eexists _, _. split; reflexivity.
  - rewrite element_last. reflexivity.
Qed.

(** The blocks of a text that is one element. *)
Lemma blocks_element tag body :
  ~ In 10%N tag -> ~ In 10%N body ->
  blocks (element tag body) = [paragraph (element tag body)].
Proof.
  intros Ht Hb. unfold blocks.
  rewrite one_piece by (apply element_no_newline; assumption). reflexivity.
Qed.

Lemma paragraph_heading_element c tag body :
  paragraph (element (104%N :: c :: tag) body) =
  element (104%N :: c :: tag) body.
Proof.
  unfold paragraph. rewrite trim_element. rewrite element_split. reflexivity.
Qed.

Lemma paragraph_inline_element c tag body :
  c <> 104%N -> c <> 117%N -> c <> 111%N -> c <> 108%N -> c <> 116%N ->
  paragraph (element (c :: tag) body) = p_block (element (c :: tag) body).
Proof.
  intros H1 H2 H3 H4 H5. unfold paragraph. rewrite trim_element.
  rewrite element_split. cbn [app].
  unfold startsWith. cbn [lit list_ascii_of_string map strip_prefix].
  change (N_of_ascii "<") with 60%N. change (N_of_ascii "h") with 104%N.
  change (N_of_ascii "u") with 117%N. change (N_of_ascii "o") with 111%N.
  change (N_of_ascii "l") with 108%N. change (N_of_ascii "t") with 116%N.
  unfold char_eqb.
  apply not_eq_sym in H1, H2, H3, H4, H5.
  apply N.eqb_neq in H1, H2, H3, H4, H5.
  rewrite !N.eqb_refl, H1, H2, H3, H4, H5. reflexivity.
Qed.

(** *** Heading lines *)

Lemma replace_whole r f w cs :
  w <> [] -> exec_at r None w = Some ([], cs) ->
  exec_at r (last_char None w) [] = None ->
  replace r f w = f w cs.
Proof.
  intros Hne He Hend. unfold replace.
  rewrite <- (app_nil_r w) at 1. rewrite <- (app_nil_r w) in He.
  rewrite (scan_hit r None w [] cs Hne He).
  rewrite scan_step, Hend. cbn. apply app_nil_r.
Qed.

Lemma heading_line_no_terminator level t :
  plain_line t = true ->
  Forall (fun c => is_line_terminator c = false) (heading_line level t).
Proof.
  intros Ht. destruct (plain_line_spec t Ht) as (_ & _ & Hlt & _).
  unfold heading_line. apply Forall_app. split.
  - induction level; constructor; [reflexivity | assumption].
  - constructor; [reflexivity | exact Hlt].
Qed.

(** A heading pass for more hashes than the line has leaves it alone. *)
Lemma heading_pass_skips hashes level t f :
  plain_line t = true ->
  (forall g rest, heading_line level t <> (hashes ++ lit " ") ++ g ++ rest) ->
  replace (heading_re hashes) f (heading_line level t) = heading_line level t.
Proof.
  intros Ht Hdiff. apply replace_no_match. intros a b E.
  destruct (exec_at (heading_re hashes) (last_char None a) b)
    as [[rest cs] |] eqn:Hex; [exfalso | reflexivity].
  apply heading_shape in Hex. destruct Hex as (g & Eb & _ & Hls & _).
  destruct a as [| c a].
  - cbn [app] in E. rewrite <- E in Eb. exact (Hdiff g rest Eb).
  - rewrite (inside_line (heading_line level t) None (c :: a) b) in Hls;
      [discriminate | | exact E | discriminate].
    apply heading_line_no_terminator. exact Ht.
Qed.

(** The heading pass for the hashes the line has. *)
Lemma heading_pass_hits level tag t :
  plain_line t = true ->
  replace (heading_re (repeat 35%N level)) (wrap_group tag)
    (heading_line level t) = element tag t.
Proof.
  intros Ht. destruct (plain_line_spec t Ht) as (Hne & _ & Hlt & _).
  assert (E : heading_line level t =
              (repeat 35%N level ++ lit " ") ++ t ++ []).
  { unfold heading_line. rewrite app_nil_r, <- app_assoc. reflexivity. }
  rewrite (replace_whole _ _ _ [(1%nat, t)]).
  - reflexivity.
  - rewrite E. destruct level; discriminate.
  - rewrite E. apply heading_exec; auto.
  - destruct (exec_at _ _ []) as [[rest cs] |] eqn:Hex; [| reflexivity].
    apply heading_shape in Hex. destruct Hex as (g & Eb & _).
    destruct level; discriminate.
Qed.

Ltac silent_passes Hfree :=
  repeat first
    [ rewrite (silent_replace (heading_re (lit "##")) _ _
                 (heading_silent _ ltac:(eexists; reflexivity)) Hfree)
    | rewrite (silent_replace (heading_re (lit "#")) _ _
                 (heading_silent _ ltac:(eexists; reflexivity)) Hfree)
    | rewrite (silent_replace bold_re _ _ bold_silent Hfree)
    | rewrite (silent_replace italic_re _ _ italic_silent Hfree)
    | rewrite (silent_replace bullet_re _ _ bullet_silent Hfree)
    | rewrite (silent_replace list_run_re _ _ list_run_silent Hfree)
    | rewrite (silent_replace numbered_re _ _ numbered_silent Hfree)
    | rewrite (silent_replace tableRegex _ _ table_silent Hfree) ].

(** A heading element is a text without markup and a block of its
    own. *)
Lemma heading_element tag t :
  In tag [lit "h1"; lit "h2"; lit "h3"] ->
  plain_line t = true ->
  markup_free None (element tag t) = true /\
  join nl (blocks (element tag t)) = element tag t.
Proof.
  intros Htag Ht.
  destruct (plain_line_spec t Ht) as (_ & Hp & _ & _ & _ & _ & Hnl).
  destruct Htag as [<- | [<- | [<- | []]]].
  all: split;
    [ apply element_free; [reflexivity | discriminate | exact Hp]
    | rewrite blocks_element;
      [ cbn [map join]; apply paragraph_heading_element
      | intros [H | [H | []]]; discriminate
      | exact Hnl ] ].
Qed.

(** X15: a line of one, two or three hashes, a space and plain text
    (not empty, without line terminator, [*], [|] and [<]) is rendered as
    the text between [<h1>], [<h2>] or [<h3>] and the closing tag,
    without a paragraph around it. *)
Theorem heading_lines_render (t : jsstring) :
  plain_line t = true ->
  renderMarkdown (lit "# " ++ t) = lit "<h1>" ++ t ++ lit "</h1>" /\
  renderMarkdown (lit "## " ++ t) = lit "<h2>" ++ t ++ lit "</h2>" /\
  renderMarkdown (lit "### " ++ t) = lit "<h3>" ++ t ++ lit "</h3>".
Proof.
  intros Ht.
  destruct (heading_element (lit "h1") t) as [F1 B1]; [cbn; auto | exact Ht |].
  destruct (heading_element (lit "h2") t) as [F2 B2]; [cbn; auto | exact Ht |].
  destruct (heading_element (lit "h3") t) as [F3 B3]; [cbn; auto | exact Ht |].
  change (lit "# " ++ t) with (heading_line 1 t).
  change (lit "## " ++ t) with (heading_line 2 t).
  change (lit "### " ++ t) with (heading_line 3 t).
  change (lit "<h1>" ++ t ++ lit "</h1>") with (element (lit "h1") t).
  change (lit "<h2>" ++ t ++ lit "</h2>") with (element (lit "h2") t).
  change (lit "<h3>" ++ t ++ lit "</h3>") with (element (lit "h3") t).
  unfold renderMarkdown, render_blocks, inline_passes.
  repeat split.
  - rewrite (heading_pass_skips (lit "###") 1) by (exact Ht || discriminate).
    rewrite (heading_pass_skips (lit "##") 1) by (exact Ht || discriminate).
    change (lit "#") with (repeat 35%N 1).
    rewrite (heading_pass_hits 1 (lit "h1") t Ht).
    silent_passes F1. exact B1.
  - rewrite (heading_pass_skips (lit "###") 2) by (exact Ht || discriminate).
    change (lit "##") with (repeat 35%N 2).
    rewrite (heading_pass_hits 2 (lit "h2") t Ht).
    change (repeat 35%N 2) with (lit "##").
    silent_passes F2. exact B2.
  - change (lit "###") with (repeat 35%N 3).
    rewrite (heading_pass_hits 3 (lit "h3") t Ht).
    change (repeat 35%N 3) with (lit "###").
    silent_passes F3. exact B3.
Qed.

Lemma heading_lines_render_witness :
  plain_line (lit "Key Metrics") = true /\
  renderMarkdown (lit "## Key Metrics") = lit "<h2>Key Metrics</h2>".
Proof.
  split; [reflexivity |].
  exact (proj1 (proj2 (heading_lines_render (lit "Key Metrics") eq_refl))).
Defined.

(** *** Emphasis inside a line *)

(** A lazy repetition of a character class reads as little as the
    continuation allows. *)
Lemma repeat_class_lazy (P : char -> bool) : forall ds tail fuel min prev
    cs k res,
  Forall (fun c => P c = true) ds ->
  (min <= length ds)%nat ->
  (length (ds ++ tail) < fuel)%nat ->
  (forall d1 d2, ds = d1 ++ d2 -> d2 <> [] ->
     k (last_char prev d1) (d2 ++ tail) cs = None) ->
  k (last_char prev ds) tail cs = Some res ->
  repeat_matcher (one_char P) [] false fuel min prev (ds ++ tail) cs k
    = Some res.
Proof.
  induction ds as [| d ds IH]; intros tail fuel min prev cs k res HP Hmin
    Hfuel Hno Hk.
  - destruct fuel as [| fuel]; [cbn in Hfuel; lia |].
    cbn in Hmin. assert (min = 0%nat) as -> by lia.
    cbn. change (last_char prev []) with prev in Hk. rewrite Hk. reflexivity.
  - destruct fuel as [| fuel]; [cbn in Hfuel; lia |].
    inversion HP as [| ? ? Hd HP']; subst.
    cbn [repeat_matcher app]. rewrite clear_caps_nil.
    cbn [one_char]. rewrite Hd.
    assert (Hlen : Nat.eqb (length (ds ++ tail)) (length (d :: ds ++ tail))
                   = false) by (apply Nat.eqb_neq; cbn; lia).
    rewrite Hlen, andb_false_r.
    pose proof (Hno [] (d :: ds) eq_refl ltac:(discriminate)) as H0.
    change (last_char prev []) with prev in H0. cbn [app] in H0.
    rewrite H0.
    rewrite (IH tail fuel (pred min) (Some d) cs k res); auto.
    + destruct (Nat.ltb 0 min); reflexivity.
    + cbn in Hmin. lia.
    + cbn in Hfuel. lia.
    + intros d1 d2 E Hne. specialize (Hno (d :: d1) d2).
      rewrite E in Hno. specialize (Hno eq_refl Hne).
      change (d :: d1) with ([d] ++ d1) in Hno.
      rewrite last_char_app in Hno. exact Hno.
    + change (d :: ds) with ([d] ++ ds) in Hk.
      rewrite last_char_app in Hk. exact Hk.
Qed.

Lemma strip_prefix_stars_fails stars c x :
  c <> 42%N -> strip_prefix (42%N :: stars) (c :: x) = None.
Proof.
  intros Hc. cbn [strip_prefix]. unfold char_eqb.
  destruct (N.eqb_spec 42 c); [congruence | reflexivity].
Qed.

(** [stars] is [*] or [**]. *)
Lemma emphasis_exec stars prev t rest :
  t <> [] -> Forall (fun c => is_line_terminator c = false) t ->
  ~ In 42%N t ->
  exec_at (seq_re [Lit (42%N :: stars); Capture 1 (some_chars false);
                   Lit (42%N :: stars)])
    prev ((42%N :: stars) ++ t ++ (42%N :: stars) ++ rest)
  = Some (rest, [(1%nat, t)]).
Proof.
  intros Hne Ht Hstar. unfold exec_at, some_chars.
  cbn [seq_re compile]. rewrite strip_prefix_same. cbn [groups].
  apply repeat_class_lazy.
  - eapply Forall_impl; [| exact Ht]. intros c Hc. rewrite Hc. reflexivity.
  - destruct t; [contradiction | cbn; lia].
  - lia.
  - intros d1 d2 E Hd2. destruct d2 as [| c d2]; [contradiction |].
    cbv beta. cbn [app]. rewrite strip_prefix_stars_fails; [reflexivity |].
    intros ->. apply Hstar. rewrite E. apply in_or_app. right. left.
    reflexivity.
  - cbv beta. rewrite strip_prefix_same, firstn_app_length. reflexivity.
Qed.

Lemma emphasis_shape stars prev s rest cs :
  exec_at (seq_re [Lit (42%N :: stars); Capture 1 (some_chars false);
                   Lit (42%N :: stars)]) prev s = Some (rest, cs) ->
  exists x, s = 42%N :: x.
Proof.
  intros H. apply exec_at_sound in H. destruct H as (w & -> & H).
  cbn [seq_re] in H. apply matches_Cat_inv in H.
  destruct H as (m1 & m2 & cs1 & -> & H1 & _).
  apply matches_Lit_inv in H1. destruct H1 as [-> _].
  eexists. reflexivity.
Qed.

(** The emphasis pass on a line with one emphasised stretch. *)
Lemma emphasis_pass stars tag a t b :
  ~ In 42%N a -> plain_line t = true -> ~ In 42%N b ->
  replace (seq_re [Lit (42%N :: stars); Capture 1 (some_chars false);
                   Lit (42%N :: stars)]) (wrap_group tag)
    (a ++ ((42%N :: stars) ++ t ++ (42%N :: stars)) ++ b)
  = a ++ element tag t ++ b.
Proof.
  intros Ha Ht Hb.
  destruct (plain_line_spec t Ht) as (Hne & _ & Hlt & Hstar & _).
  transitivity
    (a ++ wrap_group tag ((42%N :: stars) ++ t ++ (42%N :: stars))
            [(1%nat, t)] ++ b); [| reflexivity].
  apply replace_one.
  - intros a1 a2 E Hne2.
    destruct (exec_at _ _ _) as [[rest cs] |] eqn:Hex; [| reflexivity].
    apply emphasis_shape in Hex. destruct Hex as (x & Ex).
    destruct a2 as [| c a2]; [contradiction |]. injection Ex as -> _.
    exfalso. apply Ha. rewrite E. apply in_or_app. right. left. reflexivity.
  - discriminate.
  - rewrite <- !app_assoc. apply emphasis_exec; assumption.
  - intros b1 b2 E.
    destruct (exec_at _ _ _) as [[rest cs] |] eqn:Hex; [| reflexivity].
    apply emphasis_shape in Hex. destruct Hex as (x & ->).
    exfalso. apply Hb. rewrite E. apply in_or_app. right. left. reflexivity.
Qed.

Lemma plain_text_spec a :
  plain_text a = true ->
  Forall (fun c => is_line_terminator c = false) a /\
  ~ In 42%N a /\ ~ In 60%N a /\ ~ In 10%N a.
Proof.
  unfold plain_text. intros H. rewrite forallb_forall in H.
  assert (Hc : forall x, In x a ->
                 is_line_terminator x = false /\ x <> 42%N /\ x <> 124%N /\
                 x <> 60%N)
    by (intros x Hx; apply plain_char_spec, H, Hx).
  repeat split.
  - apply Forall_forall. intros x Hx. apply (Hc x Hx).
  - intros Hin. destruct (Hc _ Hin) as (_ & E & _). congruence.
  - intros Hin. destruct (Hc _ Hin) as (_ & _ & _ & E). congruence.
  - intros Hin. destruct (Hc _ Hin) as (E & _). discriminate.
Qed.

Lemma prose_free a :
  plain_text a = true -> prose_start a = true -> markup_free None a = true.
Proof.
  intros Hp Hs. destruct a as [| c a]; [reflexivity |].
  unfold plain_text in Hp. cbn [forallb] in Hp.
  apply andb_true_iff in Hp. destruct Hp as [Hc Ha].
  cbn [markup_free]. rewrite plain_tail_free, andb_true_r by assumption.
  cbn [prose_start] in Hs. rewrite !andb_true_iff in Hs.
  destruct Hs as [[Hd Hh] _].
  apply plain_char_spec in Hc. destruct Hc as (_ & C2 & C3 & _).
  apply N.eqb_neq in C2, C3. unfold char_free.
  rewrite C2, C3, Hd, Hh. reflexivity.
Qed.

Lemma element_last_char prev tag body :
  last_char prev (element tag body) = Some 62%N.
Proof.
  rewrite element_split, last_char_app.
  change (60%N :: 47%N :: tag ++ [62%N]) with ((60%N :: 47%N :: tag) ++ [62%N]).
  rewrite last_char_app. reflexivity.
Qed.

(** A line of prose around one inline element is a text without
    markup. *)
Lemma inline_line_free tag a t b :
  forallb plain_char tag = true ->
  match tag with c :: _ => c <> 108%N | [] => False end ->
  plain_text a = true -> prose_start a = true -> plain_line t = true ->
  plain_text b = true ->
  markup_free None (a ++ element tag t ++ b) = true.
Proof.
  intros Htag Hc Ha Hs Ht Hb.
  destruct (plain_line_spec t Ht) as (_ & Hp & _).
  rewrite !markup_free_app, element_last_char.
  rewrite (prose_free a Ha Hs), (element_free tag t _ Htag Hc Hp).
  rewrite plain_tail_free by (reflexivity || exact Hb). reflexivity.
Qed.

Lemma last_app_nonempty (a b : list N) d :
  b <> [] -> last (a ++ b) d = last b d.
Proof.
  intros Hb. destruct b as [| x b]; [contradiction |]. apply last_app_cons.
Qed.

(** A line of prose around one inline element is one block, and a
    paragraph. *)
Lemma inline_line_block tag a t b :
  In tag [lit "strong"; lit "em"] ->
  plain_text a = true -> prose_start a = true -> plain_line t = true ->
  plain_text b = true -> prose_end b = true ->
  join nl (blocks (a ++ element tag t ++ b)) =
  p_block (a ++ element tag t ++ b).
Proof.
  intros Htag Ha Hs Ht Hb He.
  destruct (plain_text_spec a Ha) as (_ & _ & Ha60 & Ha10).
  destruct (plain_text_spec b Hb) as (_ & _ & _ & Hb10).
  destruct (plain_line_spec t Ht) as (_ & _ & _ & _ & _ & _ & Ht10).
  assert (Htag10 : ~ In 10%N tag).
  { destruct Htag as [<- | [<- | []]]; cbn; intros H;
      repeat (destruct H as [H | H]; [discriminate |]); exact H. }
  unfold blocks. rewrite one_piece.
  2:{ intros Hin. apply in_app_or in Hin. destruct Hin as [Hin | Hin]; auto.
      apply in_app_or in Hin. destruct Hin as [Hin | Hin]; auto.
      exact (element_no_newline tag t Htag10 Ht10 Hin). }
  cbn [map join]. unfold paragraph. rewrite trim_id.
  - destruct a as [| c a].
    + cbn [app]. rewrite element_split. cbn [app].
      destruct Htag as [<- | [<- | []]]; reflexivity.
    + cbn [app]. unfold startsWith.
      cbn [lit list_ascii_of_string map strip_prefix].
      change (N_of_ascii "<") with 60%N. unfold char_eqb.
      destruct (N.eqb_spec 60 c) as [<- | _]; [| reflexivity].
      exfalso. apply Ha60. left. reflexivity.
  - destruct a as [| c a].
    + cbn [app]. rewrite element_split. eexists _, _. split; reflexivity.
    + exists c, (a ++ element tag t ++ b). split; [reflexivity |].
      cbn [prose_start] in Hs. rewrite !andb_true_iff in Hs.
      destruct Hs as [_ Hws]. apply negb_true_iff in Hws. exact Hws.
  - destruct b as [| x b].
    + rewrite app_nil_r, last_app_nonempty, element_last; [reflexivity |].
      rewrite element_split. discriminate.
    + rewrite app_assoc, last_app_nonempty by discriminate.
      cbn [prose_end] in He. apply negb_true_iff in He. exact He.
Qed.

(** A heading pass leaves a line alone that does not start with [#]. *)
Lemma heading_pass_line hashes f line :
  Forall (fun c => is_line_terminator c = false) line ->
  match line with c :: _ => c <> 35%N | [] => True end ->
  replace (heading_re (35%N :: hashes)) f line = line.
Proof.
  intros Hlt Hfirst. apply replace_no_match. intros x y E.
  destruct (exec_at _ _ y) as [[rest cs] |] eqn:Hex; [exfalso | reflexivity].
  apply heading_shape in Hex. destruct Hex as (g & Ey & _ & Hls & _).
  destruct x as [| c x].
  - cbn [app] in E. subst line. rewrite Ey in Hfirst. cbn in Hfirst.
    congruence.
  - rewrite (inside_line line None (c :: x) y Hlt E) in Hls; discriminate.
Qed.

Lemma no_double_star a t b x y :
  ~ In 42%N a -> t <> [] -> ~ In 42%N t -> ~ In 42%N b ->
  a ++ 42%N :: t ++ 42%N :: b <> x ++ 42%N :: 42%N :: y.
Proof.
  intros Ha Hne Ht Hb E.
  destruct (skip_prefix 42%N a _ x _ E Ha) as (e & -> & E1).
  destruct e as [| c e].
  - cbn [app] in E1. injection E1 as E1.
    destruct t as [| c t]; [contradiction |]. injection E1 as -> _.
    apply Ht. left. reflexivity.
  - cbn [app] in E1. injection E1 as <- E1.
    destruct (skip_prefix 42%N t _ e _ E1 Ht) as (e2 & -> & E2).
    destruct e2 as [| c e2].
    + cbn [app] in E2. injection E2 as E2. apply Hb. rewrite E2. left.
      reflexivity.
    + cbn [app] in E2. injection E2 as _ E2. apply Hb. rewrite E2.
      apply in_or_app. right. left. reflexivity.
Qed.

Lemma emphasis_line_heading_free stars a t b :
  plain_text a = true -> prose_start a = true -> plain_line t = true ->
  plain_text b = true ->
  let line := a ++ ((42%N :: stars) ++ t ++ (42%N :: stars)) ++ b in
  (stars = [] \/ stars = [42%N]) ->
  Forall (fun c => is_line_terminator c = false) line /\
  match line with c :: _ => c <> 35%N | [] => True end.
Proof.
  intros Ha Hs Ht Hb line Hstars.
  destruct (plain_text_spec a Ha) as (Ha1 & _).
  destruct (plain_text_spec b Hb) as (Hb1 & _).
  destruct (plain_line_spec t Ht) as (_ & _ & Ht1 & _).
  split.
  - unfold line. repeat (apply Forall_app; split); try assumption;
      destruct Hstars as [-> | ->]; repeat constructor.
  - unfold line. destruct a as [| c a]; [cbn; discriminate |].
    cbn [app]. cbn [prose_start] in Hs. rewrite !andb_true_iff in Hs.
    destruct Hs as [[_ Hh] _]. apply negb_true_iff, N.eqb_neq in Hh. exact Hh.
Qed.

(** The bold pass leaves a line with one stretch between single stars
    alone. *)
Lemma bold_pass_skips_italic f a t b :
  plain_text a = true -> plain_line t = true -> plain_text b = true ->
  replace bold_re f (a ++ ([42%N] ++ t ++ [42%N]) ++ b) =
  a ++ ([42%N] ++ t ++ [42%N]) ++ b.
Proof.
  intros Ha Ht Hb.
  destruct (plain_text_spec a Ha) as (_ & Ha42 & _).
  destruct (plain_text_spec b Hb) as (_ & Hb42 & _).
  destruct (plain_line_spec t Ht) as (Hne & _ & _ & Ht42 & _).
  apply replace_no_match. intros x y E.
  destruct (exec_at bold_re _ y) as [[rest cs] |] eqn:Hex;
    [exfalso | reflexivity].
  apply bold_shape in Hex. destruct Hex as (g & -> & _).
  rewrite <- !app_assoc in E. cbn [lit list_ascii_of_string map app] in E.
  change (N_of_ascii "*") with 42%N in E.
  exact (no_double_star a t b x _ Ha42 Hne Ht42 Hb42 E).
Qed.

(** X16: in a one-line paragraph, plain text between [**] and [**]
    becomes a [<strong>] element and plain text between [*] and [*] an
    [<em>] element, with the text before and after it unchanged and
    [<p>] and [</p>] around the line.  The text before is empty or starts
    with neither a digit, [#] nor white space, the text after is empty or
    does not end with white space, and neither holds [*], [|], [<] or a
    line terminator. *)
Theorem emphasis_renders (a t b : jsstring) :
  plain_text a = true -> prose_start a = true ->
  plain_line t = true ->
  plain_text b = true -> prose_end b = true ->
  renderMarkdown (a ++ lit "**" ++ t ++ lit "**" ++ b) =
    lit "<p>" ++ a ++ lit "<strong>" ++ t ++ lit "</strong>" ++ b ++
    lit "</p>" /\
  renderMarkdown (a ++ lit "*" ++ t ++ lit "*" ++ b) =
    lit "<p>" ++ a ++ lit "<em>" ++ t ++ lit "</em>" ++ b ++ lit "</p>".
Proof.
  intros Ha Hs Ht Hb He.
  destruct (plain_text_spec a Ha) as (_ & Ha42 & _).
  destruct (plain_text_spec b Hb) as (_ & Hb42 & _).
  assert (Eb : a ++ lit "**" ++ t ++ lit "**" ++ b =
               a ++ ((42%N :: [42%N]) ++ t ++ (42%N :: [42%N])) ++ b)
    by (rewrite <- !app_assoc; reflexivity).
  assert (Ei : a ++ lit "*" ++ t ++ lit "*" ++ b =
               a ++ ((42%N :: []) ++ t ++ (42%N :: [])) ++ b)
    by (rewrite <- !app_assoc; reflexivity).
  assert (Rb : lit "<p>" ++ a ++ lit "<strong>" ++ t ++ lit "</strong>" ++ b ++
               lit "</p>" = p_block (a ++ element (lit "strong") t ++ b)).
  { unfold p_block, element. rewrite <- !app_assoc. reflexivity. }
  assert (Ri : lit "<p>" ++ a ++ lit "<em>" ++ t ++ lit "</em>" ++ b ++
               lit "</p>" = p_block (a ++ element (lit "em") t ++ b)).
  { unfold p_block, element. rewrite <- !app_assoc. reflexivity. }
  split.
  - rewrite Eb, Rb.
    destruct (emphasis_line_heading_free [42%N] a t b Ha Hs Ht Hb)
      as [Hlt Hfirst]; [auto |].
    pose proof (inline_line_free (lit "strong") a t b eq_refl
                  ltac:(discriminate) Ha Hs Ht Hb) as Hfree.
    unfold renderMarkdown, render_blocks, inline_passes.
    rewrite (heading_pass_line [35%N; 35%N] _ _ Hlt Hfirst).
    rewrite (heading_pass_line [35%N] _ _ Hlt Hfirst).
    rewrite (heading_pass_line [] _ _ Hlt Hfirst).
    change bold_re
      with (seq_re [Lit (42%N :: [42%N]); Capture 1 (some_chars false);
                    Lit (42%N :: [42%N])]).
    rewrite (emphasis_pass [42%N] (lit "strong") a t b Ha42 Ht Hb42).
    silent_passes Hfree.
    apply inline_line_block; auto. cbn; auto.
  - rewrite Ei, Ri.
    destruct (emphasis_line_heading_free [] a t b Ha Hs Ht Hb)
      as [Hlt Hfirst]; [auto |].
    pose proof (inline_line_free (lit "em") a t b eq_refl
                  ltac:(discriminate) Ha Hs Ht Hb) as Hfree.
    unfold renderMarkdown, render_blocks, inline_passes.
    rewrite (heading_pass_line [35%N; 35%N] _ _ Hlt Hfirst).
    rewrite (heading_pass_line [35%N] _ _ Hlt Hfirst).
    rewrite (heading_pass_line [] _ _ Hlt Hfirst).
    rewrite (bold_pass_skips_italic _ a t b Ha Ht Hb).
    change italic_re
      with (seq_re [Lit (42%N :: []); Capture 1 (some_chars false);
                    Lit (42%N :: [])]).
    rewrite (emphasis_pass [] (lit "em") a t b Ha42 Ht Hb42).
    silent_passes Hfree.
    apply inline_line_block; auto. cbn; auto.
Qed.

Lemma emphasis_renders_witness :
  plain_line (lit "grew 4%") = true /\
  renderMarkdown (lit "Revenue **grew 4%** this year.") =
    lit "<p>Revenue <strong>grew 4%</strong> this year.</p>" /\
  renderMarkdown (lit "*Net* income") = lit "<p><em>Net</em> income</p>".
Proof.
  split; [reflexivity |]. split.
  - exact (proj1 (emphasis_renders (lit "Revenue ") (lit "grew 4%")
                    (lit " this year.") eq_refl eq_refl eq_refl eq_refl
                    eq_refl)).
  - exact (proj2 (emphasis_renders [] (lit "Net") (lit " income")
                    eq_refl eq_refl eq_refl eq_refl eq_refl)).
Defined.

(** *** Lines that a pass cannot start on *)

Lemma line_starts_free_app bad : forall a prev b,
  line_starts_free bad prev (a ++ b) =
  line_starts_free bad prev a && line_starts_free bad (last_char prev a) b.
Proof.
  induction a as [| c a IH]; intros prev b; [reflexivity |].
  cbn [app line_starts_free]. rewrite IH, andb_assoc.
  change (c :: a) with ([c] ++ a). rewrite last_char_app. reflexivity.
Qed.

Lemma line_starts_free_at bad prev a c b :
  line_starts_free bad prev (a ++ c :: b) = true ->
  at_line_start (last_char prev a) = true -> bad c = false.
Proof.
  rewrite line_starts_free_app. cbn [line_starts_free].
  rewrite !andb_true_iff, negb_true_iff. intros (_ & H & _) Hs.
  rewrite Hs in H. exact H.
Qed.

Lemma line_starts_free_inside bad : forall l p,
  is_line_terminator p = false ->
  Forall (fun c => is_line_terminator c = false) l ->
  line_starts_free bad (Some p) l = true.
Proof.
  induction l as [| c l IH]; intros p Hp Hl; [reflexivity |].
  inversion Hl as [| ? ? Hc Hl']; subst.
  cbn [line_starts_free at_line_start]. rewrite Hp, IH by assumption.
  reflexivity.
Qed.

(** A line whose first code unit is not [bad]. *)
Lemma line_starts_free_line bad prev c l :
  bad c = false ->
  Forall (fun c => is_line_terminator c = false) (c :: l) ->
  line_starts_free bad prev (c :: l) = true.
Proof.
  intros Hc Hl. inversion Hl as [| ? ? Hc' Hl']; subst.
  cbn [line_starts_free]. rewrite Hc, andb_false_r.
  rewrite line_starts_free_inside by assumption. reflexivity.
Qed.

Lemma line_starts_free_join bad : forall lines prev,
  Forall (fun l => exists c l', l = c :: l' /\ bad c = false /\
                   Forall (fun c => is_line_terminator c = false) l) lines ->
  line_starts_free bad prev (join nl lines) = true.
Proof.
  induction lines as [| l lines IH]; intros prev HF; [reflexivity |].
  inversion HF as [| ? ? (c & l' & -> & Hc & Hl) HF']; subst.
  destruct lines as [| l2 lines];
    [apply line_starts_free_line; assumption |].
  rewrite join_cons, !line_starts_free_app.
  rewrite line_starts_free_line by assumption.
  cbn [nl line_starts_free].
  rewrite (inside_line (c :: l') prev (c :: l') [])
    by (assumption || (rewrite app_nil_r; reflexivity) || discriminate).
  cbn [andb negb]. apply IH; assumption.
Qed.

Lemma heading_pass_free hashes f s :
  line_starts_free (fun c => (c =? 35)%N) None s = true ->
  replace (heading_re (35%N :: hashes)) f s = s.
Proof.
  intros Hfree. apply replace_no_match. intros a b E.
  destruct (exec_at _ _ b) as [[rest cs] |] eqn:Hex; [exfalso | reflexivity].
  apply heading_shape in Hex. destruct Hex as (g & -> & _ & Hls & _).
  rewrite E in Hfree. cbn [app] in Hfree.
  apply (line_starts_free_at _ None a 35%N) in Hfree; [discriminate |].
  exact Hls.
Qed.

Lemma numbered_pass_free f s :
  line_starts_free is_digit None s = true ->
  replace numbered_re f s = s.
Proof.
  intros Hfree. apply replace_no_match. intros a b E.
  destruct (exec_at _ _ b) as [[rest cs] |] eqn:Hex; [exfalso | reflexivity].
  apply numbered_shape in Hex.
  destruct Hex as (ds & g & -> & _ & Hne & Hd & Hls & _).
  destruct ds as [| d ds]; [contradiction |].
  pose proof (Forall_inv Hd) as Hd1. cbv beta in Hd1.
  rewrite E in Hfree. rewrite <- !app_assoc in Hfree. cbn [app] in Hfree.
  apply (line_starts_free_at _ None a d) in Hfree; [congruence |].
  exact Hls.
Qed.

Lemma table_pass_no_pipe f s :
  ~ In 124%N s -> replace tableRegex f s = s.
Proof.
  intros Hno. apply replace_no_match. intros a b E.
  destruct (exec_at _ _ b) as [[rest cs] |] eqn:Hex; [exfalso | reflexivity].
  apply table_shape in Hex. destruct Hex as (hdr & sepr & body & -> & _).
  apply Hno. rewrite E. apply in_or_app. right. left. reflexivity.
Qed.

(** *** Bullet lines *)

Lemma italic_shape_line prev s rest cs :
  exec_at italic_re prev s = Some (rest, cs) ->
  exists g y, s = 42%N :: g ++ 42%N :: y /\
              Forall (fun c => is_line_terminator c = false) g.
Proof.
  intros H. apply exec_at_sound in H. destruct H as (w & -> & H).
  unfold italic_re, some_chars in H. cbn [seq_re] in H. invert_matches.
  match goal with
  | Hg : Forall (fun c => is_line_terminator c = false) ?g |- _ =>
      exists g, rest; split; [| exact Hg]
  end.
  cbn [lit list_ascii_of_string map app]. rewrite <- !app_assoc. reflexivity.
Qed.

Lemma bold_shape_line prev s rest cs :
  exec_at bold_re prev s = Some (rest, cs) ->
  exists g y, s = 42%N :: g ++ 42%N :: y /\
              Forall (fun c => is_line_terminator c = false) g.
Proof.
  intros H. apply bold_shape in H. destruct H as (g & -> & _).
  exists [], (g ++ lit "**" ++ rest). split; [reflexivity | constructor].
Qed.

(** In a text of bullet lines every star is followed by a space and the
    rest of its line without a star. *)
Lemma star_lines : forall items a y,
  Forall (fun x => plain_line x = true) items ->
  join nl (map bullet_line items) = a ++ 42%N :: y ->
  exists x tail, y = 32%N :: x ++ tail /\ ~ In 42%N x /\
                 (tail = [] \/ exists more, tail = 10%N :: more).
Proof.
  induction items as [| x items IH]; intros a y HF E;
    [destruct a; discriminate |].
  inversion HF as [| ? ? Hx HF']; subst.
  destruct (plain_line_spec x Hx) as (_ & _ & _ & Hx42 & _).
  assert (Hsp : ~ In 42%N (32%N :: x))
    by (intros [H | H]; [discriminate | exact (Hx42 H)]).
  destruct items as [| x2 items].
  - cbn [map join] in E. unfold bullet_line in E.
    cbn [lit list_ascii_of_string map app] in E.
    change (N_of_ascii "*") with 42%N in E.
    change (N_of_ascii " ") with 32%N in E.
    destruct a as [| c a].
    + injection E as <-. exists x, []. rewrite app_nil_r. auto.
    + injection E as _ E. exfalso. apply Hsp. rewrite E.
      apply in_or_app. right. left. reflexivity.
  - cbn [map] in E. rewrite join_cons in E.
    change (join nl (bullet_line x2 :: map bullet_line items))
      with (join nl (map bullet_line (x2 :: items))) in E.
    remember (join nl (map bullet_line (x2 :: items))) as rest eqn:Erest.
    change (bullet_line x ++ nl ++ rest)
      with (42%N :: (32%N :: x) ++ 10%N :: rest) in E.
    destruct a as [| c a].
    + injection E as <-. exists x, (10%N :: rest).
      split; [reflexivity |]. split; [exact Hx42 |]. right. eexists.
      reflexivity.
    + injection E as _ E.
      destruct (skip_prefix 42%N (32%N :: x) (10%N :: rest) a y E Hsp)
        as (e & -> & E2).
      destruct e as [| c2 e]; [discriminate |].
      injection E2 as _ E2. exact (IH e y HF' E2).
Qed.

Lemma no_emphasis_in_bullets items a g y :
  Forall (fun x => plain_line x = true) items ->
  Forall (fun c => is_line_terminator c = false) g ->
  join nl (map bullet_line items) <> a ++ 42%N :: g ++ 42%N :: y.
Proof.
  intros HF Hg E.
  destruct (star_lines items a _ HF E) as (x & tail & E2 & Hx & Htail).
  assert (Hsp : ~ In 42%N (32%N :: x))
    by (intros [H | H]; [discriminate | exact (Hx H)]).
  change (32%N :: x ++ tail) with ((32%N :: x) ++ tail) in E2.
  symmetry in E2.
  destruct (skip_prefix 42%N _ _ g y E2 Hsp) as (e & -> & E3).
  destruct Htail as [-> | (more & ->)]; [destruct e; discriminate |].
  destruct e as [| c e]; [discriminate |]. injection E3 as <- _.
  apply Forall_app in Hg. destruct Hg as [_ Hg].
  inversion Hg as [| ? ? Hc _]. discriminate.
Qed.

Lemma bullets_pass_emphasis items f :
  Forall (fun x => plain_line x = true) items ->
  replace bold_re f (join nl (map bullet_line items)) =
    join nl (map bullet_line items) /\
  replace italic_re f (join nl (map bullet_line items)) =
    join nl (map bullet_line items).
Proof.
  intros HF. split; apply replace_no_match; intros a b E;
    destruct (exec_at _ _ b) as [[rest cs] |] eqn:Hex;
    try reflexivity; exfalso.
  - apply bold_shape_line in Hex. destruct Hex as (g & y & -> & Hg).
    exact (no_emphasis_in_bullets items a g y HF Hg E).
  - apply italic_shape_line in Hex. destruct Hex as (g & y & -> & Hg).
    exact (no_emphasis_in_bullets items a g y HF Hg E).
Qed.

Lemma bullet_lines_free bad items prev :
  bad 42%N = false ->
  Forall (fun x => plain_line x = true) items ->
  line_starts_free bad prev (join nl (map bullet_line items)) = true.
Proof.
  intros H42 HF. apply line_starts_free_join.
  apply Forall_map. eapply Forall_impl; [| exact HF].
  intros x Hx. destruct (plain_line_spec x Hx) as (_ & _ & Hlt & _).
  exists 42%N, (32%N :: x). split; [reflexivity |]. split; [exact H42 |].
  unfold bullet_line. repeat constructor. exact Hlt.
Qed.

(** The bullet pass turns every bullet line into a list item. *)
Lemma bullet_pass_items : forall items prev,
  at_line_start prev = true ->
  Forall (fun x => plain_line x = true) items ->
  flat_map (seg_out (wrap_group (lit "li")))
    (scan bullet_re 0 prev (join nl (map bullet_line items))) =
  join nl (map list_item items).
Proof.
  change bullet_re with (heading_re [42%N]).
  induction items as [| x items IH]; intros prev Hprev HF.
  - cbn [map join]. rewrite scan_step.
    destruct (exec_at _ prev []) as [[rest cs] |] eqn:Hex; [| reflexivity].
    apply heading_shape in Hex. destruct Hex as (g & Eb & _). discriminate.
  - inversion HF as [| ? ? Hx HF']; subst.
    destruct (plain_line_spec x Hx) as (Hne & _ & Hlt & _).
    assert (Hlast : at_line_start (last_char prev (bullet_line x)) = false).
    { apply (inside_line (bullet_line x) prev (bullet_line x) []);
        [| rewrite app_nil_r; reflexivity | discriminate].
      unfold bullet_line. repeat constructor. exact Hlt. }
    destruct items as [| x2 items].
    + cbn [map join].
      assert (E : bullet_line x = ([42%N] ++ lit " ") ++ x ++ [])
        by (rewrite app_nil_r; reflexivity).
      rewrite <- (app_nil_r (bullet_line x)).
      rewrite (scan_hit _ prev (bullet_line x) [] [(1%nat, x)]).
      * rewrite scan_step.
        destruct (exec_at _ _ []) as [[rest cs] |] eqn:Hex.
        -- apply heading_shape in Hex. destruct Hex as (g & Eb & _).
           discriminate.
        -- cbn. rewrite app_nil_r. reflexivity.
      * discriminate.
      * rewrite app_nil_r, E. apply heading_exec; auto.
    + cbn [map]. rewrite !join_cons.
      rewrite (scan_hit _ prev (bullet_line x) _ [(1%nat, x)]).
      * cbn [flat_map seg_out]. f_equal.
        cbn [nl app]. rewrite scan_step.
        destruct (exec_at _ _ (10%N :: _)) as [[rest cs] |] eqn:Hex.
        -- apply heading_shape in Hex.
           destruct Hex as (g & _ & _ & Hls & _). congruence.
        -- cbn [flat_map seg_out app]. f_equal.
           apply (IH (Some 10%N)); [reflexivity | exact HF'].
      * discriminate.
      * change (bullet_line x) with (([42%N] ++ lit " ") ++ x).
        rewrite <- app_assoc. apply heading_exec; auto.
Qed.

(** *** Backtracking out of a greedy repetition *)

Lemma greedy_all_fail (P : char -> bool) : forall d2 tail fuel prev cs k,
  Forall (fun c => P c = true) d2 ->
  match tail with c :: _ => P c = false | [] => True end ->
  (forall e1 e2, d2 = e1 ++ e2 ->
     k (last_char prev e1) (e2 ++ tail) cs = None) ->
  repeat_matcher (one_char P) [] true fuel 0 prev (d2 ++ tail) cs k = None.
Proof.
  induction d2 as [| c d2 IH]; intros tail fuel prev cs k HP Ht Hk;
    (destruct fuel as [| fuel]; [reflexivity |]).
  - pose proof (Hk [] [] eq_refl) as H0.
    change (last_char prev []) with prev in H0. cbn [app] in H0.
    cbn. rewrite clear_caps_nil.
    destruct tail as [| c tail]; cbn; [exact H0 |]. rewrite Ht. exact H0.
  - inversion HP as [| ? ? Hc HP']; subst.
    pose proof (Hk [] (c :: d2) eq_refl) as H0.
    change (last_char prev []) with prev in H0. cbn [app] in H0.
    cbn [repeat_matcher app Nat.ltb Nat.leb]. rewrite clear_caps_nil.
    cbn [one_char]. rewrite Hc.
    assert (Hlen : Nat.eqb (length (d2 ++ tail)) (length (c :: d2 ++ tail))
                   = false) by (apply Nat.eqb_neq; cbn; lia).
    rewrite Hlen, andb_false_r. cbn [Nat.pred].
    rewrite (IH tail fuel (Some c) cs k); auto.
    intros e1 e2 E. specialize (Hk (c :: e1) e2). rewrite E in Hk.
    specialize (Hk eq_refl). change (c :: e1) with ([c] ++ e1) in Hk.
    rewrite last_char_app in Hk. exact Hk.
Qed.

(** A greedy repetition of a character class gives back what the
    continuation needs: the longest stretch after which it succeeds. *)
Lemma repeat_class_greedy_back (P : char -> bool) : forall d1 d2 tail fuel
    min prev cs k res,
  Forall (fun c => P c = true) d1 ->
  Forall (fun c => P c = true) d2 ->
  match tail with c :: _ => P c = false | [] => True end ->
  (min <= length d1)%nat ->
  (length (d1 ++ d2 ++ tail) < fuel)%nat ->
  (forall e1 e2, d2 = e1 ++ e2 -> e1 <> [] ->
     k (last_char (last_char prev d1) e1) (e2 ++ tail) cs = None) ->
  k (last_char prev d1) (d2 ++ tail) cs = Some res ->
  repeat_matcher (one_char P) [] true fuel min prev (d1 ++ d2 ++ tail) cs k
    = Some res.
Proof.
  induction d1 as [| d d1 IH]; intros d2 tail fuel min prev cs k res HP1 HP2
    Ht Hmin Hfuel Hno Hk;
    (destruct fuel as [| fuel]; [cbn in Hfuel; lia |]).
  - cbn in Hmin. assert (min = 0%nat) as -> by lia.
    change (last_char prev []) with prev in *. cbn [app].
    destruct d2 as [| c d2].
    + cbn [app] in *. cbn. rewrite clear_caps_nil.
      destruct tail as [| c tail]; cbn; [exact Hk |]. rewrite Ht. exact Hk.
    + inversion HP2 as [| ? ? Hc HP2']; subst.
      cbn [repeat_matcher app Nat.ltb Nat.leb]. rewrite clear_caps_nil.
      cbn [one_char]. rewrite Hc.
      assert (Hlen : Nat.eqb (length (d2 ++ tail)) (length (c :: d2 ++ tail))
                     = false) by (apply Nat.eqb_neq; cbn; lia).
      rewrite Hlen, andb_false_r. cbn [Nat.pred].
      rewrite (greedy_all_fail P d2 tail fuel (Some c) cs k); auto.
      intros e1 e2 E. specialize (Hno (c :: e1) e2). rewrite E in Hno.
      specialize (Hno eq_refl ltac:(discriminate)).
      change (c :: e1) with ([c] ++ e1) in Hno.
      rewrite last_char_app in Hno. exact Hno.
  - inversion HP1 as [| ? ? Hd HP1']; subst.
    cbn [repeat_matcher app]. rewrite clear_caps_nil.
    cbn [one_char]. rewrite Hd.
    assert (Hlen : Nat.eqb (length (d1 ++ d2 ++ tail))
                     (length (d :: d1 ++ d2 ++ tail)) = false)
      by (apply Nat.eqb_neq; cbn; lia).
    rewrite Hlen, andb_false_r.
    rewrite (IH d2 tail fuel (pred min) (Some d) cs k res); auto.
    + destruct (Nat.ltb 0 min); reflexivity.
    + cbn in Hmin. lia.
    + cbn in Hfuel. lia.
    + intros e1 e2 E Hne. specialize (Hno e1 e2 E Hne).
      change (d :: d1) with ([d] ++ d1) in Hno.
      rewrite last_char_app in Hno. exact Hno.
    + change (d :: d1) with ([d] ++ d1) in Hk.
      rewrite last_char_app in Hk. exact Hk.
Qed.

(** *** The list wrapper on list items *)

Lemma list_item_eq x : list_item x = lit "<li>" ++ x ++ lit "</li>".
Proof. reflexivity. Qed.

(** One item of a run, with the newline after it when there is one. *)
Lemma item_exec x tail prev cs k res :
  plain_line x = true ->
  (tail = [] /\ k (Some 62%N) [] (set_cap 1 (list_item x) cs) = Some res) \/
  (exists more, tail = 10%N :: more /\
     k (Some 10%N) more (set_cap 1 (list_item x ++ [10%N]) cs) = Some res) ->
  compile item_re prev (list_item x ++ tail) cs k = Some res.
Proof.
  intros Hx Hk. destruct (plain_line_spec x Hx) as (_ & _ & Hlt & _).
  unfold item_re. cbn [seq_re compile].
  rewrite list_item_eq, <- !app_assoc, strip_prefix_same. cbn [groups].
  apply repeat_class_greedy_back.
  - eapply Forall_impl; [| exact Hlt]. intros c Hc. rewrite Hc. reflexivity.
  - repeat constructor.
  - destruct Hk as [[-> _] | (more & -> & _)]; [exact I | reflexivity].
  - cbn. lia.
  - lia.
  - intros e1 e2 E Hne. cbv beta.
    assert (Hnone : strip_prefix (lit "</li>") (e2 ++ tail) = None).
    { destruct e1 as [| c1 e1]; [contradiction |].
      cbn in E. injection E as <- E.
      repeat (destruct e1 as [| ? e1];
              [ cbn [app] in E; subst e2; reflexivity
              | cbn [app] in E; injection E as <- E ]).
      destruct e1; [| discriminate]. cbn [app] in E. subst e2. cbn [app].
      destruct Hk as [[-> _] | (more & -> & _)]; reflexivity. }
    rewrite Hnone. reflexivity.
  - cbv beta. rewrite strip_prefix_same. rewrite clear_caps_nil.
    destruct Hk as [[-> Hk] | (more & -> & Hk)].
    + change (strip_prefix nl []) with (@None (list N)). cbv iota.
      cbn [length]. rewrite Nat.sub_0_r, firstn_all, !app_nil_r.
      change (last_char _ (lit "</li>")) with (Some 62%N). exact Hk.
    + change (strip_prefix nl (10%N :: more)) with (Some more).
      cbv iota beta.
      assert (Hlen : Nat.eqb (length more) (length (10%N :: more)) = false)
        by (apply Nat.eqb_neq; cbn; lia).
      rewrite Hlen.
      change (last_char _ nl) with (Some 10%N).
      replace (firstn _ _) with (list_item x ++ [10%N]).
      * rewrite Hk. reflexivity.
      * rewrite list_item_eq, <- !app_assoc.
        change (lit "<li>" ++ x ++ lit "</li>" ++ 10%N :: more)
          with (lit "<li>" ++ x ++ lit "</li>" ++ [10%N] ++ more).
        rewrite !app_assoc, firstn_app_length. reflexivity.
Qed.

Lemma repeat_step_greedy m gs fuel min prev s cs k res :
  m prev s (clear_caps gs cs)
    (fun prev' s' cs' =>
       if Nat.eqb min 0 && Nat.eqb (length s') (length s) then None
       else repeat_matcher m gs true fuel (pred min) prev' s' cs' k)
  = Some res ->
  repeat_matcher m gs true (S fuel) min prev s cs k = Some res.
Proof.
  intros H. cbn [repeat_matcher]. cbv zeta.
  destruct (Nat.ltb 0 min); [exact H |].
  exact (@eq_ind_r result (Some res)
           (fun z : result =>
              match z with Some r => Some r | None => k prev s cs end
              = Some res)
           eq_refl _ H).
Qed.

(** A run of list items is read to its end. *)
Lemma run_exec : forall items fuel min prev cs,
  Forall (fun x => plain_line x = true) items -> items <> [] ->
  (min <= 1)%nat -> (length items < fuel)%nat ->
  exists cs',
    repeat_matcher (compile item_re) [1%nat] true fuel min prev
      (join nl (map list_item items)) cs (fun _ s' cs0 => Some (s', cs0))
    = Some ([], cs').
Proof.
  induction items as [| x items IH]; intros fuel min prev cs HF Hne Hmin Hfuel;
    [contradiction |].
  inversion HF as [| ? ? Hx HF']; subst.
  destruct fuel as [| fuel]; [lia |].
  destruct items as [| x2 items].
  - destruct fuel as [| fuel]; [cbn in Hfuel; lia |].
    eexists. cbn [map join]. apply repeat_step_greedy.
    rewrite <- (app_nil_r (list_item x)) at 1.
    apply item_exec; [exact Hx |]. left. split; [reflexivity |].
    cbv beta. change (length []) with 0%nat.
    assert (Hlen : Nat.eqb 0 (length (list_item x)) = false)
      by (apply Nat.eqb_neq; rewrite list_item_eq; cbn; lia).
    rewrite Hlen, andb_false_r.
    assert (pred min = 0)%nat as -> by lia.
    reflexivity.
  - cbn [map]. rewrite join_cons.
    change (join nl (list_item x2 :: map list_item items))
      with (join nl (map list_item (x2 :: items))).
    destruct (IH fuel (pred min) (Some 10%N)
                (set_cap 1 (list_item x ++ [10%N]) (clear_caps [1%nat] cs))
                HF' ltac:(discriminate) ltac:(lia)
                ltac:(cbn in Hfuel |- *; lia)) as (cs' & Hrun).
    exists cs'. apply repeat_step_greedy.
    apply item_exec; [exact Hx |]. right. eexists. split; [reflexivity |].
    cbv beta.
    assert (Hlen : Nat.eqb (length (join nl (map list_item (x2 :: items))))
                     (length (list_item x ++ nl ++
                              join nl (map list_item (x2 :: items)))) = false).
    { apply Nat.eqb_neq. rewrite !length_app. cbn [nl length]. lia. }
    rewrite Hlen, andb_false_r. exact Hrun.
Qed.

Lemma items_length : forall items,
  (length items <= length (join nl (map list_item items)) + 1)%nat.
Proof.
  induction items as [| x items IH]; [cbn; lia |].
  destruct items as [| x2 items]; [cbn; lia |].
  cbn [map]. rewrite join_cons, !length_app.
  change (join nl (list_item x2 :: map list_item items))
    with (join nl (map list_item (x2 :: items))).
  cbn [length] in *. cbn [nl length]. lia.
Qed.

(** The list wrapper puts a run of list items between [<ul>] and
    [</ul>]. *)
Lemma list_run_pass items :
  Forall (fun x => plain_line x = true) items -> items <> [] ->
  replace list_run_re wrap_whole (join nl (map list_item items)) =
  lit "<ul>" ++ join nl (map list_item items) ++ lit "</ul>".
Proof.
  intros HF Hne.
  destruct (run_exec items (S (S (length (join nl (map list_item items)))))
              1 None [] HF Hne ltac:(lia)
              ltac:(pose proof (items_length items); lia)) as (cs' & Hrun).
  rewrite (replace_whole list_run_re wrap_whole _ cs').
  - reflexivity.
  - destruct items as [| x items]; [contradiction |].
    destruct items; [| cbn [map]; rewrite join_cons]; discriminate.
  - exact Hrun.
  - destruct (exec_at _ _ []) as [[rest cs] |] eqn:Hex; [| reflexivity].
    apply list_run_shape in Hex. destruct Hex as (w & E & (t & ->) & _).
    discriminate.
Qed.

Lemma in_join (c : N) sep : forall lines,
  In c (join sep lines) -> In c sep \/ exists l, In l lines /\ In c l.
Proof.
  induction lines as [| l lines IH]; intros Hin; [contradiction |].
  destruct lines as [| l2 lines].
  - right. exists l. split; [left; reflexivity | exact Hin].
  - rewrite join_cons in Hin. apply in_app_or in Hin.
    destruct Hin as [Hin | Hin];
      [right; exists l; split; [left; reflexivity | exact Hin] |].
    apply in_app_or in Hin. destruct Hin as [Hin | Hin]; [left; exact Hin |].
    destruct (IH Hin) as [H | (l' & Hl' & Hc)]; [left; exact H |].
    right. exists l'. split; [right; exact Hl' | exact Hc].
Qed.

Lemma list_item_line x :
  plain_line x = true ->
  Forall (fun c => is_line_terminator c = false) (list_item x) /\
  ~ In 124%N (list_item x).
Proof.
  intros Hx. destruct (plain_line_spec x Hx) as (_ & _ & Hlt & _ & H124 & _).
  rewrite list_item_eq. split.
  - repeat (apply Forall_app; split); try exact Hlt; repeat constructor.
  - intros Hin. apply in_app_or in Hin. destruct Hin as [Hin | Hin].
    + cbn in Hin. repeat (destruct Hin as [Hin | Hin]; [discriminate |]).
      exact Hin.
    + apply in_app_or in Hin. destruct Hin as [Hin | Hin]; [exact (H124 Hin) |].
      cbn in Hin. repeat (destruct Hin as [Hin | Hin]; [discriminate |]).
      exact Hin.
Qed.

Lemma items_free bad items prev :
  bad 60%N = false ->
  Forall (fun x => plain_line x = true) items ->
  line_starts_free bad prev (join nl (map list_item items)) = true.
Proof.
  intros H60 HF. apply line_starts_free_join.
  apply Forall_map. eapply Forall_impl; [| exact HF].
  intros x Hx. destruct (list_item_line x Hx) as [Hlt _].
  exists 60%N, (lit "li>" ++ x ++ lit "</li>").
  split; [reflexivity |]. split; [exact H60 | exact Hlt].
Qed.

Lemma items_last_char : forall items prev,
  items <> [] -> last_char prev (join nl (map list_item items)) = Some 62%N.
Proof.
  induction items as [| x items IH]; intros prev Hne; [contradiction |].
  destruct items as [| x2 items]; [apply element_last_char |].
  cbn [map]. rewrite join_cons, !last_char_app.
  apply (IH _ ltac:(discriminate)).
Qed.

(** A list between [<ul>] and [</ul>]: no line of it starts with a
    code unit that is [bad], when [<] is not. *)
Lemma list_free bad items :
  bad 60%N = false ->
  Forall (fun x => plain_line x = true) items -> items <> [] ->
  line_starts_free bad None
    (lit "<ul>" ++ join nl (map list_item items) ++ lit "</ul>") = true.
Proof.
  intros H60 HF Hne. rewrite !line_starts_free_app.
  rewrite items_free, items_last_char by assumption.
  change (lit "<ul>") with (60%N :: lit "ul>").
  rewrite (line_starts_free_line bad None 60%N (lit "ul>"))
    by (assumption || (repeat constructor)).
  rewrite line_starts_free_inside by (reflexivity || (repeat constructor)).
  reflexivity.
Qed.

Lemma list_no_pipe items :
  Forall (fun x => plain_line x = true) items ->
  ~ In 124%N (lit "<ul>" ++ join nl (map list_item items) ++ lit "</ul>").
Proof.
  intros HF Hin. apply in_app_or in Hin. destruct Hin as [Hin | Hin].
  - cbn in Hin. repeat (destruct Hin as [Hin | Hin]; [discriminate |]).
    exact Hin.
  - apply in_app_or in Hin. destruct Hin as [Hin | Hin].
    + apply in_join in Hin. destruct Hin as [[H | []] | (l & Hl & Hc)];
        [discriminate |].
      apply in_map_iff in Hl. destruct Hl as (x & <- & Hx).
      rewrite Forall_forall in HF.
      exact (proj2 (list_item_line x (HF x Hx)) Hc).
    + cbn in Hin. repeat (destruct Hin as [Hin | Hin]; [discriminate |]).
      exact Hin.
Qed.

(** A list is one block, and no paragraph. *)
Lemma list_block items :
  Forall (fun x => plain_line x = true) items -> items <> [] ->
  join nl (blocks (lit "<ul>" ++ join nl (map list_item items) ++ lit "</ul>"))
  = lit "<ul>" ++ join nl (map list_item items) ++ lit "</ul>".
Proof.
  intros HF Hne.
  set (T2 := lit "<ul>" ++ join nl (map list_item items) ++ lit "</ul>").
  assert (Hblank : forall a b, T2 <> a ++ 10%N :: 10%N :: b).
  { intros a b E.
    pose proof (list_free (fun c => (c =? 10)%N) items eq_refl HF Hne) as Hf.
    fold T2 in Hf. rewrite E in Hf.
    change (a ++ 10%N :: 10%N :: b) with (a ++ [10%N] ++ 10%N :: b) in Hf.
    rewrite app_assoc in Hf.
    apply line_starts_free_at in Hf; [discriminate |].
    rewrite last_char_app. reflexivity. }
  unfold blocks, split. change (nl ++ nl) with (10%N :: 10%N :: []).
  rewrite (split_go_whole 10%N 10%N [] T2 [] Hblank).
  cbn [rev app map join]. unfold paragraph. rewrite trim_id.
  - reflexivity.
  - eexists 60%N, _. split; reflexivity.
  - unfold T2. rewrite app_assoc, last_app_nonempty by discriminate.
    reflexivity.
Qed.

(** X17: lines of a star, a space and plain text, one below the other,
    are rendered as one list: every line becomes an [<li>] element, the
    elements stay on their lines, and [<ul>] and [</ul>] stand around
    them, without a paragraph. *)
Theorem bullet_list_renders (items : list jsstring) :
  items <> [] ->
  Forall (fun x => plain_line x = true) items ->
  renderMarkdown (join nl (map (fun x => lit "* " ++ x) items)) =
  lit "<ul>" ++
  join nl (map (fun x => lit "<li>" ++ x ++ lit "</li>") items) ++
  lit "</ul>".
Proof.
  intros Hne HF.
  change (map (fun x => lit "* " ++ x) items) with (map bullet_line items).
  change (map (fun x => lit "<li>" ++ x ++ lit "</li>") items)
    with (map list_item items).
  pose proof (bullet_lines_free (fun c => (c =? 35)%N) items None eq_refl HF)
    as H35.
  unfold renderMarkdown, render_blocks, inline_passes.
  rewrite (heading_pass_free [35%N; 35%N] _ _ H35).
  rewrite (heading_pass_free [35%N] _ _ H35).
  rewrite (heading_pass_free [] _ _ H35).
  rewrite (proj1 (bullets_pass_emphasis items _ HF)).
  rewrite (proj2 (bullets_pass_emphasis items _ HF)).
  assert (Hb : replace bullet_re (wrap_group (lit "li"))
                 (join nl (map bullet_line items)) =
               join nl (map list_item items))
    by (apply bullet_pass_items; [reflexivity | exact HF]).
  rewrite Hb, (list_run_pass items HF Hne).
  rewrite numbered_pass_free by (apply list_free; auto).
  rewrite table_pass_no_pipe by (apply list_no_pipe; exact HF).
  apply list_block; assumption.
Qed.

Lemma bullet_list_renders_witness :
  Forall (fun x => plain_line x = true) [lit "Retail"; lit "Cloud"] /\
  renderMarkdown (lit "* Retail" ++ nl ++ lit "* Cloud") =
    lit "<ul><li>Retail</li>" ++ nl ++ lit "<li>Cloud</li></ul>".
Proof.
  assert (HF : Forall (fun x => plain_line x = true)
                 [lit "Retail"; lit "Cloud"]) by (repeat constructor).
  split; [exact HF |].
  exact (bullet_list_renders [lit "Retail"; lit "Cloud"]
           ltac:(discriminate) HF).
Defined.

(** *** Numbered lines *)

Lemma numbered_exec prev ds x rest :
  at_line_start prev = true ->
  ds <> [] -> Forall (fun c => is_digit c = true) ds ->
  x <> [] -> Forall (fun c => is_line_terminator c = false) x ->
  at_line_end rest = true ->
  exec_at numbered_re prev (ds ++ lit ". " ++ x ++ rest)
  = Some (rest, [(1%nat, x)]).
Proof.
  intros Hs Hds Hd Hx Hlt He. unfold exec_at, numbered_re, some_chars.
  cbn [seq_re compile]. rewrite Hs. cbn [groups].
  apply repeat_class_greedy; [exact Hd | reflexivity | | lia |].
  - destruct ds; [contradiction | cbn; lia].
  - cbv beta. rewrite strip_prefix_same.
    apply repeat_class_greedy.
    + eapply Forall_impl; [| exact Hlt]. intros c Hc. rewrite Hc. reflexivity.
    + destruct rest as [| c rest]; [exact I |]. cbn in He. rewrite He.
      reflexivity.
    + destruct x; [contradiction | cbn; lia].
    + rewrite !length_app. cbn. lia.
    + cbv beta. rewrite He, firstn_app_length. reflexivity.
Qed.

Lemma numbered_entry_spec entry :
  numbered_entry entry = true ->
  fst entry <> [] /\ Forall (fun c => is_digit c = true) (fst entry) /\
  plain_line (snd entry) = true /\
  Forall (fun c => is_line_terminator c = false) (numbered_line entry) /\
  ~ In 42%N (numbered_line entry) /\ ~ In 60%N (numbered_line entry) /\
  exists d l', numbered_line entry = d :: l' /\ is_digit d = true.
Proof.
  destruct entry as [ds x]. unfold numbered_entry, numbered_line.
  cbn [fst snd]. intros H. apply andb_true_iff in H. destruct H as [Hd Hx].
  destruct ds as [| d ds]; [discriminate |].
  rewrite forallb_forall in Hd.
  assert (Hdig : Forall (fun c => is_digit c = true) (d :: ds))
    by (apply Forall_forall; exact Hd).
  destruct (plain_line_spec x Hx) as (_ & _ & Hlt & H42 & _ & H60 & _).
  assert (Hnot : forall c, is_digit c = true ->
                   is_line_terminator c = false /\ c <> 42%N /\ c <> 60%N).
  { intros c Hc. repeat split; [| intros -> ..]; try discriminate.
    unfold is_digit in Hc. apply andb_true_iff in Hc. destruct Hc as [H1 H2].
    apply N.leb_le in H1, H2. unfold is_line_terminator.
    repeat (apply orb_false_iff; split); apply N.eqb_neq; lia. }
  split; [discriminate |]. split; [exact Hdig |]. split; [exact Hx |].
  repeat split.
  - apply Forall_app. split.
    + eapply Forall_impl; [| exact Hdig]. intros c Hc. apply Hnot, Hc.
    + repeat constructor. exact Hlt.
  - intros Hin. apply in_app_or in Hin. destruct Hin as [Hin | Hin].
    + destruct (Hnot _ (Hd _ Hin)) as (_ & E & _). congruence.
    + destruct Hin as [E | [E | Hin]]; try discriminate. exact (H42 Hin).
  - intros Hin. apply in_app_or in Hin. destruct Hin as [Hin | Hin].
    + destruct (Hnot _ (Hd _ Hin)) as (_ & _ & E). congruence.
    + destruct Hin as [E | [E | Hin]]; try discriminate. exact (H60 Hin).
  - exists d, (ds ++ lit ". " ++ x). split; [reflexivity |].
    apply Hd. left. reflexivity.
Qed.

(** The numbered pass turns every numbered line into a list item. *)
Lemma numbered_pass_items : forall entries prev,
  at_line_start prev = true ->
  Forall (fun e => numbered_entry e = true) entries ->
  flat_map (seg_out (wrap_group (lit "li")))
    (scan numbered_re 0 prev (join nl (map numbered_line entries))) =
  join nl (map list_item (map snd entries)).
Proof.
  induction entries as [| e entries IH]; intros prev Hprev HF.
  - cbn [map join]. rewrite scan_step.
    destruct (exec_at _ prev []) as [[rest cs] |] eqn:Hex; [| reflexivity].
    apply numbered_shape in Hex. destruct Hex as (ds & g & Eb & _ & Hne & _).
    destruct ds; [contradiction | discriminate].
  - inversion HF as [| ? ? He HF']; subst.
    destruct (numbered_entry_spec e He)
      as (Hds & Hdig & Hx & Hlt & _ & _ & _).
    destruct (plain_line_spec (snd e) Hx) as (Hne & _ & Hxlt & _).
    assert (Hn0 : numbered_line e <> []).
    { unfold numbered_line. destruct (fst e); [contradiction | discriminate]. }
    assert (Hlast : at_line_start (last_char prev (numbered_line e)) = false).
    { apply (inside_line (numbered_line e) prev (numbered_line e) []);
        [exact Hlt | rewrite app_nil_r; reflexivity | exact Hn0]. }
    destruct entries as [| e2 entries].
    + cbn [map join].
      rewrite <- (app_nil_r (numbered_line e)).
      rewrite (scan_hit _ prev (numbered_line e) [] [(1%nat, snd e)]).
      * rewrite scan_step.
        destruct (exec_at _ _ []) as [[rest cs] |] eqn:Hex.
        -- apply numbered_shape in Hex.
           destruct Hex as (ds & g & Eb & _ & Hne' & _).
           destruct ds; [contradiction | discriminate].
        -- cbn. rewrite app_nil_r. reflexivity.
      * exact Hn0.
      * unfold numbered_line. rewrite <- !app_assoc.
        apply numbered_exec; auto.
    + cbn [map]. rewrite !join_cons.
      rewrite (scan_hit _ prev (numbered_line e) _ [(1%nat, snd e)]).
      * cbn [flat_map seg_out]. f_equal.
        cbn [nl app]. rewrite scan_step.
        destruct (exec_at _ _ (10%N :: _)) as [[rest cs] |] eqn:Hex.
        -- apply numbered_shape in Hex.
           destruct Hex as (ds & g & _ & _ & _ & _ & Hls & _). congruence.
        -- cbn [flat_map seg_out app]. f_equal.
           apply (IH (Some 10%N)); [reflexivity | exact HF'].
      * exact Hn0.
      * unfold numbered_line at 1. rewrite <- !app_assoc.
        apply numbered_exec; auto.
Qed.

Lemma star_passes_no_star f s :
  ~ In 42%N s ->
  replace bold_re f s = s /\ replace italic_re f s = s /\
  replace bullet_re f s = s.
Proof.
  intros Hno. repeat split; apply replace_no_match; intros a b E;
    destruct (exec_at _ _ b) as [[rest cs] |] eqn:Hex;
    try reflexivity; exfalso; apply Hno; rewrite E; apply in_or_app; right.
  - apply bold_shape in Hex. destruct Hex as (g & -> & _). left. reflexivity.
  - apply italic_shape in Hex. destruct Hex as (g & -> & _). left.
    reflexivity.
  - apply bullet_shape in Hex. destruct Hex as (g & -> & _). left.
    reflexivity.
Qed.

Lemma list_run_pass_no_angle f s :
  ~ In 60%N s -> replace list_run_re f s = s.
Proof.
  intros Hno. apply replace_no_match. intros a b E.
  destruct (exec_at _ _ b) as [[rest cs] |] eqn:Hex; [exfalso | reflexivity].
  apply list_run_shape in Hex. destruct Hex as (w & -> & (t & ->) & _).
  apply Hno. rewrite E. apply in_or_app. right. left. reflexivity.
Qed.

Lemma numbered_lines_chars entries :
  Forall (fun e => numbered_entry e = true) entries ->
  line_starts_free (fun c => (c =? 35)%N) None
    (join nl (map numbered_line entries)) = true /\
  ~ In 42%N (join nl (map numbered_line entries)) /\
  ~ In 60%N (join nl (map numbered_line entries)).
Proof.
  intros HF. rewrite Forall_forall in HF. repeat split.
  - apply line_starts_free_join. apply Forall_map, Forall_forall.
    intros e He. destruct (numbered_entry_spec e (HF e He))
      as (_ & _ & _ & Hlt & _ & _ & d & l' & E & Hd).
    exists d, l'. split; [exact E |]. split; [| exact Hlt].
    destruct (N.eqb_spec d 35) as [-> | _]; [discriminate | reflexivity].
  - intros Hin. apply in_join in Hin.
    destruct Hin as [[H | []] | (l & Hl & Hc)]; [discriminate |].
    apply in_map_iff in Hl. destruct Hl as (e & <- & He).
    destruct (numbered_entry_spec e (HF e He)) as (_ & _ & _ & _ & H42 & _).
    exact (H42 Hc).
  - intros Hin. apply in_join in Hin.
    destruct Hin as [[H | []] | (l & Hl & Hc)]; [discriminate |].
    apply in_map_iff in Hl. destruct Hl as (e & <- & He).
    destruct (numbered_entry_spec e (HF e He))
      as (_ & _ & _ & _ & _ & H60 & _).
    exact (H60 Hc).
Qed.

Lemma items_no_pipe items :
  Forall (fun x => plain_line x = true) items ->
  ~ In 124%N (join nl (map list_item items)).
Proof.
  intros HF Hin. apply in_join in Hin.
  destruct Hin as [[H | []] | (l & Hl & Hc)]; [discriminate |].
  apply in_map_iff in Hl. destruct Hl as (x & <- & Hx).
  rewrite Forall_forall in HF.
  exact (proj2 (list_item_line x (HF x Hx)) Hc).
Qed.

(** List items without a wrapper are one block, and no paragraph. *)
Lemma items_block items :
  Forall (fun x => plain_line x = true) items -> items <> [] ->
  join nl (blocks (join nl (map list_item items))) =
  join nl (map list_item items).
Proof.
  intros HF Hne.
  set (T1 := join nl (map list_item items)).
  assert (Hhead : exists t, T1 = 60%N :: 108%N :: 105%N :: 62%N :: t).
  { unfold T1. destruct items as [| x items]; [contradiction |].
    destruct items as [| x2 items]; [eexists; reflexivity |].
    cbn [map]. rewrite join_cons. eexists. reflexivity. }
  assert (Hblank : forall a b, T1 <> a ++ 10%N :: 10%N :: b).
  { intros a b E.
    pose proof (items_free (fun c => (c =? 10)%N) items None eq_refl HF) as Hf.
    fold T1 in Hf. rewrite E in Hf.
    change (a ++ 10%N :: 10%N :: b) with (a ++ [10%N] ++ 10%N :: b) in Hf.
    rewrite app_assoc in Hf.
    apply line_starts_free_at in Hf; [discriminate |].
    rewrite last_char_app. reflexivity. }
  unfold blocks, split. change (nl ++ nl) with (10%N :: 10%N :: []).
  rewrite (split_go_whole 10%N 10%N [] T1 [] Hblank).
  cbn [rev app map join]. unfold paragraph. rewrite trim_id.
  - destruct Hhead as (t & ->). reflexivity.
  - destruct Hhead as (t & ->). eexists _, _. split; reflexivity.
  - destruct Hhead as (t & Et).
    pose proof (items_last_char items None Hne) as Hl. fold T1 in Hl.
    rewrite Et in Hl |- *. rewrite last_char_last in Hl.
    injection Hl as Hl. exact (f_equal is_whitespace Hl).
Qed.

(** X18: lines of digits, a dot, a space and plain text, one below the
    other, are rendered as [<li>] elements on their lines and nothing
    else: the numbers are dropped, no [<ol>] or [<ul>] is put around the
    items (the list wrapper runs before the numbered pass), and no
    paragraph. *)
Theorem numbered_list_renders (entries : list (jsstring * jsstring)) :
  entries <> [] ->
  Forall (fun e => numbered_entry e = true) entries ->
  renderMarkdown
    (join nl (map (fun e => fst e ++ lit ". " ++ snd e) entries)) =
  join nl (map (fun e => lit "<li>" ++ snd e ++ lit "</li>") entries).
Proof.
  intros Hne HF.
  change (map (fun e => fst e ++ lit ". " ++ snd e) entries)
    with (map numbered_line entries).
  assert (Emap : map (fun e => lit "<li>" ++ snd e ++ lit "</li>") entries =
                 map list_item (map snd entries))
    by (rewrite map_map; reflexivity).
  rewrite Emap.
  destruct (numbered_lines_chars entries HF) as (H35 & H42 & H60).
  assert (HFx : Forall (fun x => plain_line x = true) (map snd entries)).
  { apply Forall_map. eapply Forall_impl; [| exact HF]. intros e He.
    apply (numbered_entry_spec e He). }
  assert (Hnex : map snd entries <> [])
    by (destruct entries; [contradiction | discriminate]).
  unfold renderMarkdown, render_blocks, inline_passes.
  rewrite (heading_pass_free [35%N; 35%N] _ _ H35).
  rewrite (heading_pass_free [35%N] _ _ H35).
  rewrite (heading_pass_free [] _ _ H35).
  destruct (star_passes_no_star (wrap_group (lit "strong")) _ H42)
    as (Eb & _ & _).
  destruct (star_passes_no_star (wrap_group (lit "em")) _ H42)
    as (_ & Ei & _).
  destruct (star_passes_no_star (wrap_group (lit "li")) _ H42)
    as (_ & _ & Eu).
  rewrite Eb, Ei, Eu, (list_run_pass_no_angle _ _ H60).
  assert (Hn : replace numbered_re (wrap_group (lit "li"))
                 (join nl (map numbered_line entries)) =
               join nl (map list_item (map snd entries)))
    by (apply numbered_pass_items; [reflexivity | exact HF]).
  rewrite Hn.
  rewrite table_pass_no_pipe by (apply items_no_pipe; exact HFx).
  apply items_block; assumption.
Qed.

Lemma numbered_list_renders_witness :
  Forall (fun e => numbered_entry e = true)
    [(lit "1", lit "Retail"); (lit "2", lit "Cloud")] /\
  renderMarkdown (lit "1. Retail" ++ nl ++ lit "2. Cloud") =
    lit "<li>Retail</li>" ++ nl ++ lit "<li>Cloud</li>".
Proof.
  assert (HF : Forall (fun e => numbered_entry e = true)
                 [(lit "1", lit "Retail"); (lit "2", lit "Cloud")])
    by (repeat constructor).
  split; [exact HF |].
  exact (numbered_list_renders
           [(lit "1", lit "Retail"); (lit "2", lit "Cloud")]
           ltac:(discriminate) HF).
Defined.

End RenderFacts.


(** * The popover inside the viewport *)

Module ViewportFacts.
Import Positioner.
Local Open Scope Z_scope.

(** X19: when the popover with the margin on both sides fits the
    viewport in width and in height, and the anchor does not start right
    of the viewport, the popover is placed inside the viewport with the
    margin kept on all four sides, whichever way the placement was
    chosen. *)
Theorem popover_stays_in_viewport padding rect tip win :
  width tip + 2 * padding <= innerWidth win ->
  height tip + 2 * padding <= innerHeight win ->
  left rect <= innerWidth win ->
  let '(x, y) := place padding rect tip win in
  padding <= x /\ x + width tip <= innerWidth win - padding /\
  padding <= y /\ y + height tip <= innerHeight win - padding.
Proof.
  intros Hw Hh Hl. unfold place.
  destruct (Z.gtb_spec (right rect + padding + width tip)
              (innerWidth win - padding));
    destruct (Z.gtb_spec (top rect + height tip)
                (innerHeight win - padding)); lia.
Qed.

Lemma popover_stays_in_viewport_witness :
  let '(x, y) := positionTooltipNear right_edge_rect small_tooltip
                   roomy_window in
  12 <= x /\ x + width small_tooltip <= innerWidth roomy_window - 12 /\
  12 <= y /\ y + height small_tooltip <= innerHeight roomy_window - 12.
Proof.
  apply (popover_stays_in_viewport 12 right_edge_rect small_tooltip
           roomy_window); cbn; lia.
Defined.

End ViewportFacts.
